(** * TEE Resource Lock: the Credible Commitment Machine

    A shallow embedding of the enclave core ([src/enclave/ccm.ts]) and of the
    cryptographic utilities it is built on ([src/shared/crypto.ts]), together
    with the properties of the lock state machine, the ABI encoder, the
    identifier hashes and the Merkle index.

    Conventions of the embedding
    - JavaScript strings are [string]s (ASCII; hex strings, addresses and
      hashes are the [0x]-prefixed strings the code manipulates);
    - [number] and [bigint] values that the code keeps integral are [Z];
    - [Uint8Array]s are [list byte];
    - a JavaScript exception is a value of [exn]; a function that may throw
      returns [option] (pure code) or runs in the monad [M] (the enclave). *)

From Stdlib Require Import ZArith List String Ascii Bool Lia.
From Stdlib Require Import Strings.Byte.
From Stdlib Require Import Arith PeanoNat.
Import ListNotations.

Local Open Scope string_scope.
Local Open Scope Z_scope.

Set Implicit Arguments.

(* ------------------------------------------------------------------------ *)
(** ** Keccak-256 ([keccak_256] of [@noble/hashes/sha3]) *)
(* ------------------------------------------------------------------------ *)

Module Keccak.

Definition mask64 : Z := 18446744073709551615.

Definition rotl64 (x : Z) (n : Z) : Z :=
  Z.lor (Z.land (Z.shiftl x n) mask64) (Z.shiftr x (64 - n)).

Definition lane (st : list Z) (i : nat) : Z := nth i st 0.

Definition indices25 : list nat := seq 0 25.

Definition round_constants : list Z :=
  [ 0x0000000000000001; 0x0000000000008082; 0x800000000000808A;
    0x8000000080008000; 0x000000000000808B; 0x0000000080000001;
    0x8000000080008081; 0x8000000000008009; 0x000000000000008A;
    0x0000000000000088; 0x0000000080008009; 0x000000008000000A;
    0x000000008000808B; 0x800000000000008B; 0x8000000000008089;
    0x8000000000008003; 0x8000000000008002; 0x8000000000000080;
    0x000000000000800A; 0x800000008000000A; 0x8000000080008081;
    0x8000000000008080; 0x0000000080000001; 0x8000000080008008 ].

(** Rotation offsets, indexed by [x + 5 * y]. *)
Definition rotation_offsets : list Z :=
  [  0;  1; 62; 28; 27;
    36; 44;  6; 55; 20;
     3; 10; 43; 25; 39;
    41; 45; 15; 21;  8;
    18;  2; 61; 56; 14 ].

Definition theta (st : list Z) : list Z :=
  let c := map (fun x => Z.lxor (lane st x)
                 (Z.lxor (lane st (x + 5))
                 (Z.lxor (lane st (x + 10))
                 (Z.lxor (lane st (x + 15)) (lane st (x + 20))))))
               (seq 0 5) in
  let d := map (fun x => Z.lxor (lane c ((x + 4) mod 5))
                                (rotl64 (lane c ((x + 1) mod 5)) 1))
               (seq 0 5) in
  map (fun i => Z.lxor (lane st i) (lane d (i mod 5))) indices25.

Definition rho_pi (st : list Z) : list Z :=
  map (fun j => let x' := (j mod 5)%nat in
                let y' := (j / 5)%nat in
                let x := ((x' + 3 * y') mod 5)%nat in
                let i := (x + 5 * x')%nat in
                rotl64 (lane st i) (nth i rotation_offsets 0))
      indices25.

Definition chi (st : list Z) : list Z :=
  map (fun j => let x := (j mod 5)%nat in
                let y := (j / 5)%nat in
                Z.lxor (lane st j)
                       (Z.ldiff (lane st ((x + 2) mod 5 + 5 * y))
                                (lane st ((x + 1) mod 5 + 5 * y))))
      indices25.

Definition iota (rc : Z) (st : list Z) : list Z :=
  match st with
  | [] => []
  | a :: rest => Z.lxor a rc :: rest
  end.

Definition round (st : list Z) (rc : Z) : list Z :=
  iota rc (chi (rho_pi (theta st))).

Definition keccak_f (st : list Z) : list Z :=
  fold_left round round_constants st.

Definition byte_val (b : byte) : Z := Z.of_N (Byte.to_N b).

Definition byte_of_Z (z : Z) : byte :=
  match Byte.of_N (Z.to_N (z mod 256)) with
  | Some b => b
  | None => x00
  end.

(** Little-endian lane of (up to) eight bytes. *)
Definition lane_of_bytes (bs : list byte) : Z :=
  fold_right (fun b acc => byte_val b + 256 * acc) 0 bs.

Fixpoint lanes_of_bytes (n : nat) (bs : list byte) : list Z :=
  match n with
  | O => []
  | S n' => lane_of_bytes (firstn 8 bs) :: lanes_of_bytes n' (skipn 8 bs)
  end.

Definition bytes_of_lane (l : Z) : list byte :=
  map (fun k => byte_of_Z (Z.shiftr l (8 * Z.of_nat k))) (seq 0 8).

Definition rate : nat := 136.

Definition pad (len : nat) : list byte :=
  let q := (rate - len mod rate)%nat in
  if (q =? 1)%nat then [x81]
  else (x01 :: repeat x00 (q - 2) ++ [x80])%list.

Definition xor_block (st : list Z) (block : list byte) : list Z :=
  let ls := lanes_of_bytes 17 block in
  map (fun i => Z.lxor (lane st i) (lane ls i)) indices25.

Fixpoint absorb (fuel : nat) (st : list Z) (bs : list byte) : list Z :=
  match fuel with
  | O => st
  | S fuel' =>
      match bs with
      | [] => st
      | _ => absorb fuel' (keccak_f (xor_block st (firstn rate bs)))
                    (skipn rate bs)
      end
  end.

Definition keccak_256 (msg : list byte) : list byte :=
  let padded := (msg ++ pad (List.length msg))%list in
  let st := absorb (List.length padded) (repeat 0 25) padded in
  flat_map bytes_of_lane (firstn 4 st).

End Keccak.

Definition keccak_256 := Keccak.keccak_256.

(** The hash is only ever run by [vm_compute]; conversion leaves it folded. *)
Opaque keccak_256.

(* ------------------------------------------------------------------------ *)
(** ** JavaScript strings, hexadecimal text and the builtins the code uses *)
(* ------------------------------------------------------------------------ *)

Module JS.

(** [String.prototype.toLowerCase], on ASCII. *)
Definition lower_ascii (c : ascii) : ascii :=
  let n := nat_of_ascii c in
  if ((65 <=? n) && (n <=? 90))%nat then ascii_of_nat (n + 32) else c.

Fixpoint toLowerCase (s : string) : string :=
  match s with
  | EmptyString => EmptyString
  | String c rest => String (lower_ascii c) (toLowerCase rest)
  end.

(** [s.slice(n)] for [n >= 0]. *)
Fixpoint slice_from (n : nat) (s : string) : string :=
  match n, s with
  | O, _ => s
  | S n', String _ rest => slice_from n' rest
  | S _, EmptyString => EmptyString
  end.

(** [s.slice(a, b)] for [0 <= a <= b]. *)
Definition slice (a b : nat) (s : string) : string :=
  String.substring a (b - a) s.

(** [s.slice(-n)] for [n > 0]. *)
Definition slice_last (n : nat) (s : string) : string :=
  slice_from (String.length s - n) s.

Fixpoint repeat_char (c : ascii) (n : nat) : string :=
  match n with
  | O => EmptyString
  | S n' => String c (repeat_char c n')
  end.

(** [s.padStart(n, c)] and [s.padEnd(n, c)] with a one-character filler. *)
Definition padStart (n : nat) (c : ascii) (s : string) : string :=
  repeat_char c (n - String.length s) ++ s.

Definition padEnd (n : nat) (c : ascii) (s : string) : string :=
  s ++ repeat_char c (n - String.length s).

Definition startsWith (p s : string) : bool := String.prefix p s.

(** [s.replace('0x', '')]: the first occurrence only. *)
Fixpoint replace_0x (s : string) : string :=
  match s with
  | EmptyString => EmptyString
  | String c rest =>
      match rest with
      | String c' rest' =>
          if (Ascii.eqb c "0" && Ascii.eqb c' "x")%bool then rest'
          else String c (replace_0x rest)
      | EmptyString => s
      end
  end.

(** Value of a digit in a given radix (letters in either case). *)
Definition digit_val (c : ascii) : option Z :=
  let n := nat_of_ascii c in
  if ((48 <=? n) && (n <=? 57))%nat then Some (Z.of_nat (n - 48))
  else if ((97 <=? n) && (n <=? 122))%nat then Some (Z.of_nat (n - 87))
  else if ((65 <=? n) && (n <=? 90))%nat then Some (Z.of_nat (n - 55))
  else None.

Definition digit_in (radix : Z) (c : ascii) : option Z :=
  match digit_val c with
  | Some d => if d <? radix then Some d else None
  | None => None
  end.

Definition hex_val : ascii -> option Z := digit_in 16.

Definition hex_char (d : Z) : ascii :=
  match d with
  | 0 => "0" | 1 => "1" | 2 => "2" | 3 => "3" | 4 => "4" | 5 => "5"
  | 6 => "6" | 7 => "7" | 8 => "8" | 9 => "9" | 10 => "a" | 11 => "b"
  | 12 => "c" | 13 => "d" | 14 => "e" | _ => "f"
  end%char.

(** [hexToBytes] of [@noble/hashes/utils]: throws on an odd length and on
    a character that is not a hexadecimal digit. *)
Fixpoint hexToBytes (s : string) : option (list byte) :=
  match s with
  | EmptyString => Some []
  | String c1 rest =>
      match rest with
      | EmptyString => None
      | String c2 rest' =>
          match hex_val c1, hex_val c2, hexToBytes rest' with
          | Some hi, Some lo, Some bs =>
              Some (Keccak.byte_of_Z (16 * hi + lo) :: bs)
          | _, _, _ => None
          end
      end
  end.

(** [bytesToHex] of [@noble/hashes/utils]: lower-case, two digits a byte. *)
Fixpoint bytesToHex (bs : list byte) : string :=
  match bs with
  | [] => EmptyString
  | b :: rest =>
      String (hex_char (Keccak.byte_val b / 16))
        (String (hex_char (Keccak.byte_val b mod 16)) (bytesToHex rest))
  end.

(** Digits of a non-negative integer in radix 16, most significant first. *)
Fixpoint hex_digits (fuel : nat) (n : Z) (acc : string) : string :=
  match fuel with
  | O => acc
  | S fuel' =>
      let acc' := String (hex_char (n mod 16)) acc in
      if n / 16 =? 0 then acc' else hex_digits fuel' (n / 16) acc'
  end.

(** [n.toString(16)] for an integral number or a bigint. *)
Definition toString16 (n : Z) : string :=
  if n <? 0
  then String "-" (hex_digits (S (Z.to_nat (Z.log2 (- n)))) (- n) EmptyString)
  else hex_digits (S (Z.to_nat (Z.log2 n))) n EmptyString.

(** [(len / 2).toString(16)] where [len] is a string length: a half shows
    as the hexadecimal fraction [.8]. *)
Definition half_toString16 (len : nat) : string :=
  if Nat.even len then toString16 (Z.of_nat (len / 2))
  else toString16 (Z.of_nat (len / 2)) ++ ".8".

(** ASCII members of the white space that the numeric parsers trim. *)
Definition is_space (c : ascii) : bool :=
  let n := nat_of_ascii c in
  ((n =? 32) || ((9 <=? n) && (n <=? 13)))%nat.

Fixpoint trimStart (s : string) : string :=
  match s with
  | String c rest => if is_space c then trimStart rest else s
  | EmptyString => EmptyString
  end.

Fixpoint trimEnd (s : string) : string :=
  match s with
  | EmptyString => EmptyString
  | String c rest =>
      match trimEnd rest with
      | EmptyString => if is_space c then EmptyString else String c EmptyString
      | rest' => String c rest'
      end
  end.

Definition trim (s : string) : string := trimEnd (trimStart s).

(** All of [s] read as digits of [radix]; fails on the empty string and on
    a foreign character. *)
Fixpoint digits_from (radix : Z) (acc : Z) (s : string) : option Z :=
  match s with
  | EmptyString => Some acc
  | String c rest =>
      match digit_in radix c with
      | Some d => digits_from radix (radix * acc + d) rest
      | None => None
      end
  end.

Definition all_digits (radix : Z) (s : string) : option Z :=
  match s with
  | EmptyString => None
  | _ => digits_from radix 0 s
  end.

(** [BigInt(s)] for a string [s] (StringToBigInt): a SyntaxError is [None]. *)
Definition BigInt_of_string (s : string) : option Z :=
  match trim s with
  | EmptyString => Some 0
  | String "0" (String "x" ds) | String "0" (String "X" ds) => all_digits 16 ds
  | String "0" (String "o" ds) | String "0" (String "O" ds) => all_digits 8 ds
  | String "0" (String "b" ds) | String "0" (String "B" ds) => all_digits 2 ds
  | String "-" ds => option_map Z.opp (all_digits 10 ds)
  | String "+" ds => all_digits 10 ds
  | ds => all_digits 10 ds
  end.

(** The longest prefix of [s] made of digits of [radix], as a number;
    [None] when there is no such digit. *)
Fixpoint digits_prefix (radix : Z) (acc : option Z) (s : string) : option Z :=
  match s with
  | EmptyString => acc
  | String c rest =>
      match digit_in radix c with
      | Some d =>
          digits_prefix radix
            (Some (radix * match acc with Some a => a | None => 0 end + d)) rest
      | None => acc
      end
  end.

(** [parseInt(s, 16)]: [None] is NaN. *)
Definition parseInt16 (s : string) : option Z :=
  let body (t : string) :=
    match t with
    | String "0" (String "x" ds) | String "0" (String "X" ds) =>
        digits_prefix 16 None ds
    | _ => digits_prefix 16 None t
    end in
  match trimStart s with
  | String "-" t => option_map Z.opp (body t)
  | String "+" t => body t
  | t => body t
  end.

Definition hexOk (s : string) : bool :=
  match hexToBytes s with Some _ => true | None => false end.

End JS.
(* ------------------------------------------------------------------------ *)
(** ** Shared types ([src/shared/types.ts]) *)
(* ------------------------------------------------------------------------ *)

(** [Address], [Hash], [Signature] and [Bytes] are all the template type
    [`0x${string}`]: plain strings. *)
Definition Address := string.
Definition Hash := string.
Definition Signature := string.
Definition Bytes := string.

Inductive LockStatus :=
| PENDING | ACTIVE | FULFILLED | SETTLED | EXPIRED | CANCELLED.

Definition LockStatus_eqb (a b : LockStatus) : bool :=
  match a, b with
  | PENDING, PENDING | ACTIVE, ACTIVE | FULFILLED, FULFILLED
  | SETTLED, SETTLED | EXPIRED, EXPIRED | CANCELLED, CANCELLED => true
  | _, _ => false
  end.

(** The string an enum member stands for at run time. *)
Definition LockStatus_name (s : LockStatus) : string :=
  match s with
  | PENDING => "PENDING" | ACTIVE => "ACTIVE" | FULFILLED => "FULFILLED"
  | SETTLED => "SETTLED" | EXPIRED => "EXPIRED" | CANCELLED => "CANCELLED"
  end.

Inductive AssetType := native | erc20 | erc721 | erc1155.

Record AssetIdentifier := {
  chainId : Z;
  assetType : AssetType;
  contractAddress : option Address;
  tokenId : option Z
}.

Record FulfillmentCondition := {
  targetChainId : Z;
  targetAsset : AssetIdentifier;
  targetAmount : Z;
  recipient : Address;
  executionData : option Bytes
}.

Record ResourceLock := {
  id : Hash;
  owner : Address;
  asset : AssetIdentifier;
  amount : Z;
  lockedAt : Z;
  expiresAt : Z;
  nonce : Z;
  fulfillmentCondition : FulfillmentCondition;
  status : LockStatus;
  ccmSignature : option Signature;
  userSignature : option Signature
}.

Record EIP712Domain := {
  name : string;
  version : string;
  domain_chainId : Z;
  verifyingContract : Address
}.

Record LockApprovalMessage := {
  msg_lockId : Hash;
  msg_owner : Address;
  msg_asset : Hash;
  msg_amount : Z;
  msg_nonce : Z;
  msg_expiresAt : Z;
  msg_fulfillmentHash : Hash
}.

(** [LOCK_APPROVAL_TYPES]: per struct name, its fields as (name, type). *)
Definition LOCK_APPROVAL_TYPES : list (string * list (string * string)) :=
  [ ("LockApproval",
     [ ("lockId", "bytes32"); ("owner", "address"); ("asset", "bytes32");
       ("amount", "uint256"); ("nonce", "uint256"); ("expiresAt", "uint256");
       ("fulfillmentHash", "bytes32") ]) ].

Record CCMAttestation := {
  att_enclaveId : Hash;
  att_timestamp : Z;
  commitmentHash : Hash;
  att_signature : Signature
}.

Record Commitment := {
  c_lockId : Hash;
  c_version : Z;
  c_chainId : Z;
  smartAccount : Address;
  lockedAsset : AssetIdentifier;
  lockedAmount : Z;
  createdAt : Z;
  c_expiresAt : Z;
  settlementDeadline : Z;
  c_fulfillmentCondition : FulfillmentCondition;
  c_nonce : Z;
  c_stateRoot : Hash;
  userSignatureHash : Hash;
  ccmAttestation : CCMAttestation
}.

Record UserOperation := {
  sender : Address;
  op_nonce : Z;
  initCode : Bytes;
  callData : Bytes;
  callGasLimit : Z;
  verificationGasLimit : Z;
  preVerificationGas : Z;
  maxFeePerGas : Z;
  maxPriorityFeePerGas : Z;
  paymasterAndData : Bytes;
  signature : Bytes
}.

Record CreateLockRequest := {
  req_owner : Address;
  sessionKey : Address;
  req_asset : AssetIdentifier;
  req_amount : string;
  expiresIn : Z;
  req_fulfillmentCondition : FulfillmentCondition
}.

Record TypedData := {
  td_domain : EIP712Domain;
  td_primaryType : string;
  td_message : LockApprovalMessage
}.

Record CreateLockResponse := {
  cl_lock : ResourceLock;
  typedDataToSign : TypedData;
  expirationTimestamp : Z
}.

Record SignLockRequest := {
  sl_lockId : Hash;
  sl_signature : Signature
}.

Record SignLockResponse := {
  sl_commitment : Commitment;
  sl_status : LockStatus
}.

Record FulfillmentProof := {
  transactionHash : Hash;
  blockNumber : Z;
  blockHash : Hash;
  logIndex : Z;
  merkleProof : option (list Hash)
}.

Record FulfillLockRequest := {
  fl_lockId : Hash;
  fulfillmentProof : FulfillmentProof
}.

Record FulfillLockResponse := {
  settlementUserOp : UserOperation;
  fl_commitment : Commitment
}.

Record RiskLimits := {
  maxTotalLockedPerAccount : Z;
  maxSingleLockAmount : Z;
  maxConcurrentLocks : Z;
  maxDailyVolume : Z
}.

Record EnclaveConfig := {
  maxLockDuration : Z;
  minLockDuration : Z;
  supportedChains : list Z;
  supportedAssets : list AssetIdentifier;
  settlementBuffer : Z;
  riskLimits : RiskLimits
}.

Record AppAttestation := {
  app_enclaveId : Hash;
  operation : string;
  app_timestamp : Z;
  dataHash : Hash;
  app_signature : Signature
}.

(** A JavaScript [Map] with string keys: [get], and [set] that keeps the
    position of a key already present and appends a new one, so that the
    list is in iteration order. *)
Section JsMap.
Variable V : Type.

Definition jsmap := list (string * V).

Fixpoint map_get (k : string) (m : jsmap) : option V :=
  match m with
  | [] => None
  | (k', v) :: rest => if String.eqb k k' then Some v else map_get k rest
  end.

Fixpoint map_set (k : string) (v : V) (m : jsmap) : jsmap :=
  match m with
  | [] => [(k, v)]
  | (k', v') :: rest =>
      if String.eqb k k' then (k, v) :: rest
      else (k', v') :: map_set k v rest
  end.

Definition map_values (m : jsmap) : list V := map snd m.
Definition map_keys (m : jsmap) : list string := map fst m.
End JsMap.

Arguments map_get {V} k m.
Arguments map_set {V} k v m.
Arguments map_values {V} m.
Arguments map_keys {V} m.
(* ------------------------------------------------------------------------ *)
(** ** Cryptographic utilities ([src/shared/crypto.ts]) *)
(* ------------------------------------------------------------------------ *)

(** The values handed to [encodePacked] and [abiEncode] ([any[]]).  An
    integral [number] and a [bigint] behave alike in both. *)
Inductive value :=
| VStr (s : string)
| VInt (z : Z)
| VBool (b : bool)
| VUndef.

Definition truthy (v : value) : bool :=
  match v with
  | VStr s => negb (String.eqb s "")
  | VInt z => negb (z =? 0)
  | VBool b => b
  | VUndef => false
  end.

(** [BigInt(value)]; a TypeError or SyntaxError is [None]. *)
Definition BigInt (v : value) : option Z :=
  match v with
  | VInt z => Some z
  | VStr s => JS.BigInt_of_string s
  | VBool b => Some (if b then 1 else 0)
  | VUndef => None
  end.

(** The secp256k1 curve of [@noble/curves]: the three entry points used.
    - [sign hash priv] is [secp256k1.sign]: the components [r], [s] and the
      recovery bit;
    - [recoverPublicKey r s yParity hash] is
      [new Signature(r, s).addRecoveryBit(yParity).recoverPublicKey(hash)]
      as 64 raw bytes ([toRawBytes(false).slice(1)]), [None] when it throws;
    - [getPublicKey priv] is [secp256k1.getPublicKey(priv, false).slice(1)]. *)
Class Secp256k1 := {
  sign : list byte -> list byte -> option (Z * Z * Z);
  recoverPublicKey : Z -> Z -> Z -> list byte -> option (list byte);
  getPublicKey : list byte -> option (list byte)
}.

Definition keccak256Bytes (data : list byte) : Hash :=
  "0x" ++ JS.bytesToHex (keccak_256 data).

(** [keccak256] applied to a string: the text is read as hexadecimal. *)
Definition keccak256 (data : string) : option Hash :=
  match JS.hexToBytes (JS.replace_0x data) with
  | Some input => Some (keccak256Bytes input)
  | None => None
  end.

Definition keccak256String (str : string) : Hash :=
  keccak256Bytes (list_byte_of_string str).

Fixpoint encodePacked_from (result : string) (values : list value) : Bytes :=
  match values with
  | [] => result
  | v :: rest =>
      let piece :=
        match v with
        | VStr s => if JS.startsWith "0x" s then JS.slice_from 2 s
                    else JS.bytesToHex (list_byte_of_string s)
        | VInt z => JS.padStart 64 "0" (JS.toString16 z)
        | VBool b => if b then "01" else "00"
        | VUndef => ""
        end in
      encodePacked_from (result ++ piece) rest
  end.

Definition encodePacked (values : list value) : Bytes :=
  encodePacked_from "0x" values.

(** What one (type, value) pair appends to the encoding; for a type the
    encoder has no branch for, nothing. *)
Definition abiEncode_piece (type : string) (v : value) : option string :=
  if String.eqb type "address" then
    match v with
    | VStr s => Some (JS.padStart 64 "0" (JS.toLowerCase (JS.slice_from 2 s)))
    | _ => None
    end
  else if (String.eqb type "uint256" || String.eqb type "int256")%bool then
    match BigInt v with
    | Some bn => Some (JS.padStart 64 "0" (JS.toString16 bn))
    | None => None
    end
  else if String.eqb type "bytes32" then
    match v with
    | VStr s => Some (JS.padStart 64 "0" (JS.slice_from 2 s))
    | _ => None
    end
  else if String.eqb type "bool" then
    Some (if truthy v then JS.repeat_char "0" 63 ++ "1"
          else JS.repeat_char "0" 64)
  else if String.eqb type "bytes" then
    match v with
    | VStr s =>
        let data := JS.slice_from 2 s in
        let len := String.length data in
        Some (JS.padStart 64 "0" (JS.half_toString16 len)
              ++ JS.padEnd (((len + 63) / 64) * 64) "0" data)
    | _ => None
    end
  else Some "".

(** The loop of [abiEncode]: [values[i]] is [undefined] past the end. *)
Fixpoint abiEncode_from (encoded : string) (types : list string)
         (values : list value) : option Bytes :=
  match types with
  | [] => Some encoded
  | type :: types' =>
      match abiEncode_piece type (hd VUndef values) with
      | Some piece => abiEncode_from (encoded ++ piece) types' (tl values)
      | None => None
      end
  end.

Definition abiEncode (types : list string) (values : list value)
  : option Bytes :=
  abiEncode_from "0x" types values.

(** [keccak256(abiEncode(types, values))], the idiom of every hash below. *)
Definition keccak256_abiEncode (types : list string) (values : list value)
  : option Hash :=
  match abiEncode types values with
  | Some encoded => keccak256 encoded
  | None => None
  end.

(** *** EIP-712 *)

(** The module constant, evaluated once. *)
Definition EIP712_DOMAIN_TYPEHASH : Hash :=
  Eval vm_compute in
    keccak256String
      "EIP712Domain(string name,string version,uint256 chainId,address verifyingContract)".

Definition hashDomain (domain : EIP712Domain) : option Hash :=
  keccak256_abiEncode
    ["bytes32"; "bytes32"; "bytes32"; "uint256"; "address"]
    [ VStr EIP712_DOMAIN_TYPEHASH;
      VStr (keccak256String (name domain));
      VStr (keccak256String (version domain));
      VInt (domain_chainId domain);
      VStr (verifyingContract domain) ].

Definition hashType (typeName : string)
           (types : list (string * list (string * string))) : option Hash :=
  match map_get typeName types with
  | Some typeFields =>
      let typeString :=
        typeName ++ "("
        ++ String.concat "," (map (fun f => snd f ++ " " ++ fst f) typeFields)
        ++ ")" in
      Some (keccak256String typeString)
  | None => None
  end.

Definition hashLockApproval (message : LockApprovalMessage) : option Hash :=
  match hashType "LockApproval" LOCK_APPROVAL_TYPES with
  | Some LOCK_APPROVAL_TYPEHASH =>
      keccak256_abiEncode
        ["bytes32"; "bytes32"; "address"; "bytes32"; "uint256"; "uint256";
         "uint256"; "bytes32"]
        [ VStr LOCK_APPROVAL_TYPEHASH;
          VStr (msg_lockId message);
          VStr (msg_owner message);
          VStr (msg_asset message);
          VInt (msg_amount message);
          VInt (msg_nonce message);
          VInt (msg_expiresAt message);
          VStr (msg_fulfillmentHash message) ]
  | None => None
  end.

(** [TypedArray.prototype.set]: copies [src] into [arr] at [offset]; a
    RangeError ([None]) when it does not fit. *)
Definition array_set (arr src : list byte) (offset : nat)
  : option (list byte) :=
  if (offset + List.length src <=? List.length arr)%nat
  then Some (firstn offset arr ++ src
             ++ skipn (offset + List.length src) arr)%list
  else None.

Definition hashTypedData (domain : EIP712Domain) (message : LockApprovalMessage)
  : option Hash :=
  match hashDomain domain with
  | Some domainSeparator =>
      match hashLockApproval message with
      | Some structHash =>
          let prefix := [x19; x01] in
          let combined := repeat x00 66 in
          match array_set combined prefix 0 with
          | Some combined1 =>
              match JS.hexToBytes (JS.slice_from 2 domainSeparator) with
              | Some ds =>
                  match array_set combined1 ds 2 with
                  | Some combined2 =>
                      match JS.hexToBytes (JS.slice_from 2 structHash) with
                      | Some sh =>
                          match array_set combined2 sh 34 with
                          | Some combined3 => Some (keccak256Bytes combined3)
                          | None => None
                          end
                      | None => None
                      end
                  | None => None
                  end
              | None => None
              end
          | None => None
          end
      | None => None
      end
  | None => None
  end.

(** *** ECDSA *)

Section Ecdsa.
Context {curve : Secp256k1}.

Definition signHash (messageHash : Hash) (privateKey : Bytes)
  : option Signature :=
  match JS.hexToBytes (JS.slice_from 2 messageHash),
        JS.hexToBytes (JS.slice_from 2 privateKey) with
  | Some hashBytes, Some privKeyBytes =>
      match sign hashBytes privKeyBytes with
      | Some (sig_r, sig_s, recovery) =>
          let r := JS.padStart 64 "0" (JS.toString16 sig_r) in
          let s := JS.padStart 64 "0" (JS.toString16 sig_s) in
          let v := JS.padStart 2 "0" (JS.toString16 (recovery + 27)) in
          Some ("0x" ++ r ++ s ++ v)
      | None => None
      end
  | _, _ => None
  end.

Definition signTypedData (domain : EIP712Domain)
           (message : LockApprovalMessage) (privateKey : Bytes)
  : option Signature :=
  match hashTypedData domain message with
  | Some hash => signHash hash privateKey
  | None => None
  end.

(** [parseSignature]: the fields [r], [s] and [yParity] ([v] is only used
    to derive [yParity]). *)
Definition parseSignature (signature : Signature) : Hash * Hash * Z :=
  let sig := JS.slice_from 2 signature in
  ( "0x" ++ JS.slice 0 64 sig,
    "0x" ++ JS.slice 64 128 sig,
    match JS.parseInt16 (JS.slice 128 130 sig) with
    | Some 27 => 0
    | _ => 1
    end ).

Definition recoverAddress (messageHash : Hash) (signature : Signature)
  : option Address :=
  match JS.hexToBytes (JS.slice_from 2 messageHash) with
  | Some hashBytes =>
      let '(r, s, yParity) := parseSignature signature in
      match JS.BigInt_of_string r, JS.BigInt_of_string s with
      | Some r', Some s' =>
          match recoverPublicKey r' s' yParity hashBytes with
          | Some pubKeyBytes =>
              let addressHash := keccak256Bytes pubKeyBytes in
              Some ("0x" ++ JS.slice_last 40 addressHash)
          | None => None
          end
      | _, _ => None
      end
  | None => None
  end.


Definition privateKeyToAddress (privateKey : Bytes) : option Address :=
  match JS.hexToBytes (JS.slice_from 2 privateKey) with
  | Some privKeyBytes =>
      match getPublicKey privKeyBytes with
      | Some pubKey =>
          Some ("0x" ++ JS.slice_last 40 (keccak256Bytes pubKey))
      | None => None
      end
  | None => None
  end.
End Ecdsa.

(** *** Merkle tree *)

Record MerkleTree := {
  leaves : list Hash;
  layers : list (list Hash)
}.

(** What an out-of-range array read yields where a string is expected. *)
Definition undefined : string := "undefined".

(** One pass of the [for] loop of [buildTree] over a layer, two nodes at a
    time; [None] when [keccak256] throws. *)
Fixpoint next_layer (currentLayer : list Hash) : option (list Hash) :=
  match currentLayer with
  | [] => Some []
  | left_ :: rest =>
      let right_ :=
        match rest with
        | r :: _ => if String.eqb r "" then left_ else r
        | [] => left_
        end in
      let '(a, b) := if String.ltb left_ right_ then (left_, right_)
                     else (right_, left_) in
      match keccak256 (encodePacked [VStr a; VStr b]) with
      | Some h =>
          match rest with
          | _ :: rest' =>
              match next_layer rest' with
              | Some hs => Some (h :: hs)
              | None => None
              end
          | [] => Some [h]
          end
      | None => None
      end
  end.

(** The [while] loop of [buildTree] from the layer pushed last: the layers
    pushed from there on, and whether the loop completed ([false]: an
    exception left the layers as they were at that point). *)
Fixpoint layers_from (fuel : nat) (currentLayer : list Hash)
  : list (list Hash) * bool :=
  match fuel with
  | O => ([currentLayer], true)
  | S fuel' =>
      if (List.length currentLayer <=? 1)%nat then ([currentLayer], true)
      else
        match next_layer currentLayer with
        | Some nextLayer =>
            let '(rest, ok) := layers_from fuel' nextLayer in
            (currentLayer :: rest, ok)
        | None => ([currentLayer], false)
        end
  end.

Definition buildTree (t : MerkleTree) : MerkleTree * bool :=
  let '(ls, ok) := layers_from (List.length (leaves t)) (leaves t) in
  ({| leaves := leaves t; layers := ls |}, ok).

(** [new MerkleTree(leaves)]. *)
Definition MerkleTree_new (initial : list Hash) : MerkleTree * bool :=
  let t := {| leaves := initial; layers := [] |} in
  if (0 <? List.length initial)%nat then buildTree t else (t, true).

Definition getRoot (t : MerkleTree) : Hash :=
  match layers t with
  | [] => "0x" ++ JS.repeat_char "0" 64
  | _ => hd undefined (last (layers t) [])
  end.

Fixpoint getProof_from (idx : nat) (ls : list (list Hash)) : list Hash :=
  match ls with
  | [] => []
  | layer :: rest =>
      match rest with
      | [] => []
      | _ =>
          let siblingIdx := if Nat.even idx then (idx + 1)%nat
                            else (idx - 1)%nat in
          ((if (siblingIdx <? List.length layer)%nat
            then [nth siblingIdx layer undefined] else [])
           ++ getProof_from (idx / 2) rest)%list
      end
  end.

Definition getProof (t : MerkleTree) (index : nat) : list Hash :=
  getProof_from index (layers t).

Fixpoint computeProof (computedHash : Hash) (proof : list Hash)
  : option Hash :=
  match proof with
  | [] => Some computedHash
  | proofElement :: rest =>
      let '(a, b) := if String.ltb computedHash proofElement
                     then (computedHash, proofElement)
                     else (proofElement, computedHash) in
      match keccak256 (encodePacked [VStr a; VStr b]) with
      | Some h => computeProof h rest
      | None => None
      end
  end.

(** [MerkleTree.verifyProof]; [None] when [keccak256] throws. *)
Definition verifyProof (leaf : Hash) (proof : list Hash) (root : Hash)
  : option bool :=
  match computeProof leaf proof with
  | Some computedHash => Some (String.eqb computedHash root)
  | None => None
  end.

Definition addLeaf (leaf : Hash) (t : MerkleTree) : MerkleTree * bool :=
  buildTree {| leaves := (leaves t ++ [leaf])%list; layers := layers t |}.

(** [leaves.indexOf(leaf)], and [leaves.splice(index, 1)]. *)
Fixpoint indexOf (leaf : Hash) (l : list Hash) : option nat :=
  match l with
  | [] => None
  | x :: rest => if String.eqb x leaf then Some O
                 else option_map S (indexOf leaf rest)
  end.

Fixpoint splice1 (index : nat) (l : list Hash) : list Hash :=
  match index, l with
  | _, [] => []
  | O, _ :: rest => rest
  | S i, x :: rest => x :: splice1 i rest
  end.

(** [removeLeaf]: the tree afterwards and the boolean returned, [None] when
    the rebuild throws. *)
Definition removeLeaf (leaf : Hash) (t : MerkleTree)
  : MerkleTree * option bool :=
  match indexOf leaf (leaves t) with
  | None => (t, Some false)
  | Some index =>
      let leaves' := splice1 index (leaves t) in
      if (0 <? List.length leaves')%nat then
        let '(t', ok) := buildTree {| leaves := leaves'; layers := layers t |} in
        (t', if ok then Some true else None)
      else ({| leaves := leaves'; layers := [] |}, Some true)
  end.

(** *** Asset and condition hashing *)

Definition zero_address : Address :=
  "0x0000000000000000000000000000000000000000".

Definition assetType_code (t : AssetType) : Z :=
  match t with native => 0 | erc20 => 1 | erc721 => 2 | erc1155 => 3 end.

(** [x || d] on an optional string and on an optional bigint. *)
Definition or_string (x : option string) (d : string) : string :=
  match x with
  | Some s => if String.eqb s "" then d else s
  | None => d
  end.

Definition or_bigint (x : option Z) (d : Z) : Z :=
  match x with
  | Some z => if z =? 0 then d else z
  | None => d
  end.

Definition hashAsset (asset : AssetIdentifier) : option Hash :=
  keccak256_abiEncode
    ["uint256"; "uint8"; "address"; "uint256"]
    [ VInt (chainId asset);
      VInt (assetType_code (assetType asset));
      VStr (or_string (contractAddress asset) zero_address);
      VInt (or_bigint (tokenId asset) 0) ].

Definition hashFulfillmentCondition (condition : FulfillmentCondition)
  : option Hash :=
  match hashAsset (targetAsset condition) with
  | Some assetHash =>
      let executionHash :=
        match executionData condition with
        | Some data => if String.eqb data ""
                       then Some ("0x" ++ JS.repeat_char "0" 64)
                       else keccak256 data
        | None => Some ("0x" ++ JS.repeat_char "0" 64)
        end in
      match executionHash with
      | Some eh =>
          keccak256_abiEncode
            ["uint256"; "bytes32"; "uint256"; "address"; "bytes32"]
            [ VInt (targetChainId condition);
              VStr assetHash;
              VInt (targetAmount condition);
              VStr (recipient condition);
              VStr eh ]
      | None => None
      end
  | None => None
  end.

Definition generateLockId (owner : Address) (asset : AssetIdentifier)
           (amount nonce timestamp : Z) : option Hash :=
  match hashAsset asset with
  | Some assetHash =>
      keccak256_abiEncode
        ["address"; "bytes32"; "uint256"; "uint256"; "uint256"]
        [ VStr owner; VStr assetHash; VInt amount; VInt nonce; VInt timestamp ]
  | None => None
  end.

(* ------------------------------------------------------------------------ *)
(** ** The enclave core ([src/enclave/ccm.ts]) *)
(* ------------------------------------------------------------------------ *)

(** The exceptions of the enclave, one constructor per [throw] site (the
    message of the [Error] is quoted), and [Raised] for an exception that
    comes out of a builtin or of a library ([BigInt], [hexToBytes],
    a method call on [undefined], the curve). *)
Inductive exn :=
| UnsupportedChain (chain : Z)        (* 'Unsupported chain: ${chainId}' *)
| ContractAddressRequired             (* 'Contract address required for token assets' *)
| AmountNotPositive                   (* 'Amount must be positive' *)
| AmountExceedsSingleLockLimit        (* 'Amount exceeds single lock limit' *)
| DurationTooShort                    (* 'Duration too short: min ${min}s' *)
| DurationTooLong                     (* 'Duration too long: max ${max}s' *)
| TooManyConcurrentLocks              (* 'Too many concurrent locks' *)
| TotalLockedExceedsLimit             (* 'Total locked amount exceeds limit' *)
| DailyVolumeLimitExceeded            (* 'Daily volume limit exceeded' *)
| LockNotFound                        (* 'Lock not found' *)
| InvalidLockStatus (st : LockStatus) (* 'Invalid lock status: ${status}' *)
| InvalidLockStatusForFulfillment (st : LockStatus)
                                      (* 'Invalid lock status for fulfillment: ${status}' *)
| CannotCancelLock (st : LockStatus)  (* 'Cannot cancel lock in status: ${status}' *)
| InvalidSignature                    (* 'Invalid signature: signer mismatch' *)
| InvalidCancellationSignature        (* 'Invalid cancellation signature' *)
| LockExpired                         (* 'Lock has expired' *)
| InvalidTransactionHash              (* 'Invalid transaction hash' *)
| InvalidBlockHash                    (* 'Invalid block hash' *)
| UnsupportedAssetKind (t : AssetType)
                                      (* 'Unsupported asset type for settlement: ${assetType}' *)
| Raised.

Inductive result (A : Type) :=
| Ok (a : A)
| Throw (e : exn).

Arguments Ok {A} a.
Arguments Throw {A} e.

Record EnclaveState := {
  enclaveId : Hash;
  privateKey : Bytes;
  publicKey : Address;
  bootTime : Z;
  locks : jsmap ResourceLock;
  nonces : jsmap Z;
  stateRoot : Hash
}.

(** The fields of a [CredibleCommitmentMachine] instance. *)
Record CCM := {
  state : EnclaveState;
  config : EnclaveConfig;
  lockMerkleTree : MerkleTree;
  dailyVolume : jsmap Z
}.

Definition DEFAULT_CONFIG : EnclaveConfig := {|
  maxLockDuration := 3600;
  minLockDuration := 30;
  supportedChains := [1; 10; 137; 42161; 8453];
  supportedAssets := [];
  settlementBuffer := 300;
  riskLimits := {|
    maxTotalLockedPerAccount := 1000000000000000000000000;
    maxSingleLockAmount := 100000000000000000000000;
    maxConcurrentLocks := 100;
    maxDailyVolume := 10000000000000000000000000
  |}
|}.

Definition CCM_DOMAIN : EIP712Domain := {|
  name := "CredibleCommitmentMachine";
  version := "1.0.0";
  domain_chainId := 0;
  verifyingContract := zero_address
|}.

(** *** The monad of the methods: the instance is threaded through, and an
    exception stops the method with the mutations done so far in place. *)

Definition M (A : Type) : Type := CCM -> CCM * result A.

Definition ret {A} (a : A) : M A := fun c => (c, Ok a).

Definition throw {A} (e : exn) : M A := fun c => (c, Throw e).

Definition bind {A B} (m : M A) (k : A -> M B) : M B :=
  fun c =>
    match m c with
    | (c', Ok a) => k a c'
    | (c', Throw e) => (c', Throw e)
    end.

Notation "x <- m ;; k" := (bind m (fun x => k))
  (at level 61, m at next level, right associativity).
Notation "m ;;; k" := (bind m (fun _ => k))
  (at level 61, right associativity).

Definition get : M CCM := fun c => (c, Ok c).

Definition modify (f : CCM -> CCM) : M unit := fun c => (f c, Ok tt).

(** A pure computation that throws where it is [None]. *)
Definition lift {A} (o : option A) : M A :=
  match o with
  | Some a => ret a
  | None => throw Raised
  end.

Definition when (b : bool) (e : exn) : M unit :=
  if b then throw e else ret tt.

Definition set_locks (f : jsmap ResourceLock -> jsmap ResourceLock) (c : CCM)
  : CCM :=
  {| state := {| enclaveId := enclaveId (state c);
                 privateKey := privateKey (state c);
                 publicKey := publicKey (state c);
                 bootTime := bootTime (state c);
                 locks := f (locks (state c));
                 nonces := nonces (state c);
                 stateRoot := stateRoot (state c) |};
     config := config c;
     lockMerkleTree := lockMerkleTree c;
     dailyVolume := dailyVolume c |}.

Definition set_nonces (f : jsmap Z -> jsmap Z) (c : CCM) : CCM :=
  {| state := {| enclaveId := enclaveId (state c);
                 privateKey := privateKey (state c);
                 publicKey := publicKey (state c);
                 bootTime := bootTime (state c);
                 locks := locks (state c);
                 nonces := f (nonces (state c));
                 stateRoot := stateRoot (state c) |};
     config := config c;
     lockMerkleTree := lockMerkleTree c;
     dailyVolume := dailyVolume c |}.

Definition set_stateRoot (r : Hash) (c : CCM) : CCM :=
  {| state := {| enclaveId := enclaveId (state c);
                 privateKey := privateKey (state c);
                 publicKey := publicKey (state c);
                 bootTime := bootTime (state c);
                 locks := locks (state c);
                 nonces := nonces (state c);
                 stateRoot := r |};
     config := config c;
     lockMerkleTree := lockMerkleTree c;
     dailyVolume := dailyVolume c |}.

Definition set_lockMerkleTree (t : MerkleTree) (c : CCM) : CCM :=
  {| state := state c;
     config := config c;
     lockMerkleTree := t;
     dailyVolume := dailyVolume c |}.

Definition set_dailyVolume (f : jsmap Z -> jsmap Z) (c : CCM) : CCM :=
  {| state := state c;
     config := config c;
     lockMerkleTree := lockMerkleTree c;
     dailyVolume := f (dailyVolume c) |}.

(** Assignments to the fields of a lock object.  Every lock is put in the
    map under its own [id] by [createLock], so the object a method holds
    after [locks.get(lockId)] is the entry of that key: an assignment to one
    of its fields is an update of the entry. *)
Definition with_status (st : LockStatus) (l : ResourceLock) : ResourceLock :=
  {| id := id l; owner := owner l; asset := asset l; amount := amount l;
     lockedAt := lockedAt l; expiresAt := expiresAt l; nonce := nonce l;
     fulfillmentCondition := fulfillmentCondition l; status := st;
     ccmSignature := ccmSignature l; userSignature := userSignature l |}.

Definition with_userSignature (sig : Signature) (l : ResourceLock)
  : ResourceLock :=
  {| id := id l; owner := owner l; asset := asset l; amount := amount l;
     lockedAt := lockedAt l; expiresAt := expiresAt l; nonce := nonce l;
     fulfillmentCondition := fulfillmentCondition l; status := status l;
     ccmSignature := ccmSignature l; userSignature := Some sig |}.

Definition with_ccmSignature (sig : Signature) (l : ResourceLock)
  : ResourceLock :=
  {| id := id l; owner := owner l; asset := asset l; amount := amount l;
     lockedAt := lockedAt l; expiresAt := expiresAt l; nonce := nonce l;
     fulfillmentCondition := fulfillmentCondition l; status := status l;
     ccmSignature := Some sig; userSignature := userSignature l |}.

(** [lock.field = v] for the lock read from the key [lockId]. *)
Definition assign (lockId : Hash) (l : ResourceLock) : M unit :=
  modify (set_locks (map_set lockId l)).

(** The two sources of time: [getSecureTime()] (seconds) and the date part
    of [new Date().toISOString()].  Within one call of a method every
    reading gives the same second and the same day. *)
Record Clock := {
  now : Z;
  today : string
}.

Definition AssetType_eqb (a b : AssetType) : bool :=
  match a, b with
  | native, native | erc20, erc20 | erc721, erc721 | erc1155, erc1155 => true
  | _, _ => false
  end.

(** [lower(a) === lower(b)], the comparison of addresses used throughout. *)
Definition same_address (a b : Address) : bool :=
  String.eqb (JS.toLowerCase a) (JS.toLowerCase b).

Definition zero_hash : Hash := "0x" ++ JS.repeat_char "0" 64.

Definition lift_result {A} (r : result A) : M A := fun c => (c, r).

Section Machine.
Context {curve : Secp256k1}.

(** [generatePrivateKey] and [generateId] given the bytes drawn. *)
Definition generatePrivateKey (privKey : list byte) : Bytes :=
  "0x" ++ JS.bytesToHex privKey.

Definition generateId (random : list byte) : Hash :=
  "0x" ++ JS.bytesToHex random.

(** [new CredibleCommitmentMachine(config)], given the 32 bytes of
    [secp256k1.utils.randomPrivateKey()], the 32 bytes of
    [randomBytes(32)] and the clock. *)
Definition CCM_new (cfg : EnclaveConfig) (privKey random : list byte)
           (clk : Clock) : option CCM :=
  let privateKey' := generatePrivateKey privKey in
  match privateKeyToAddress privateKey' with
  | Some publicKey' =>
      let enclaveId' := generateId random in
      Some {| state := {| enclaveId := enclaveId';
                          privateKey := privateKey';
                          publicKey := publicKey';
                          bootTime := now clk;
                          locks := [];
                          nonces := [];
                          stateRoot := zero_hash |};
              config := cfg;
              lockMerkleTree := fst (MerkleTree_new []);
              dailyVolume := [] |}
  | None => None
  end.

(** *** Nonce management *)

Definition getNextNonce (owner : Address) : M Z :=
  c <- get ;;
  let current :=
    or_bigint (map_get (JS.toLowerCase owner) (nonces (state c))) 0 in
  let next := current + 1 in
  modify (set_nonces (map_set (JS.toLowerCase owner) next)) ;;;
  ret next.

Definition getCurrentNonce (owner : Address) (c : CCM) : Z :=
  or_bigint (map_get (JS.toLowerCase owner) (nonces (state c))) 0.

(** *** Validation *)

(** The membership test of [assetType] in the four kinds always holds for
    a value of type [AssetType]. *)
Definition validateAsset (asset : AssetIdentifier) : M unit :=
  c <- get ;;
  when (negb (existsb (Z.eqb (chainId asset)) (supportedChains (config c))))
       (UnsupportedChain (chainId asset)) ;;;
  when (negb (AssetType_eqb (assetType asset) native)
        && negb (truthy (match contractAddress asset with
                         | Some a => VStr a
                         | None => VUndef
                         end)))
       ContractAddressRequired.

Definition validateAmount (amount : Z) : M unit :=
  c <- get ;;
  when (amount <=? 0) AmountNotPositive ;;;
  when (maxSingleLockAmount (riskLimits (config c)) <? amount)
       AmountExceedsSingleLockLimit.

Definition validateDuration (expiresIn : Z) : M unit :=
  c <- get ;;
  when (expiresIn <? minLockDuration (config c)) DurationTooShort ;;;
  when (maxLockDuration (config c) <? expiresIn) DurationTooLong.

(** The locks of [ownerAddr] that are [ACTIVE] (the filter shared by
    [validateRiskLimits] and [getActiveLocks]). *)
Definition getActiveLocks (ownerAddr : Address) (c : CCM)
  : list ResourceLock :=
  filter (fun l => same_address (owner l) ownerAddr
                   && LockStatus_eqb (status l) ACTIVE)
         (map_values (locks (state c))).

Definition validateRiskLimits (clk : Clock) (ownerAddr : Address) (amt : Z)
  : M unit :=
  c <- get ;;
  let ownerLocks := getActiveLocks ownerAddr c in
  when (maxConcurrentLocks (riskLimits (config c))
        <=? Z.of_nat (List.length ownerLocks))
       TooManyConcurrentLocks ;;;
  let totalLocked := fold_left (fun sum l => sum + amount l) ownerLocks 0 in
  when (maxTotalLockedPerAccount (riskLimits (config c))
        <? totalLocked + amt)
       TotalLockedExceedsLimit ;;;
  let todayVolume := or_bigint (map_get (today clk) (dailyVolume c)) 0 in
  when (maxDailyVolume (riskLimits (config c)) <? todayVolume + amt)
       DailyVolumeLimitExceeded.

(** *** Lock creation *)

Definition createLock (clk : Clock) (request : CreateLockRequest)
  : M CreateLockResponse :=
  amt <- lift (JS.BigInt_of_string (req_amount request)) ;;
  validateAsset (req_asset request) ;;;
  validateAmount amt ;;;
  validateDuration (expiresIn request) ;;;
  validateRiskLimits clk (req_owner request) amt ;;;
  validateAsset (targetAsset (req_fulfillmentCondition request)) ;;;
  nonce' <- getNextNonce (req_owner request) ;;
  let expiresAt' := now clk + expiresIn request in
  lockId <- lift (generateLockId (req_owner request) (req_asset request)
                                 amt nonce' (now clk)) ;;
  let lock := {| id := lockId;
                 owner := req_owner request;
                 asset := req_asset request;
                 amount := amt;
                 lockedAt := now clk;
                 expiresAt := expiresAt';
                 nonce := nonce';
                 fulfillmentCondition := req_fulfillmentCondition request;
                 status := PENDING;
                 ccmSignature := None;
                 userSignature := None |} in
  modify (set_locks (map_set lockId lock)) ;;;
  let domain := {| name := name CCM_DOMAIN;
                   version := version CCM_DOMAIN;
                   domain_chainId := chainId (req_asset request);
                   verifyingContract := verifyingContract CCM_DOMAIN |} in
  assetHash <- lift (hashAsset (req_asset request)) ;;
  fulfillmentHash <-
    lift (hashFulfillmentCondition (req_fulfillmentCondition request)) ;;
  let message := {| msg_lockId := lockId;
                    msg_owner := req_owner request;
                    msg_asset := assetHash;
                    msg_amount := amt;
                    msg_nonce := nonce';
                    msg_expiresAt := expiresAt';
                    msg_fulfillmentHash := fulfillmentHash |} in
  ret {| cl_lock := lock;
         typedDataToSign := {| td_domain := domain;
                               td_primaryType := "LockApproval";
                               td_message := message |};
         expirationTimestamp := now clk + 30 |}.

(** *** CCM attestation and commitment *)

Definition generateCCMAttestation (clk : Clock) (lock : ResourceLock)
  : M CCMAttestation :=
  c <- get ;;
  assetHash <- lift (hashAsset (asset lock)) ;;
  fulfillmentHash <-
    lift (hashFulfillmentCondition (fulfillmentCondition lock)) ;;
  lockDataHash <-
    lift (keccak256_abiEncode
            ["bytes32"; "address"; "bytes32"; "uint256"; "uint256";
             "uint256"; "bytes32"]
            [ VStr (id lock); VStr (owner lock); VStr assetHash;
              VInt (amount lock); VInt (nonce lock); VInt (expiresAt lock);
              VStr fulfillmentHash ]) ;;
  commitmentHash' <-
    lift (keccak256_abiEncode
            ["bytes32"; "uint256"; "bytes32"]
            [ VStr (enclaveId (state c)); VInt (now clk);
              VStr lockDataHash ]) ;;
  signature' <- lift (signHash commitmentHash' (privateKey (state c))) ;;
  ret {| att_enclaveId := enclaveId (state c);
         att_timestamp := now clk;
         commitmentHash := commitmentHash';
         att_signature := signature' |}.

(** [keccak256(lock.userSignature!)]: on [undefined] the hash throws. *)
Definition generateCommitment (lock : ResourceLock)
           (attestation : CCMAttestation) : M Commitment :=
  c <- get ;;
  userSignatureHash' <-
    lift (match userSignature lock with
          | Some sig => keccak256 sig
          | None => None
          end) ;;
  ret {| c_lockId := id lock;
         c_version := 1;
         c_chainId := chainId (asset lock);
         smartAccount := owner lock;
         lockedAsset := asset lock;
         lockedAmount := amount lock;
         createdAt := lockedAt lock;
         c_expiresAt := expiresAt lock;
         settlementDeadline := expiresAt lock + settlementBuffer (config c);
         c_fulfillmentCondition := fulfillmentCondition lock;
         c_nonce := nonce lock;
         c_stateRoot := stateRoot (state c);
         userSignatureHash := userSignatureHash';
         ccmAttestation := attestation |}.

(** *** The Merkle index of the instance *)

Definition tree_addLeaf (leaf : Hash) : M unit :=
  fun c =>
    let '(t, ok) := addLeaf leaf (lockMerkleTree c) in
    (set_lockMerkleTree t c, if ok then Ok tt else Throw Raised).

Definition tree_removeLeaf (leaf : Hash) : M bool :=
  fun c =>
    let '(t, r) := removeLeaf leaf (lockMerkleTree c) in
    (set_lockMerkleTree t c,
     match r with Some b => Ok b | None => Throw Raised end).

Definition update_stateRoot : M unit :=
  c <- get ;;
  modify (set_stateRoot (getRoot (lockMerkleTree c))).

(** *** Lock signing *)

Definition signLock (clk : Clock) (request : SignLockRequest)
  : M SignLockResponse :=
  c <- get ;;
  match map_get (sl_lockId request) (locks (state c)) with
  | None => throw LockNotFound
  | Some lock =>
      when (negb (LockStatus_eqb (status lock) PENDING))
           (InvalidLockStatus (status lock)) ;;;
      let domain := {| name := name CCM_DOMAIN;
                       version := version CCM_DOMAIN;
                       domain_chainId := chainId (asset lock);
                       verifyingContract := verifyingContract CCM_DOMAIN |} in
      assetHash <- lift (hashAsset (asset lock)) ;;
      fulfillmentHash <-
        lift (hashFulfillmentCondition (fulfillmentCondition lock)) ;;
      let message := {| msg_lockId := id lock;
                        msg_owner := owner lock;
                        msg_asset := assetHash;
                        msg_amount := amount lock;
                        msg_nonce := nonce lock;
                        msg_expiresAt := expiresAt lock;
                        msg_fulfillmentHash := fulfillmentHash |} in
      typedDataHash <- lift (hashTypedData domain message) ;;
      recoveredSigner <-
        lift (recoverAddress typedDataHash (sl_signature request)) ;;
      when (negb (same_address recoveredSigner (owner lock)))
           InvalidSignature ;;;
      let lock1 := with_userSignature (sl_signature request) lock in
      assign (sl_lockId request) lock1 ;;;
      ccmAttestation' <- generateCCMAttestation clk lock1 ;;
      let lock2 := with_ccmSignature (att_signature ccmAttestation') lock1 in
      assign (sl_lockId request) lock2 ;;;
      let lock3 := with_status ACTIVE lock2 in
      assign (sl_lockId request) lock3 ;;;
      modify (set_locks (map_set (id lock3) lock3)) ;;;
      tree_addLeaf (id lock3) ;;;
      update_stateRoot ;;;
      modify (set_dailyVolume (fun dv =>
        let currentVolume := or_bigint (map_get (today clk) dv) 0 in
        map_set (today clk) (currentVolume + amount lock3) dv)) ;;;
      commitment <- generateCommitment lock3 ccmAttestation' ;;
      ret {| sl_commitment := commitment; sl_status := status lock3 |}
  end.

(** *** Fulfillment verification and settlement *)

Definition verifyFulfillmentProof (lock : ResourceLock)
           (proof : FulfillmentProof) : M unit :=
  when (negb (truthy (VStr (transactionHash proof)))
        || negb (String.length (transactionHash proof) =? 66)%nat)
       InvalidTransactionHash ;;;
  when (negb (truthy (VStr (blockHash proof)))
        || negb (String.length (blockHash proof) =? 66)%nat)
       InvalidBlockHash.

Definition encodeTransferCalldata (asset' : AssetIdentifier)
           (recipient' : Address) (amt : Z) : result Bytes :=
  match assetType asset' with
  | native =>
      let funcSelector := "0xb61d27f6" in
      match abiEncode ["bytes4"; "address"; "uint256"; "bytes"]
                      [ VStr funcSelector; VStr recipient'; VInt amt;
                        VStr "0x" ] with
      | Some encoded => Ok encoded
      | None => Throw Raised
      end
  | erc20 =>
      let transferSelector := "0xa9059cbb" in
      match abiEncode ["bytes4"; "address"; "uint256"]
                      [ VStr transferSelector; VStr recipient'; VInt amt ]
      with
      | Some innerCalldata =>
          let funcSelector := "0xb61d27f6" in
          match abiEncode ["bytes4"; "address"; "uint256"; "bytes"]
                          [ VStr funcSelector;
                            match contractAddress asset' with
                            | Some a => VStr a
                            | None => VUndef
                            end;
                            VInt 0; VStr innerCalldata ] with
          | Some encoded => Ok encoded
          | None => Throw Raised
          end
      | None => Throw Raised
      end
  | other => Throw (UnsupportedAssetKind other)
  end.

Definition ENTRY_POINT : Address :=
  "0x5FF137D4b0FDCD49DcA30c7CF57E578a026d2789".

Definition hashUserOp (userOp : UserOperation) (chain : Z) : option Hash :=
  match keccak256 (initCode userOp) with
  | Some initCodeHash =>
    match keccak256 (callData userOp) with
    | Some callDataHash =>
      match keccak256 (paymasterAndData userOp) with
      | Some paymasterHash =>
        match keccak256_abiEncode
                ["address"; "uint256"; "bytes32"; "bytes32"; "uint256";
                 "uint256"; "uint256"; "uint256"; "uint256"; "bytes32"]
                [ VStr (sender userOp); VInt (op_nonce userOp);
                  VStr initCodeHash; VStr callDataHash;
                  VInt (callGasLimit userOp);
                  VInt (verificationGasLimit userOp);
                  VInt (preVerificationGas userOp);
                  VInt (maxFeePerGas userOp);
                  VInt (maxPriorityFeePerGas userOp);
                  VStr paymasterHash ] with
        | Some userOpHash =>
            keccak256_abiEncode
              ["bytes32"; "address"; "uint256"]
              [ VStr userOpHash; VStr ENTRY_POINT; VInt chain ]
        | None => None
        end
      | None => None
      end
    | None => None
    end
  | None => None
  end.

(** [userSig + ccmSig.slice(2)]; an absent user signature concatenates as
    the text of [undefined]. *)
Definition combineSignatures (userSig : option Signature)
           (ccmSig : Signature) : Bytes :=
  match userSig with Some s => s | None => undefined end
  ++ JS.slice_from 2 ccmSig.

Definition generateSettlementUserOp (lock : ResourceLock)
  : M UserOperation :=
  c <- get ;;
  transferCalldata <-
    lift_result (encodeTransferCalldata (asset lock)
                   (recipient (fulfillmentCondition lock)) (amount lock)) ;;
  let userOp (sig : Bytes) :=
    {| sender := owner lock;
       op_nonce := nonce lock;
       initCode := "0x";
       callData := transferCalldata;
       callGasLimit := 100000;
       verificationGasLimit := 100000;
       preVerificationGas := 21000;
       maxFeePerGas := 1000000000;
       maxPriorityFeePerGas := 1000000000;
       paymasterAndData := "0x";
       signature := sig |} in
  userOpHash <- lift (hashUserOp (userOp "0x") (chainId (asset lock))) ;;
  ccmSignature' <- lift (signHash userOpHash (privateKey (state c))) ;;
  ret (userOp (combineSignatures (userSignature lock) ccmSignature')).

Definition verifyFulfillment (clk : Clock) (request : FulfillLockRequest)
  : M FulfillLockResponse :=
  c <- get ;;
  match map_get (fl_lockId request) (locks (state c)) with
  | None => throw LockNotFound
  | Some lock =>
      when (negb (LockStatus_eqb (status lock) ACTIVE))
           (InvalidLockStatusForFulfillment (status lock)) ;;;
      (if expiresAt lock <? now clk then
         let expired := with_status EXPIRED lock in
         assign (fl_lockId request) expired ;;;
         modify (set_locks (map_set (id expired) expired)) ;;;
         throw LockExpired
       else ret tt) ;;;
      verifyFulfillmentProof lock (fulfillmentProof request) ;;;
      let fulfilled := with_status FULFILLED lock in
      assign (fl_lockId request) fulfilled ;;;
      modify (set_locks (map_set (id fulfilled) fulfilled)) ;;;
      settlementUserOp' <- generateSettlementUserOp fulfilled ;;
      attestation <- generateCCMAttestation clk fulfilled ;;
      commitment <- generateCommitment fulfilled attestation ;;
      ret {| settlementUserOp := settlementUserOp';
             fl_commitment := commitment |}
  end.

(** *** Lock cancellation *)

Definition cancelMessage (lockId : Hash) : option Hash :=
  keccak256_abiEncode ["bytes32"; "string"] [VStr lockId; VStr "CANCEL"].

Definition cancelLock (clk : Clock) (lockId : Hash)
           (userSignature' : Signature) : M AppAttestation :=
  c <- get ;;
  match map_get lockId (locks (state c)) with
  | None => throw LockNotFound
  | Some lock =>
      when (negb (LockStatus_eqb (status lock) ACTIVE)
            && negb (LockStatus_eqb (status lock) PENDING))
           (CannotCancelLock (status lock)) ;;;
      cancelMessage' <- lift (cancelMessage lockId) ;;
      signer <- lift (recoverAddress cancelMessage' userSignature') ;;
      when (negb (same_address signer (owner lock)))
           InvalidCancellationSignature ;;;
      let cancelled := with_status CANCELLED lock in
      assign lockId cancelled ;;;
      modify (set_locks (map_set lockId cancelled)) ;;;
      tree_removeLeaf lockId ;;;
      update_stateRoot ;;;
      dataHash' <-
        lift (keccak256_abiEncode
                ["bytes32"; "uint8"]
                [VStr lockId; VStr (LockStatus_name CANCELLED)]) ;;
      signature' <- lift (signHash cancelMessage' (privateKey (state c))) ;;
      ret {| app_enclaveId := enclaveId (state c);
             operation := "CANCEL";
             app_timestamp := now clk;
             dataHash := dataHash';
             app_signature := signature' |}
  end.

(** *** State queries *)

Definition getLock (lockId : Hash) (c : CCM) : option ResourceLock :=
  map_get lockId (locks (state c)).

Definition getLockedBalance (ownerAddr : Address) (asset' : AssetIdentifier)
           (c : CCM) : option Z :=
  match hashAsset asset' with
  | Some assetHash =>
      fold_left
        (fun acc l =>
           match acc, hashAsset (asset l) with
           | Some sum, Some h =>
               Some (if String.eqb h assetHash then sum + amount l else sum)
           | _, _ => None
           end)
        (getActiveLocks ownerAddr c) (Some 0)
  | None => None
  end.

Definition getStateRoot (c : CCM) : Hash := stateRoot (state c).

Definition getEnclavePublicKey (c : CCM) : Address := publicKey (state c).

Definition getEnclaveId (c : CCM) : Hash := enclaveId (state c).

(** *** Maintenance *)

(** The [for ... of this.state.locks] loop over the entries in iteration
    order; the body only touches the entry it visits. *)
Fixpoint cleanup_loop (clk : Clock) (entries : list (string * ResourceLock))
         (cleaned : Z) : M Z :=
  match entries with
  | [] => ret cleaned
  | (lockId, lock) :: rest =>
      if (LockStatus_eqb (status lock) ACTIVE
          && (expiresAt lock <? now clk))%bool
      then
        let expired := with_status EXPIRED lock in
        assign lockId expired ;;;
        modify (set_locks (map_set lockId expired)) ;;;
        tree_removeLeaf lockId ;;;
        cleanup_loop clk rest (cleaned + 1)
      else cleanup_loop clk rest cleaned
  end.

Definition cleanupExpiredLocks (clk : Clock) : M Z :=
  c <- get ;;
  cleaned <- cleanup_loop clk (locks (state c)) 0 ;;
  (if 0 <? cleaned then update_stateRoot else ret tt) ;;;
  ret cleaned.
End Machine.

(** *** The interface of the enclave as a transition system *)

Inductive request :=
| CreateLock (r : CreateLockRequest)
| SignLock (r : SignLockRequest)
| VerifyFulfillment (r : FulfillLockRequest)
| CancelLock (lockId : Hash) (userSig : Signature)
| CleanupExpiredLocks.

(** What a call gives back: the value returned or the exception thrown. *)
Inductive response :=
| Created (r : result CreateLockResponse)
| Signed (r : result SignLockResponse)
| Fulfilled (r : result FulfillLockResponse)
| Cancelled (r : result AppAttestation)
| Cleaned (r : result Z).

Section Transitions.
Context {curve : Secp256k1}.

Definition step (clk : Clock) (rq : request) (c : CCM) : CCM * response :=
  match rq with
  | CreateLock r => let '(c', x) := createLock clk r c in (c', Created x)
  | SignLock r => let '(c', x) := signLock clk r c in (c', Signed x)
  | VerifyFulfillment r =>
      let '(c', x) := verifyFulfillment clk r c in (c', Fulfilled x)
  | CancelLock lockId sig =>
      let '(c', x) := cancelLock clk lockId sig c in (c', Cancelled x)
  | CleanupExpiredLocks =>
      let '(c', x) := cleanupExpiredLocks clk c in (c', Cleaned x)
  end.

(** A run: the calls in order, each at its own clock reading. *)
Fixpoint run (calls : list (Clock * request)) (c : CCM) : CCM :=
  match calls with
  | [] => c
  | (clk, rq) :: rest => run rest (fst (step clk rq c))
  end.

(** The instances that calls can produce from a fresh one. *)
Inductive reachable : CCM -> Prop :=
| reachable_new cfg privKey random clk c :
    List.length privKey = 32%nat -> List.length random = 32%nat ->
    CCM_new cfg privKey random clk = Some c -> reachable c
| reachable_step clk rq c :
    reachable c -> reachable (fst (step clk rq c)).
End Transitions.

(* ------------------------------------------------------------------------ *)
(** ** A stand-in curve and concrete runs

    The curve is outside the repository; the statements below hold for any
    implementation of it.  To run the methods on concrete inputs, [Toy] is a
    stand-in with the one property of ECDSA that the enclave relies on: the
    key recovered from [sign hash priv] against [hash] is the public key of
    [priv], and against another hash it is some other key. *)
(* ------------------------------------------------------------------------ *)

Module Toy.

Definition Z_of_bytes (bs : list byte) : Z :=
  fold_left (fun acc b => 256 * acc + Keccak.byte_val b) bs 0.

Definition bytes_of_Z (len : nat) (z : Z) : list byte :=
  map (fun k => Keccak.byte_of_Z (Z.shiftr z (8 * Z.of_nat (len - 1 - k))))
      (seq 0 len).

Definition publicKeyOf (priv : Z) : list byte :=
  bytes_of_Z 64 (priv * priv + 7).

#[export] Instance curve : Secp256k1 := {|
  sign := fun hash priv =>
    Some (Z_of_bytes priv, (Z_of_bytes hash + Z_of_bytes priv) mod 2 ^ 256, 0);
  recoverPublicKey := fun r s yParity hash =>
    Some (publicKeyOf (r + ((s - r - Z_of_bytes hash) mod 2 ^ 256)));
  getPublicKey := fun priv => Some (publicKeyOf (Z_of_bytes priv))
|}.

End Toy.

(** Concrete inputs: the happy-path scenario (an ERC-20 lock on chain 1
    against a native transfer on chain 42161), a lock on an ERC-721 asset,
    and a request whose token contract is not hexadecimal text. *)
Module Scenario.
Import Toy.

Definition userKey : Bytes := "0x" ++ JS.repeat_char "1" 64.
Definition otherKey : Bytes := "0x" ++ JS.repeat_char "3" 64.
Definition enclaveKeyBytes : list byte := repeat x22 32.
Definition enclaveIdBytes : list byte := repeat xaa 32.

Definition t0 : Clock := {| now := 1700000000; today := "2023-11-14" |}.

Definition user : Address :=
  Eval vm_compute in
    match privateKeyToAddress userKey with Some a => a | None => "" end.

Definition usdc : AssetIdentifier :=
  {| chainId := 1; assetType := erc20;
     contractAddress := Some "0xA0b86991c6218b36c1d19D4a2e9Eb0cE3606eB48";
     tokenId := None |}.

Definition usdc_as_nft : AssetIdentifier :=
  {| chainId := 1; assetType := erc721;
     contractAddress := Some "0xA0b86991c6218b36c1d19D4a2e9Eb0cE3606eB48";
     tokenId := None |}.

Definition nft : AssetIdentifier :=
  {| chainId := 1; assetType := erc721;
     contractAddress := Some "0xBC4CA0EdA7647A8aB7C2061c2E118A18a936f13D";
     tokenId := Some 7 |}.

Definition bad_token : AssetIdentifier :=
  {| chainId := 1; assetType := erc20;
     contractAddress := Some "0xnot-a-hex-address";
     tokenId := None |}.

Definition ether_on_arbitrum : AssetIdentifier :=
  {| chainId := 42161; assetType := native;
     contractAddress := None; tokenId := None |}.

Definition condition : FulfillmentCondition :=
  {| targetChainId := 42161;
     targetAsset := ether_on_arbitrum;
     targetAmount := 500000000000000000;
     recipient := user;
     executionData := None |}.

Definition create (a : AssetIdentifier) (amt : string) (secs : Z)
  : CreateLockRequest :=
  {| req_owner := user; sessionKey := user; req_asset := a;
     req_amount := amt; expiresIn := secs;
     req_fulfillmentCondition := condition |}.

Definition proof : FulfillmentProof :=
  {| transactionHash := "0x" ++ JS.repeat_char "7" 64;
     blockNumber := 1;
     blockHash := "0x" ++ JS.repeat_char "8" 64;
     logIndex := 0;
     merkleProof := None |}.

(** Three lock identifiers for a Merkle tree with an odd row. *)
Definition leafA : Hash := Eval vm_compute in keccak256String "lock-a".
Definition leafB : Hash := Eval vm_compute in keccak256String "lock-b".
Definition leafC : Hash := Eval vm_compute in keccak256String "lock-c".

(** The standard [abi.encode(bytes32, string)] of a lock identifier and
    the text [CANCEL]: the identifier, the offset [0x40] of the string,
    its length 6 and its bytes padded to a word. *)
Definition standard_cancel_preimage (lockId : Hash) : Bytes :=
  "0x" ++ JS.slice_from 2 lockId
       ++ JS.padStart 64 "0" "40"
       ++ JS.padStart 64 "0" "6"
       ++ JS.padEnd 64 "0" (JS.bytesToHex (list_byte_of_string "CANCEL")).
End Scenario.


(* ------------------------------------------------------------------------ *)
(** ** Notions used in the statements *)
(* ------------------------------------------------------------------------ *)

(** *** Well-formed hexadecimal text and numbers *)

Definition is_hex_digit (c : ascii) : bool :=
  match JS.hex_val c with Some _ => true | None => false end.

Fixpoint all_hex (s : string) : bool :=
  match s with
  | EmptyString => true
  | String c rest => is_hex_digit c && all_hex rest
  end.

(** An even number of hexadecimal digits: the text of some bytes. *)
Definition even_hex (s : string) : bool :=
  Nat.even (String.length s) && all_hex s.

(** One 32-byte word of an encoding: 64 hexadecimal digits. *)
Definition is_word (s : string) : bool :=
  (String.length s =? 64)%nat && all_hex s.

(** [0x] followed by the digits of exactly [n] bytes. *)
Definition is_hex_bytes (n : nat) (s : string) : bool :=
  JS.startsWith "0x" s && (String.length s =? 2 + 2 * n)%nat
  && all_hex (JS.slice_from 2 s).

Definition is_address : string -> bool := is_hex_bytes 20.
Definition is_hash : string -> bool := is_hex_bytes 32.
Definition is_signature : string -> bool := is_hex_bytes 65.

(** [0x] followed by the digits of any number of bytes. *)
Definition is_bytes (s : string) : bool :=
  JS.startsWith "0x" s && even_hex (JS.slice_from 2 s).

Definition is_uint256 (z : Z) : bool := (0 <=? z) && (z <? 2 ^ 256).

(** A pair (type, value) whose piece of the encoding is the text of some
    bytes, and a list of such pairs. *)
Definition piece_ok (type : string) (v : value) : bool :=
  match abiEncode_piece type v with
  | Some piece => even_hex piece
  | None => false
  end.

Fixpoint pieces_ok (types : list string) (values : list value) : bool :=
  match types with
  | [] => true
  | type :: types' =>
      piece_ok type (hd VUndef values) && pieces_ok types' (tl values)
  end.





(** The enclave key signs every hash ([signHash] does not throw). *)
Definition signs {curve : Secp256k1} (key : Bytes) : Prop :=
  forall h : Hash, is_hash h = true ->
                   exists sig : Signature, signHash h key = Some sig.

(** A list of hashes, as the leaves of the Merkle index are. *)
Definition hashes (l : list Hash) : Prop :=
  Forall (fun leaf => is_hash leaf = true) l.

(** An enclave in working order: its identifier is a hash, its key signs,
    and the leaves of its Merkle index are hashes. *)
Definition wt_enclave {curve : Secp256k1} (c : CCM) : Prop :=
  is_hash (enclaveId (state c)) = true
  /\ signs (privateKey (state c))
  /\ hashes (leaves (lockMerkleTree c)).

(** The statuses other than [EXPIRED] that a pending lock can reach. *)
Definition not_expired (st : LockStatus) : Prop :=
  st = PENDING \/ st = ACTIVE \/ st = CANCELLED.


(** A proof as [verifyFulfillmentProof] wants it: both hashes 66
    characters long. *)
Definition well_formatted (p : FulfillmentProof) : bool :=
  (String.length (transactionHash p) =? 66)%nat
  && (String.length (blockHash p) =? 66)%nat.

(** The hash that [signLock] recovers the signer from: the EIP-712 hash of
    the approval message rebuilt from the stored lock. *)
Definition approvalHash (lock : ResourceLock) : option Hash :=
  match hashAsset (asset lock) with
  | Some assetHash =>
      match hashFulfillmentCondition (fulfillmentCondition lock) with
      | Some fulfillmentHash =>
          hashTypedData
            {| name := name CCM_DOMAIN;
               version := version CCM_DOMAIN;
               domain_chainId := chainId (asset lock);
               verifyingContract := verifyingContract CCM_DOMAIN |}
            {| msg_lockId := id lock;
               msg_owner := owner lock;
               msg_asset := assetHash;
               msg_amount := amount lock;
               msg_nonce := nonce lock;
               msg_expiresAt := expiresAt lock;
               msg_fulfillmentHash := fulfillmentHash |}
      | None => None
      end
  | None => None
  end.

(** The volume recorded for a day ([dailyVolume.get(day) || 0n]). *)
Definition volume (day : string) (c : CCM) : Z :=
  or_bigint (map_get day (dailyVolume c)) 0.

(** The status of the lock stored under a key, if any. *)
Definition statusOf (lockId : Hash) (c : CCM) : option LockStatus :=
  option_map status (getLock lockId c).

(** The instance after the status of the lock under [lockId] is assigned. *)
Definition assign_status (lockId : Hash) (lock : ResourceLock)
           (st : LockStatus) (c : CCM) : CCM :=
  set_locks (map_set lockId (with_status st lock)) c.

(** The instance after the two writes of a status change: the assignment to
    the lock read from [lockId], then [locks.set(lock.id, lock)]. *)
Definition status_written (lockId : Hash) (lock : ResourceLock)
           (st : LockStatus) (c : CCM) : CCM :=
  assign_status (id lock) lock st (assign_status lockId lock st c).

(** A method that does not change the instance. *)
Definition readonly {A} (m : M A) : Prop := forall c, fst (m c) = c.

(** A property of the instance that a method maintains, whether it returns
    or throws. *)
Definition maintains {A} (I : CCM -> Prop) (m : M A) : Prop :=
  forall c, I c -> I (fst (m c)).

(** A method whose only exception is that of a builtin or of a library. *)
Definition only_raises {A} (m : M A) : Prop :=
  forall c c' e, m c = (c', Throw e) -> e = Raised.

(** What holds of the locks of every instance that calls can produce: the
    keys of the map are distinct, every lock is stored under its own
    identifier, and every amount is positive. *)
Definition lock_invariant (c : CCM) : Prop :=
  NoDup (map_keys (locks (state c)))
  /\ Forall (fun entry => id (snd entry) = fst entry
                          /\ 0 < amount (snd entry))
            (locks (state c)).

(** The lock as [signLock] leaves it once it is active. *)
Definition activated (userSig ccmSig : Signature) (lock : ResourceLock)
  : ResourceLock :=
  with_status ACTIVE
    (with_ccmSignature ccmSig (with_userSignature userSig lock)).

(** What [signLock] does once the signer is accepted: the writes to the
    lock, the attestation, the Merkle index, the state root, the daily
    volume and the commitment returned. *)
Definition signLock_commit {curve : Secp256k1} (clk : Clock)
           (request : SignLockRequest) (lock : ResourceLock)
  : M SignLockResponse :=
  let lock1 := with_userSignature (sl_signature request) lock in
  assign (sl_lockId request) lock1 ;;;
  ccmAttestation' <- generateCCMAttestation clk lock1 ;;
  let lock2 := with_ccmSignature (att_signature ccmAttestation') lock1 in
  assign (sl_lockId request) lock2 ;;;
  let lock3 := with_status ACTIVE lock2 in
  assign (sl_lockId request) lock3 ;;;
  modify (set_locks (map_set (id lock3) lock3)) ;;;
  tree_addLeaf (id lock3) ;;;
  update_stateRoot ;;;
  modify (set_dailyVolume (fun dv =>
    let currentVolume := or_bigint (map_get (today clk) dv) 0 in
    map_set (today clk) (currentVolume + amount lock3) dv)) ;;;
  commitment <- generateCommitment lock3 ccmAttestation' ;;
  ret {| sl_commitment := commitment; sl_status := status lock3 |}.

Module Runs.
Import Toy Scenario.

Definition fresh : CCM :=
  Eval vm_compute in
    match CCM_new DEFAULT_CONFIG enclaveKeyBytes enclaveIdBytes t0 with
    | Some c => c
    | None => {| state := {| enclaveId := ""; privateKey := "";
                             publicKey := ""; bootTime := 0; locks := [];
                             nonces := []; stateRoot := "" |};
                 config := DEFAULT_CONFIG;
                 lockMerkleTree := {| leaves := []; layers := [] |};
                 dailyVolume := [] |}
    end.

(** The lock of the scenario, created at [t0] for 300 seconds. *)
Definition created : CCM * result CreateLockResponse :=
  Eval vm_compute in createLock t0 (create usdc "1000000000" 300) fresh.

Definition pending : CCM := Eval vm_compute in fst created.

Definition pendingLock : ResourceLock :=
  Eval vm_compute in
    match map_values (locks (state pending)) with
    | l :: _ => l
    | [] => {| id := ""; owner := ""; asset := usdc; amount := 0;
               lockedAt := 0; expiresAt := 0; nonce := 0;
               fulfillmentCondition := condition; status := SETTLED;
               ccmSignature := None; userSignature := None |}
    end.

Definition lockId : Hash := Eval vm_compute in id pendingLock.

Definition approval : Hash :=
  Eval vm_compute in
    match approvalHash pendingLock with Some h => h | None => "" end.

(** The owner's signature of the approval, and a stranger's. *)
Definition userSig : Signature :=
  Eval vm_compute in
    match signHash approval userKey with Some s => s | None => "" end.

Definition strangerSig : Signature :=
  Eval vm_compute in
    match signHash approval otherKey with Some s => s | None => "" end.

Definition stranger : Address :=
  Eval vm_compute in
    match recoverAddress approval strangerSig with
    | Some a => a
    | None => ""
    end.

Definition signed : CCM * result SignLockResponse :=
  Eval vm_compute in
    signLock t0 {| sl_lockId := lockId; sl_signature := userSig |} pending.

Definition active : CCM := Eval vm_compute in fst signed.

Definition activeLock : ResourceLock :=
  Eval vm_compute in
    match map_values (locks (state active)) with
    | l :: _ => l
    | [] => pendingLock
    end.

Definition fulfil : FulfillLockRequest :=
  {| fl_lockId := lockId; fulfillmentProof := proof |}.

(** Later clock readings: the last second of the lock, and one past. *)
Definition at_expiry : Clock :=
  {| now := 1700000300; today := "2023-11-14" |}.
Definition past_expiry : Clock :=
  {| now := 1700000301; today := "2023-11-14" |}.

(** A request that passes every validation and whose asset cannot be
    hashed, and the request of the scenario. *)
Definition unhashable : CreateLockRequest := create bad_token "1000000000" 300.
Definition scenario : CreateLockRequest := create usdc "1000000000" 300.
End Runs.

(* ------------------------------------------------------------------------ *)
(** ** The rest of the enclave and further notions *)
(* ------------------------------------------------------------------------ *)

(** *** Boot attestation ([generateBootAttestation]) *)

Record BootAttestation := {
  boot_enclaveId : Hash;
  boot_publicKey : Address;
  boot_bootTime : Z;
  codeHash : Hash;
  awsAttestationDocument : Bytes;
  boot_signature : Signature
}.

(** The statements run in source order: the attestation data, its hash,
    the signature, the mock document, and then the fields of the object
    literal, of which [codeHash] is [keccak256] applied to a text. *)
Definition generateBootAttestation {curve : Secp256k1} : M BootAttestation :=
  c <- get ;;
  attestationData <-
    lift (abiEncode ["bytes32"; "address"; "uint256"]
            [ VStr (enclaveId (state c)); VStr (publicKey (state c));
              VInt (bootTime (state c)) ]) ;;
  dataHash' <- lift (keccak256 attestationData) ;;
  signature' <- lift (signHash dataHash' (privateKey (state c))) ;;
  mockAwsAttestation <-
    lift (abiEncode ["bytes32"; "bytes32"; "uint256"]
            [ VStr (enclaveId (state c)); VStr dataHash';
              VInt (bootTime (state c)) ]) ;;
  codeHash' <- lift (keccak256 "enclave-binary-v1.0.0") ;;
  ret {| boot_enclaveId := enclaveId (state c);
         boot_publicKey := publicKey (state c);
         boot_bootTime := bootTime (state c);
         codeHash := codeHash';
         awsAttestationDocument := mockAwsAttestation;
         boot_signature := signature' |}.

(** *** Notions used in the further statements *)

(** A type whose value takes one 32-byte word, with a value of that type. *)
Definition static_ok (type : string) (v : value) : bool :=
  if String.eqb type "address" then
    match v with VStr s => is_address s | _ => false end
  else if (String.eqb type "uint256" || String.eqb type "int256")%bool then
    match BigInt v with Some z => is_uint256 z | None => false end
  else if String.eqb type "bytes32" then
    match v with VStr s => is_hash s | _ => false end
  else String.eqb type "bool".


(** What holds of every instance that calls can produce: the locks are as
    [lock_invariant] says and their keys are hashes, the leaves of the
    Merkle index are hashes, the state root is the root of the index, and
    every active lock is a leaf. *)
Definition index_invariant (c : CCM) : Prop :=
  lock_invariant c
  /\ Forall (fun entry => is_hash (fst entry) = true) (locks (state c))
  /\ hashes (leaves (lockMerkleTree c))
  /\ stateRoot (state c) = getRoot (lockMerkleTree c)
  /\ (forall k lock, getLock k c = Some lock -> status lock = ACTIVE ->
                     In k (leaves (lockMerkleTree c))).

(** A tree whose layers are those built from its leaves. *)
Definition built (t : MerkleTree) : Prop :=
  t = fst (MerkleTree_new (leaves t)).

(** A method whose exceptions all satisfy [P]. *)
Definition raises_in {A} (P : exn -> Prop) (m : M A) : Prop :=
  forall c c' e, m c = (c', Throw e) -> P e.


(** The exceptions by which a call refuses its input: a failed
    validation, a missing lock, a lock in the wrong status, a foreign
    signer, a malformed proof.  The others are [LockExpired], the refusal
    of an asset kind by the settlement builder, and the exceptions of
    builtins and libraries. *)
Definition rejection (e : exn) : bool :=
  match e with
  | LockExpired | UnsupportedAssetKind _ | Raised => false
  | _ => true
  end.

(** The exception a call ended with, if it threw. *)
Definition thrown (r : response) : option exn :=
  match r with
  | Created (Throw e) | Signed (Throw e) | Fulfilled (Throw e)
  | Cancelled (Throw e) | Cleaned (Throw e) => Some e
  | _ => None
  end.

(** A method that leaves the instance as it is when it refuses its input,
    and a method that never refuses. *)
Definition clean {A} (m : M A) : Prop :=
  forall c c' e, m c = (c', Throw e) -> rejection e = true -> c' = c.

Definition hard {A} (m : M A) : Prop :=
  raises_in (fun e => rejection e = false) m.

(** The terms of a lock: everything but its status and its signatures. *)
Definition terms (l : ResourceLock)
  : Hash * Address * AssetIdentifier * Z * Z * Z * Z * FulfillmentCondition :=
  (id l, owner l, asset l, amount l, lockedAt l, expiresAt l, nonce l,
   fulfillmentCondition l).

(** The moves of the status of a stored lock that the methods make: a
    pending lock is activated or cancelled, an active lock is fulfilled,
    expired or cancelled, and any status may stay. *)
Definition transition (a b : LockStatus) : bool :=
  match a, b with
  | PENDING, ACTIVE | PENDING, CANCELLED => true
  | ACTIVE, FULFILLED | ACTIVE, EXPIRED | ACTIVE, CANCELLED => true
  | _, _ => LockStatus_eqb a b
  end.

(** The lock under [k] has the terms of [lock] and a status that [lock]
    can move to. *)
Definition follows (k : Hash) (lock : ResourceLock) (c : CCM) : Prop :=
  exists l, getLock k c = Some l
            /\ terms l = terms lock
            /\ transition (status lock) (status l) = true.

(** A type name the encoder has no branch for. *)
Definition unhandled (type : string) : bool :=
  negb (String.eqb type "address" || String.eqb type "uint256"
        || String.eqb type "int256" || String.eqb type "bytes32"
        || String.eqb type "bool" || String.eqb type "bytes").

Module Cases.
Import Toy Scenario.

(** Long after the signing window (30 s) and the expiry (300 s) of the
    lock of the scenario. *)
Definition long_after : Clock :=
  {| now := 1700009999; today := "2023-11-15" |}.

(** A lock on an ERC-721 token, created and signed like the one of the
    scenario. *)
Definition nft_created : CCM * result CreateLockResponse :=
  Eval vm_compute in createLock t0 (create nft "1" 300) Runs.fresh.

Definition nft_pending : CCM := Eval vm_compute in fst nft_created.

Definition nft_pendingLock : ResourceLock :=
  Eval vm_compute in
    match map_values (locks (state nft_pending)) with
    | l :: _ => l
    | [] => Runs.pendingLock
    end.

Definition nft_lockId : Hash := Eval vm_compute in id nft_pendingLock.

Definition nft_userSig : Signature :=
  Eval vm_compute in
    match approvalHash nft_pendingLock with
    | Some h => match signHash h userKey with Some s => s | None => "" end
    | None => ""
    end.

Definition nft_active : CCM :=
  Eval vm_compute in
    fst (signLock t0 {| sl_lockId := nft_lockId;
                        sl_signature := nft_userSig |} nft_pending).

Definition nft_activeLock : ResourceLock :=
  Eval vm_compute in
    match map_values (locks (state nft_active)) with
    | l :: _ => l
    | [] => nft_pendingLock
    end.

Definition nft_fulfil : FulfillLockRequest :=
  {| fl_lockId := nft_lockId; fulfillmentProof := proof |}.

(** The cancellation of the lock of the scenario, signed by its owner. *)
Definition cancel_message : Hash :=
  Eval vm_compute in
    match cancelMessage Runs.lockId with Some h => h | None => "" end.

Definition cancel_sig : Signature :=
  Eval vm_compute in
    match signHash cancel_message userKey with Some s => s | None => "" end.

(** A four-leaf tree. *)
Definition leafD : Hash := Eval vm_compute in keccak256String "lock-d".

Definition four : MerkleTree :=
  Eval vm_compute in fst (MerkleTree_new [leafA; leafB; leafC; leafD]).
End Cases.
(* ======================================================================== *)
(** * Properties *)
(* ======================================================================== *)

(** ** Test vectors of the hash *)

Example keccak_256_empty :
  JS.bytesToHex (keccak_256 [])
  = "c5d2460186f7233c927e7db2dcc703c0e500b653ca82273b7bfad8045d85a470".
Proof. vm_compute. reflexivity. Qed.

Example selector_of_execute :
  JS.slice 0 10 (keccak256String "execute(address,uint256,bytes)")
  = "0xb61d27f6".
Proof. vm_compute. reflexivity. Qed.

Example selector_of_transfer :
  JS.slice 0 10 (keccak256String "transfer(address,uint256)") = "0xa9059cbb".
Proof. vm_compute. reflexivity. Qed.

(** ** Strings *)

Lemma append_empty_r (s : string) : s ++ "" = s.
Proof. induction s as [|c s IH]; simpl; [reflexivity | now rewrite IH]. Qed.

Lemma append_assoc (a b c : string) : (a ++ b) ++ c = a ++ (b ++ c).
Proof. induction a as [|x a IH]; simpl; [reflexivity | now rewrite IH]. Qed.

(** ** The ABI encoder *)

Lemma abiEncode_piece_unhandled (type : string) (v : value) :
  unhandled type = true -> abiEncode_piece type v = Some "".
Proof.
  unfold unhandled, abiEncode_piece. intro H.
  apply negb_true_iff in H.
  repeat (apply orb_false_iff in H; destruct H as [H ?]).
  repeat match goal with
         | Hx : String.eqb _ _ = false |- _ => rewrite Hx; clear Hx
         end.
  reflexivity.
Qed.

(** The encoder skips a pair whose type it does not handle: the value
    leaves no trace in the encoding. *)
Lemma abiEncode_from_skip (encoded type : string) (types : list string)
      (v : value) (values : list value) :
  unhandled type = true ->
  abiEncode_from encoded (type :: types) (v :: values)
  = abiEncode_from encoded types values.
Proof.
  intro H. simpl. rewrite (abiEncode_piece_unhandled _ v H).
  now rewrite append_empty_r.
Qed.

Lemma abiEncode_skip_last (encoded type : string) (types : list string)
      (v : value) (values : list value) :
  unhandled type = true ->
  List.length types = List.length values ->
  abiEncode_from encoded (types ++ [type]) (values ++ [v])
  = abiEncode_from encoded types values.
Proof.
  intros H. revert encoded values.
  induction types as [|t types IH]; intros encoded values Hlen.
  - destruct values; [|discriminate]. simpl.
    rewrite (abiEncode_piece_unhandled _ v H). now rewrite append_empty_r.
  - destruct values as [|v0 values]; [discriminate|]. simpl.
    destruct (abiEncode_piece t v0); [|reflexivity].
    apply IH. simpl in Hlen. congruence.
Qed.

(** ** The cancellation message *)

(** C2 (code defect).  The message that [cancelLock] recovers the signer
    from, and that the enclave signs in the attestation it returns, is the
    hash of the 32-byte word of the lock identifier alone: the encoder has
    no branch for the type [string], so the text [CANCEL] (or any other
    text in its place) does not enter the pre-image, and the message
    differs from the hash of the ABI encoding of the identifier followed by
    the string. *)
Theorem cancelMessage_omits_the_text :
  (forall (lockId : Hash) (text : string),
      keccak256_abiEncode ["bytes32"; "string"] [VStr lockId; VStr text]
      = keccak256_abiEncode ["bytes32"] [VStr lockId])
  /\ (forall lockId : Hash,
         cancelMessage lockId
         = keccak256 ("0x" ++ JS.padStart 64 "0" (JS.slice_from 2 lockId)))
  /\ abiEncode ["bytes32"; "string"] [VStr Scenario.leafA; VStr "CANCEL"]
     = Some Scenario.leafA
  /\ cancelMessage Scenario.leafA
     <> keccak256 (Scenario.standard_cancel_preimage Scenario.leafA).
Proof.
  assert (Hskip : forall (lockId : Hash) (text : string),
             abiEncode ["bytes32"; "string"] [VStr lockId; VStr text]
             = abiEncode ["bytes32"] [VStr lockId]).
  { intros lockId text. unfold abiEncode.
    apply (abiEncode_skip_last "0x" "string" ["bytes32"] (VStr text)
                               [VStr lockId]); reflexivity. }
  split; [|split; [|split]].
  - intros lockId text. unfold keccak256_abiEncode. now rewrite Hskip.
  - intro lockId. unfold cancelMessage, keccak256_abiEncode.
    rewrite Hskip. reflexivity.
  - vm_compute. reflexivity.
  - vm_compute. discriminate.
Qed.

(** ** Settlement call data *)

(** C3 (code defect).  The encoder has no branch for the type [bytes4], so
    neither selector enters the call data: for a native asset it is the
    encoding of (recipient, amount, empty bytes) alone, for an ERC-20 asset
    the encoding of (token contract, 0, inner) where the inner call data is
    the encoding of (recipient, amount) alone.  In the scenario of the
    specification the first four bytes of the call data are the zero
    padding of the address word, not [0xb61d27f6]. *)
Theorem callData_has_no_selector :
  (forall chain contract token (to : Address) (amt : Z),
      encodeTransferCalldata
        {| chainId := chain; assetType := native;
           contractAddress := contract; tokenId := token |} to amt
      = match abiEncode ["address"; "uint256"; "bytes"]
                        [VStr to; VInt amt; VStr "0x"] with
        | Some encoded => Ok encoded
        | None => Throw Raised
        end)
  /\ (forall chain (contract : Address) token (to : Address) (amt : Z),
         encodeTransferCalldata
           {| chainId := chain; assetType := erc20;
              contractAddress := Some contract; tokenId := token |} to amt
         = match abiEncode ["address"; "uint256"] [VStr to; VInt amt] with
           | Some inner =>
               match abiEncode ["address"; "uint256"; "bytes"]
                               [VStr contract; VInt 0; VStr inner] with
               | Some encoded => Ok encoded
               | None => Throw Raised
               end
           | None => Throw Raised
           end)
  /\ (exists data : Bytes,
         encodeTransferCalldata Scenario.usdc Scenario.user 1000000000
         = Ok data
         /\ JS.slice 0 10 data = "0x00000000"
         /\ JS.slice 0 10 data <> "0xb61d27f6").
Proof.
  split; [|split].
  - intros. unfold encodeTransferCalldata, abiEncode. simpl assetType.
    rewrite abiEncode_from_skip by reflexivity. reflexivity.
  - intros. unfold encodeTransferCalldata, abiEncode. simpl assetType.
    simpl contractAddress.
    rewrite !abiEncode_from_skip by reflexivity. reflexivity.
  - eexists. split; [vm_compute; reflexivity|].
    split; [vm_compute; reflexivity | vm_compute; discriminate].
Qed.

(** ** The hash of an asset *)

(** C4 (code defect).  The encoder has no branch for the type [uint8], so
    the kind of the asset is not part of what is hashed: the pre-image is
    the three words (chainId, contract or zero address, tokenId or 0), 96
    bytes and not 128, and two assets that differ in their kind only have
    the same hash. *)
Theorem hashAsset_omits_the_kind :
  (forall a : AssetIdentifier,
      hashAsset a
      = keccak256_abiEncode
          ["uint256"; "address"; "uint256"]
          [ VInt (chainId a);
            VStr (or_string (contractAddress a) zero_address);
            VInt (or_bigint (tokenId a) 0) ])
  /\ (forall chain kind kind' contract token,
         hashAsset {| chainId := chain; assetType := kind;
                      contractAddress := contract; tokenId := token |}
         = hashAsset {| chainId := chain; assetType := kind';
                        contractAddress := contract; tokenId := token |})
  /\ (exists preimage : Bytes,
         abiEncode ["uint256"; "uint8"; "address"; "uint256"]
                   [ VInt 1; VInt 1;
                     VStr "0xA0b86991c6218b36c1d19D4a2e9Eb0cE3606eB48";
                     VInt 0 ] = Some preimage
         /\ String.length (JS.slice_from 2 preimage) = (2 * 96)%nat)
  /\ hashAsset Scenario.usdc = hashAsset Scenario.usdc_as_nft.
Proof.
  assert (H3 : forall a : AssetIdentifier,
             hashAsset a
             = keccak256_abiEncode
                 ["uint256"; "address"; "uint256"]
                 [ VInt (chainId a);
                   VStr (or_string (contractAddress a) zero_address);
                   VInt (or_bigint (tokenId a) 0) ]).
  { intro a. unfold hashAsset, keccak256_abiEncode, abiEncode.
    cbn [abiEncode_from hd tl].
    rewrite (abiEncode_piece_unhandled "uint8" _ eq_refl).
    destruct (abiEncode_piece "uint256" (VInt (chainId a))); [|reflexivity].
    now rewrite append_empty_r. }
  split; [exact H3|]. split; [|split].
  - intros. now rewrite !H3.
  - eexists. split; [vm_compute; reflexivity | vm_compute; reflexivity].
  - now rewrite !H3.
Qed.

(** ** Merkle proofs *)

(** C5 (code defect).  In a tree of three leaves the third leaf is paired
    with itself when the second row is built, but [getProof] leaves that
    duplicated sibling out of the proof (there is no node at the sibling
    index), so the proof it returns for index 2 does not verify against
    the root; the proofs of the other two leaves do. *)
Theorem proof_of_a_duplicated_node_is_rejected :
  exists t : MerkleTree,
    MerkleTree_new [Scenario.leafA; Scenario.leafB; Scenario.leafC]
    = (t, true)
    /\ nth_error (leaves t) 2 = Some Scenario.leafC
    /\ List.length (getProof t 2) = 1%nat
    /\ verifyProof Scenario.leafC (getProof t 2) (getRoot t) = Some false
    /\ verifyProof Scenario.leafA (getProof t 0) (getRoot t) = Some true
    /\ verifyProof Scenario.leafB (getProof t 1) (getRoot t) = Some true.
Proof.
  eexists. split; [vm_compute; reflexivity|].
  split; [|split; [|split; [|split]]]; vm_compute; reflexivity.
Qed.

(** ** Maps *)

Lemma map_get_set_eq {V} (k : string) (v : V) (m : jsmap V) :
  map_get k (map_set k v m) = Some v.
Proof.
  induction m as [|[k' v'] m IH]; simpl.
  - now rewrite String.eqb_refl.
  - destruct (String.eqb k k') eqn:E; simpl.
    + now rewrite String.eqb_refl.
    + now rewrite E.
Qed.

Lemma map_get_set_neq {V} (k k' : string) (v : V) (m : jsmap V) :
  k <> k' -> map_get k' (map_set k v m) = map_get k' m.
Proof.
  intro Hne. induction m as [|[k0 v0] m IH]; simpl.
  - destruct (String.eqb k' k) eqn:E; [|reflexivity].
    apply String.eqb_eq in E. congruence.
  - destruct (String.eqb k k0) eqn:E; simpl.
    + apply String.eqb_eq in E. subst k0.
      destruct (String.eqb k' k) eqn:E'; [|reflexivity].
      apply String.eqb_eq in E'. congruence.
    + destruct (String.eqb k' k0); [reflexivity | exact IH].
Qed.

Lemma map_set_set {V} (k : string) (v w : V) (m : jsmap V) :
  map_set k w (map_set k v m) = map_set k w m.
Proof.
  induction m as [|[k' v'] m IH]; simpl.
  - now rewrite String.eqb_refl.
  - destruct (String.eqb k k') eqn:E; simpl.
    + now rewrite String.eqb_refl.
    + now rewrite E, IH.
Qed.

(** After the two writes of a status change ([lock.status = st] on the
    entry read, then [locks.set(lock.id, lock)]) the key read holds the
    changed lock. *)
Lemma map_get_after_assign {V} (k k' : string) (v : V) (m : jsmap V) :
  map_get k (map_set k' v (map_set k v m)) = Some v.
Proof.
  destruct (String.eqb k' k) eqn:E.
  - apply String.eqb_eq in E. subst. apply map_get_set_eq.
  - apply String.eqb_neq in E. rewrite map_get_set_neq by exact E.
    apply map_get_set_eq.
Qed.

(** ** Running a method *)

(** Reduction of the plumbing of the monad only: the hashes stay folded. *)
Ltac run :=
  cbn [bind get ret when lift throw modify lift_result fst snd negb andb orb
       LockStatus_eqb].

(** ** Methods that only read *)

Lemma readonly_ret {A} (a : A) : readonly (ret a).
Proof. intro c. reflexivity. Qed.

Lemma readonly_throw {A} (e : exn) : readonly (@throw A e).
Proof. intro c. reflexivity. Qed.

Lemma readonly_get : readonly get.
Proof. intro c. reflexivity. Qed.

Lemma readonly_lift {A} (o : option A) : readonly (lift o).
Proof. intro c. destruct o; reflexivity. Qed.

Lemma readonly_lift_result {A} (r : result A) : readonly (lift_result r).
Proof. intro c. reflexivity. Qed.

Lemma readonly_when (b : bool) (e : exn) : readonly (when b e).
Proof. intro c. destruct b; reflexivity. Qed.

Lemma readonly_bind {A B} (m : M A) (k : A -> M B) :
  readonly m -> (forall a, readonly (k a)) -> readonly (bind m k).
Proof.
  intros Hm Hk c. unfold bind. specialize (Hm c).
  destruct (m c) as [c' [a|e]]; simpl in Hm; subst c'.
  - apply Hk.
  - reflexivity.
Qed.

Ltac readonly_prim :=
  match goal with
  | |- readonly (bind _ _) => apply readonly_bind; [|intro]
  | |- readonly (ret _) => apply readonly_ret
  | |- readonly (throw _) => apply readonly_throw
  | |- readonly get => apply readonly_get
  | |- readonly (lift _) => apply readonly_lift
  | |- readonly (lift_result _) => apply readonly_lift_result
  | |- readonly (when _ _) => apply readonly_when
  | |- readonly (match ?x with _ => _ end) => destruct x
  end.

Section ReadOnly.
Context {curve : Secp256k1}.

Lemma readonly_generateCCMAttestation clk lock :
  readonly (generateCCMAttestation clk lock).
Proof. unfold generateCCMAttestation. repeat readonly_prim. Qed.

Lemma readonly_generateCommitment lock attestation :
  readonly (generateCommitment lock attestation).
Proof. unfold generateCommitment. repeat readonly_prim. Qed.

Lemma readonly_generateSettlementUserOp lock :
  readonly (generateSettlementUserOp lock).
Proof. unfold generateSettlementUserOp. repeat readonly_prim. Qed.

Lemma readonly_verifyFulfillmentProof lock proof :
  readonly (verifyFulfillmentProof lock proof).
Proof. unfold verifyFulfillmentProof. repeat readonly_prim. Qed.

Lemma readonly_validateAsset a : readonly (validateAsset a).
Proof. unfold validateAsset. repeat readonly_prim. Qed.

Lemma readonly_validateAmount a : readonly (validateAmount a).
Proof. unfold validateAmount. repeat readonly_prim. Qed.

Lemma readonly_validateDuration d : readonly (validateDuration d).
Proof. unfold validateDuration. repeat readonly_prim. Qed.

Lemma readonly_validateRiskLimits clk o a :
  readonly (validateRiskLimits clk o a).
Proof. unfold validateRiskLimits. repeat readonly_prim. Qed.
End ReadOnly.

Ltac readonly_method :=
  match goal with
  | |- readonly (generateCCMAttestation _ _) =>
      apply readonly_generateCCMAttestation
  | |- readonly (generateCommitment _ _) => apply readonly_generateCommitment
  | |- readonly (generateSettlementUserOp _) =>
      apply readonly_generateSettlementUserOp
  | |- readonly (verifyFulfillmentProof _ _) =>
      apply readonly_verifyFulfillmentProof
  | |- readonly (validateAsset _) => apply readonly_validateAsset
  | |- readonly (validateAmount _) => apply readonly_validateAmount
  | |- readonly (validateDuration _) => apply readonly_validateDuration
  | |- readonly (validateRiskLimits _ _ _) => apply readonly_validateRiskLimits
  end.

Ltac readonly_steps := repeat first [readonly_method | readonly_prim].

(** ** Signing a lock *)

(** C7.  When the signer recovered from the signature is not the owner of
    the pending lock (addresses compared in lower case), [signLock] throws
    the signer-mismatch error and the instance is exactly what it was: the
    lock is still pending without any signature stored, and the Merkle
    index, the state root and the daily volume are untouched. *)
Theorem signLock_rejects_a_foreign_signer {curve : Secp256k1}
        (clk : Clock) (rq : SignLockRequest) (c : CCM)
        (lock : ResourceLock) (h : Hash) (signer : Address) :
  getLock (sl_lockId rq) c = Some lock ->
  status lock = PENDING ->
  approvalHash lock = Some h ->
  recoverAddress h (sl_signature rq) = Some signer ->
  same_address signer (owner lock) = false ->
  signLock clk rq c = (c, Throw InvalidSignature).
Proof.
  unfold getLock, approvalHash. intros Hget Hst Hh Hrec Hneq.
  destruct (hashAsset (asset lock)) as [assetHash|] eqn:Ha;
    [|discriminate].
  destruct (hashFulfillmentCondition (fulfillmentCondition lock))
    as [fulfillmentHash|] eqn:Hf; [|discriminate].
  unfold signLock, bind, get. rewrite Hget, Hst. run.
  rewrite Ha. run. rewrite Hf. run. rewrite Hh. run.
  rewrite Hrec. run. rewrite Hneq. reflexivity.
Qed.

Lemma signLock_rejects_a_foreign_signer_witness :
  @signLock Toy.curve Scenario.t0
            {| sl_lockId := Runs.lockId; sl_signature := Runs.strangerSig |}
            Runs.pending
  = (Runs.pending, Throw InvalidSignature).
Proof.
  apply (@signLock_rejects_a_foreign_signer Toy.curve Scenario.t0
           {| sl_lockId := Runs.lockId; sl_signature := Runs.strangerSig |}
           Runs.pending Runs.pendingLock Runs.approval Runs.stranger);
    vm_compute; reflexivity.
Defined.

(** ** Properties that a method maintains *)

Lemma maintains_readonly {A} (I : CCM -> Prop) (m : M A) :
  readonly m -> maintains I m.
Proof. intros Hm c Hc. now rewrite Hm. Qed.

Lemma maintains_bind {A B} (I : CCM -> Prop) (m : M A) (k : A -> M B) :
  maintains I m -> (forall a, maintains I (k a)) -> maintains I (bind m k).
Proof.
  intros Hm Hk c Hc. unfold bind. specialize (Hm c Hc).
  destruct (m c) as [c' [a|e]]; simpl in Hm.
  - now apply Hk.
  - exact Hm.
Qed.

Lemma maintains_modify (I : CCM -> Prop) (f : CCM -> CCM) :
  (forall c, I c -> I (f c)) -> maintains I (modify f).
Proof. intros Hf c Hc. simpl. now apply Hf. Qed.

Ltac run_in H :=
  cbn [bind get ret when lift throw modify lift_result fst snd negb andb orb
       LockStatus_eqb] in H.

(** ** Fulfillment *)

Section Fulfillment.
Context {curve : Secp256k1}.

Lemma statusOf_status_written lockId lock st c :
  statusOf lockId (status_written lockId lock st c) = Some st.
Proof.
  unfold statusOf, getLock, status_written, assign_status. simpl.
  now rewrite map_get_after_assign.
Qed.

(** The three outcomes of [verifyFulfillment] on an active lock: past the
    expiry, the lock is written as expired and the call throws; else a
    malformed proof throws with nothing written; else the lock is written
    as fulfilled, and whatever the rest of the call does (it only reads),
    that is the instance left behind. *)
Lemma verifyFulfillment_cases clk rq c lock :
  getLock (fl_lockId rq) c = Some lock ->
  status lock = ACTIVE ->
  (expiresAt lock < now clk
   /\ verifyFulfillment clk rq c
      = (status_written (fl_lockId rq) lock EXPIRED c, Throw LockExpired))
  \/ (now clk <= expiresAt lock
      /\ ((exists e, verifyFulfillment clk rq c = (c, Throw e)
                     /\ (e = InvalidTransactionHash \/ e = InvalidBlockHash))
          \/ fst (verifyFulfillment clk rq c)
             = status_written (fl_lockId rq) lock FULFILLED c)).
Proof.
  unfold getLock. intros Hget Hst.
  assert (Hro : forall c0, fst (verifyFulfillmentProof lock
                                  (fulfillmentProof rq) c0) = c0)
    by apply readonly_verifyFulfillmentProof.
  destruct (verifyFulfillment clk rq c) as [c' r] eqn:Hrun.
  unfold verifyFulfillment in Hrun. unfold bind at 1 in Hrun.
  unfold get at 1 in Hrun. rewrite Hget in Hrun.
  unfold bind at 1 in Hrun. rewrite Hst in Hrun. run_in Hrun.
  destruct (expiresAt lock <? now clk) eqn:Hexp.
  - left. apply Z.ltb_lt in Hexp. split; [exact Hexp|].
    unfold assign in Hrun. run_in Hrun. now rewrite <- Hrun.
  - right. apply Z.ltb_ge in Hexp. split; [exact Hexp|]. run_in Hrun.
    unfold bind at 1 in Hrun. specialize (Hro c).
    destruct (verifyFulfillmentProof lock (fulfillmentProof rq) c)
      as [c1 [[]|e]] eqn:Hproof; simpl in Hro; subst c1.
    + right. unfold assign in Hrun. run_in Hrun.
      match type of Hrun with
      | bind ?m ?k ?s = _ =>
          assert (Hro : readonly (bind m k)) by readonly_steps;
          specialize (Hro s); rewrite Hrun in Hro; exact Hro
      end.
    + left. exists e. split; [now rewrite <- Hrun|].
      unfold verifyFulfillmentProof, bind, when in Hproof.
      destruct (_ || _)%bool in Hproof.
      * unfold throw in Hproof. left. congruence.
      * unfold ret in Hproof.
        destruct (_ || _)%bool in Hproof.
        -- unfold throw in Hproof. right. congruence.
        -- discriminate.
Qed.
End Fulfillment.

Section Fulfillment2.
Context {curve : Secp256k1}.

Lemma verifyFulfillment_keeps_the_tree clk rq c :
  lockMerkleTree (fst (verifyFulfillment clk rq c)) = lockMerkleTree c.
Proof.
  destruct (getLock (fl_lockId rq) c) as [lock|] eqn:Hget.
  - destruct (LockStatus_eqb (status lock) ACTIVE) eqn:Hst.
    + assert (Hact : status lock = ACTIVE)
        by (destruct (status lock); (discriminate || reflexivity)).
      destruct (verifyFulfillment_cases clk rq c Hget Hact)
        as [[_ H]|[_ [[e [H _]]|H]]]; rewrite H; reflexivity.
    + unfold getLock in Hget. unfold verifyFulfillment.
      unfold bind at 1. unfold get at 1. rewrite Hget.
      unfold bind at 1. rewrite Hst. reflexivity.
  - unfold getLock in Hget. unfold verifyFulfillment.
    unfold bind at 1. unfold get at 1. rewrite Hget. reflexivity.
Qed.
End Fulfillment2.

(** C1 (code defect).  [verifyFulfillment] never touches the Merkle index:
    when it moves an active lock to [FULFILLED], and when its lazy expiry
    moves it to [EXPIRED], the identifier of the lock is still a leaf of the
    index, although the lock is no longer active. *)
Theorem verifyFulfillment_leaves_the_leaf_in {curve : Secp256k1}
        (clk : Clock) (rq : FulfillLockRequest) (c : CCM)
        (lock : ResourceLock) :
  getLock (fl_lockId rq) c = Some lock ->
  status lock = ACTIVE ->
  In (fl_lockId rq) (leaves (lockMerkleTree c)) ->
  let c' := fst (verifyFulfillment clk rq c) in
  let outcome := snd (verifyFulfillment clk rq c) in
  In (fl_lockId rq) (leaves (lockMerkleTree c'))
  /\ (expiresAt lock < now clk ->
      outcome = Throw LockExpired
      /\ statusOf (fl_lockId rq) c' = Some EXPIRED)
  /\ (forall response, outcome = Ok response ->
      statusOf (fl_lockId rq) c' = Some FULFILLED).
Proof.
  intros Hget Hst Hin c' outcome. subst c' outcome.
  split; [now rewrite verifyFulfillment_keeps_the_tree|].
  destruct (verifyFulfillment_cases clk rq c Hget Hst)
    as [[Hlt H]|[Hle [[e [H He]]|H]]].
  - rewrite H. simpl. split.
    + intros _. split; [reflexivity | apply statusOf_status_written].
    + discriminate.
  - rewrite H. simpl. split; [lia|].
    intros response Hok. destruct He; subst e; discriminate.
  - split; [lia|]. intros response _. rewrite H.
    apply statusOf_status_written.
Qed.

Lemma verifyFulfillment_leaves_the_leaf_in_witness :
  let c' := fst (@verifyFulfillment Toy.curve Runs.past_expiry Runs.fulfil
                                    Runs.active) in
  let outcome := snd (@verifyFulfillment Toy.curve Runs.past_expiry
                                         Runs.fulfil Runs.active) in
  In Runs.lockId (leaves (lockMerkleTree c'))
  /\ (expiresAt Runs.activeLock < now Runs.past_expiry ->
      outcome = Throw LockExpired
      /\ statusOf Runs.lockId c' = Some EXPIRED)
  /\ (forall response, outcome = Ok response ->
      statusOf Runs.lockId c' = Some FULFILLED).
Proof.
  apply (@verifyFulfillment_leaves_the_leaf_in Toy.curve Runs.past_expiry
           Runs.fulfil Runs.active Runs.activeLock).
  - vm_compute. reflexivity.
  - vm_compute. reflexivity.
  - vm_compute. left. reflexivity.
Defined.

(** The two runs from a fresh enclave: the scenario lock is created, signed
    and then fulfilled in its last second, or found expired one second
    later; either way it stays in the index. *)
Example fulfilled_lock_is_still_a_leaf :
  exists c response,
    @verifyFulfillment Toy.curve Runs.at_expiry Runs.fulfil Runs.active
    = (c, Ok response)
    /\ statusOf Runs.lockId c = Some FULFILLED
    /\ leaves (lockMerkleTree c) = [Runs.lockId]
    /\ stateRoot (state c) = Runs.lockId.
Proof.
  do 2 eexists. split; [vm_compute; reflexivity|].
  split; [|split]; vm_compute; reflexivity.
Qed.

Example expired_lock_is_still_a_leaf :
  exists c,
    @verifyFulfillment Toy.curve Runs.past_expiry Runs.fulfil Runs.active
    = (c, Throw LockExpired)
    /\ statusOf Runs.lockId c = Some EXPIRED
    /\ leaves (lockMerkleTree c) = [Runs.lockId]
    /\ cleanupExpiredLocks Runs.past_expiry c = (c, Ok 0).
Proof.
  eexists. split; [vm_compute; reflexivity|].
  split; [|split]; vm_compute; reflexivity.
Qed.
(** ** Nonces *)

(** A call of [createLock] whose request passes the five validations and
    whose lock identifier cannot be computed throws after the nonce of the
    owner has been incremented, with no lock stored. *)
Lemma createLock_throws_after_the_nonce (clk : Clock)
      (request : CreateLockRequest) (c : CCM) (amt : Z) :
  JS.BigInt_of_string (req_amount request) = Some amt ->
  validateAsset (req_asset request) c = (c, Ok tt) ->
  validateAmount amt c = (c, Ok tt) ->
  validateDuration (expiresIn request) c = (c, Ok tt) ->
  validateRiskLimits clk (req_owner request) amt c = (c, Ok tt) ->
  validateAsset (targetAsset (req_fulfillmentCondition request)) c
  = (c, Ok tt) ->
  generateLockId (req_owner request) (req_asset request) amt
                 (getCurrentNonce (req_owner request) c + 1) (now clk)
  = None ->
  createLock clk request c
  = (set_nonces (map_set (JS.toLowerCase (req_owner request))
                         (getCurrentNonce (req_owner request) c + 1)) c,
     Throw Raised).
Proof.
  intros Hamt Hva Hvm Hvd Hvr Hvt Hid.
  unfold createLock. unfold bind at 1. rewrite Hamt. run.
  unfold bind at 1. rewrite Hva.
  unfold bind at 1. rewrite Hvm.
  unfold bind at 1. rewrite Hvd.
  unfold bind at 1. rewrite Hvr.
  unfold bind at 1. rewrite Hvt.
  unfold bind at 1. unfold getNextNonce. run.
  unfold getCurrentNonce in Hid. rewrite Hid. reflexivity.
Qed.

(** C6 (code defect).  From a fresh enclave, a [createLock] whose token
    contract is not hexadecimal text passes the validations, takes nonce 1
    for the owner and then throws when the lock identifier is hashed: no
    lock is stored, yet the next, successful, [createLock] of that owner is
    given nonce 2.  The nonces of the successful calls of this owner start
    at 2, and a failed call has consumed a nonce. *)
Theorem failed_createLock_consumes_a_nonce :
  exists (c1 c2 : CCM) (response : CreateLockResponse),
    createLock Scenario.t0 Runs.unhashable Runs.fresh = (c1, Throw Raised)
    /\ locks (state c1) = []
    /\ getCurrentNonce Scenario.user c1 = 1
    /\ createLock Scenario.t0 Runs.scenario c1 = (c2, Ok response)
    /\ nonce (cl_lock response) = 2
    /\ owner (cl_lock response) = Scenario.user.
Proof.
  do 3 eexists.
  split; [vm_compute; reflexivity|].
  split; [vm_compute; reflexivity|].
  split; [vm_compute; reflexivity|].
  split; [vm_compute; reflexivity|].
  split; vm_compute; reflexivity.
Qed.

(** ** The Merkle index of the instance *)

Lemma tree_addLeaf_state (leaf : Hash) (c : CCM) :
  exists t, fst (tree_addLeaf leaf c) = set_lockMerkleTree t c.
Proof.
  unfold tree_addLeaf. destruct (addLeaf leaf (lockMerkleTree c)) as [t ok].
  now exists t.
Qed.

Lemma tree_removeLeaf_state (leaf : Hash) (c : CCM) :
  exists t, fst (tree_removeLeaf leaf c) = set_lockMerkleTree t c.
Proof.
  unfold tree_removeLeaf.
  destruct (removeLeaf leaf (lockMerkleTree c)) as [t r]. now exists t.
Qed.

Lemma maintains_tree_addLeaf (I : CCM -> Prop) (leaf : Hash) :
  (forall t c, I c -> I (set_lockMerkleTree t c)) ->
  maintains I (tree_addLeaf leaf).
Proof.
  intros H c Hc. destruct (tree_addLeaf_state leaf c) as [t E].
  rewrite E. now apply H.
Qed.

Lemma maintains_tree_removeLeaf (I : CCM -> Prop) (leaf : Hash) :
  (forall t c, I c -> I (set_lockMerkleTree t c)) ->
  maintains I (tree_removeLeaf leaf).
Proof.
  intros H c Hc. destruct (tree_removeLeaf_state leaf c) as [t E].
  rewrite E. now apply H.
Qed.

Ltac maintains_steps :=
  unfold assign, update_stateRoot;
  repeat first
    [ apply maintains_readonly; solve [readonly_steps]
    | match goal with
      | |- maintains _ (match ?x with _ => _ end) => destruct x eqn:?
      | |- maintains _ (bind _ _) => apply maintains_bind; [|intro]
      | |- maintains _ (modify _) => apply maintains_modify
      | |- maintains _ (tree_addLeaf _) => apply maintains_tree_addLeaf
      | |- maintains _ (tree_removeLeaf _) => apply maintains_tree_removeLeaf
      end ].

(** ** The daily volume *)

Section Volume.
Context {curve : Secp256k1}.
Variable dv : jsmap Z.

Let unchanged (c : CCM) : Prop := dailyVolume c = dv.

Ltac kept := intros; match goal with H : unchanged _ |- _ => exact H end.

Lemma createLock_keeps_the_volume clk request :
  maintains unchanged (createLock clk request).
Proof.
  unfold createLock, getNextNonce. maintains_steps; kept.
Qed.

Lemma verifyFulfillment_keeps_the_volume clk request :
  maintains unchanged (verifyFulfillment clk request).
Proof.
  unfold verifyFulfillment. maintains_steps; kept.
Qed.

Lemma cancelLock_keeps_the_volume clk lockId sig :
  maintains unchanged (cancelLock clk lockId sig).
Proof.
  unfold cancelLock. maintains_steps; kept.
Qed.

Lemma cleanup_loop_keeps_the_volume clk entries cleaned :
  maintains unchanged (cleanup_loop clk entries cleaned).
Proof.
  revert cleaned. induction entries as [|[lockId lock] rest IH];
    intro cleaned; simpl.
  - maintains_steps.
  - destruct (_ && _)%bool.
    + maintains_steps; try kept. apply IH.
    + apply IH.
Qed.

Lemma cleanupExpiredLocks_keeps_the_volume clk :
  maintains unchanged (cleanupExpiredLocks clk).
Proof.
  unfold cleanupExpiredLocks.
  apply maintains_bind; [maintains_steps|intro c0].
  apply maintains_bind; [apply cleanup_loop_keeps_the_volume|intro n].
  maintains_steps; kept.
Qed.
End Volume.

(** ** The invariant of the locks *)

Lemma in_keys_map_set {V} (x k : string) (v : V) (m : jsmap V) :
  In x (map_keys (map_set k v m)) -> x = k \/ In x (map_keys m).
Proof.
  induction m as [|[k' v'] m IH]; simpl.
  - intros [H|[]]. now left.
  - destruct (String.eqb k k') eqn:E; simpl.
    + apply String.eqb_eq in E. subst k'. intros [H|H]; auto.
    + intros [H|H]; auto. destruct (IH H); auto.
Qed.

Lemma NoDup_keys_map_set {V} (k : string) (v : V) (m : jsmap V) :
  NoDup (map_keys m) -> NoDup (map_keys (map_set k v m)).
Proof.
  induction m as [|[k' v'] m IH]; simpl; intro H.
  - constructor; [intros []|constructor].
  - inversion H as [|? ? Hnotin Hrest]; subst.
    destruct (String.eqb k k') eqn:E; simpl.
    + apply String.eqb_eq in E. subst k'. now constructor.
    + constructor; [|now apply IH].
      intro Hin. apply in_keys_map_set in Hin. destruct Hin as [->|Hin].
      * now rewrite String.eqb_refl in E.
      * now apply Hnotin.
Qed.

Lemma Forall_map_set {V} (P : string * V -> Prop) (k : string) (v : V)
      (m : jsmap V) :
  P (k, v) -> Forall P m -> Forall P (map_set k v m).
Proof.
  intros Hv. induction m as [|[k' v'] m IH]; simpl; intro H.
  - now constructor.
  - inversion H; subst. destruct (String.eqb k k'); constructor; auto.
Qed.

Lemma map_get_In {V} (k : string) (v : V) (m : jsmap V) :
  map_get k m = Some v -> In (k, v) m.
Proof.
  induction m as [|[k' v'] m IH]; simpl; [discriminate|].
  destruct (String.eqb k k') eqn:E.
  - apply String.eqb_eq in E. subst k'. intros [= ->]. now left.
  - intro H. right. now apply IH.
Qed.

Lemma In_map_get {V} (k : string) (v : V) (m : jsmap V) :
  NoDup (map_keys m) -> In (k, v) m -> map_get k m = Some v.
Proof.
  induction m as [|[k' v'] m IH]; simpl; [intros _ []|].
  intros Hnd [H|H].
  - injection H as -> ->. now rewrite String.eqb_refl.
  - inversion Hnd as [|? ? Hnotin Hrest]; subst.
    destruct (String.eqb k k') eqn:E.
    + apply String.eqb_eq in E. subst k'. exfalso. apply Hnotin.
      change k with (fst (k, v)). now apply in_map.
    + now apply IH.
Qed.

Lemma lock_invariant_stored (c : CCM) (k : Hash) (l : ResourceLock) :
  lock_invariant c -> getLock k c = Some l -> id l = k /\ 0 < amount l.
Proof.
  intros [_ Hall] Hget. apply map_get_In in Hget.
  rewrite Forall_forall in Hall. exact (Hall _ Hget).
Qed.

Lemma lock_invariant_set (c : CCM) (k : Hash) (l : ResourceLock) :
  id l = k -> 0 < amount l -> lock_invariant c ->
  lock_invariant (set_locks (map_set k l) c).
Proof.
  intros Hid Hamt [Hnd Hall]. split; simpl.
  - now apply NoDup_keys_map_set.
  - apply Forall_map_set; [simpl; auto | exact Hall].
Qed.

Lemma maintains_bind_ok {A B} (I : CCM -> Prop) (Q : A -> Prop) (m : M A)
      (k : A -> M B) :
  maintains I m ->
  (forall c c' a, m c = (c', Ok a) -> Q a) ->
  (forall a, Q a -> maintains I (k a)) ->
  maintains I (bind m k).
Proof.
  intros Hm HQ Hk c Hc. unfold bind. specialize (Hm c Hc).
  specialize (HQ c). destruct (m c) as [c' [a|e]]; simpl in Hm.
  - apply Hk; [now apply (HQ c')|exact Hm].
  - exact Hm.
Qed.

Lemma validateAmount_ok (amt : Z) (c c' : CCM) (u : unit) :
  validateAmount amt c = (c', Ok u) -> 0 < amt.
Proof.
  unfold validateAmount, bind, get, when.
  destruct (amt <=? 0) eqn:E; [discriminate|].
  intros _. apply Z.leb_gt in E. exact E.
Qed.

(** Enters a method that starts by reading a lock from the map: what is
    left to show is that the rest of the method maintains the property. *)
Ltac enter_with_lock Hc Hget :=
  match goal with
  | |- ?I (fst (bind get _ ?c)) =>
      unfold bind at 1; unfold get at 1; cbv beta iota;
      match goal with
      | |- context [map_get ?k (locks (state c))] =>
          destruct (map_get k (locks (state c))) as [?lock|] eqn:Hget;
          [|exact Hc]
      end
  end.

Ltac by_maintains Hc :=
  match goal with
  | |- ?I (fst (?m ?c)) =>
      let Hm := fresh "Hm" in
      assert (Hm : maintains I m); [|exact (Hm c Hc)]
  end.

Ltac locks_kept :=
  intros;
  match goal with
  | H : lock_invariant _ |- lock_invariant _ => exact H
  end.

Section Invariant.
Context {curve : Secp256k1}.

Lemma createLock_maintains_the_invariant clk request :
  maintains lock_invariant (createLock clk request).
Proof.
  unfold createLock.
  apply maintains_bind; [maintains_steps|intro amt].
  apply maintains_bind; [maintains_steps|intros _].
  apply maintains_bind_ok with (Q := fun _ : unit => 0 < amt);
    [maintains_steps | intros c c' u; apply validateAmount_ok | intros _ Hamt].
  unfold getNextNonce. maintains_steps; try locks_kept.
  intros c Hc. now apply lock_invariant_set.
Qed.

Lemma signLock_maintains_the_invariant clk request :
  maintains lock_invariant (signLock clk request).
Proof.
  intros c Hc. unfold signLock. enter_with_lock Hc Hget.
  destruct (lock_invariant_stored _ Hc Hget) as [Hid Hamt].
  by_maintains Hc.
  maintains_steps; try locks_kept;
    intros c0 Hc0; apply lock_invariant_set; auto.
Qed.

Lemma verifyFulfillment_maintains_the_invariant clk request :
  maintains lock_invariant (verifyFulfillment clk request).
Proof.
  intros c Hc. unfold verifyFulfillment. enter_with_lock Hc Hget.
  destruct (lock_invariant_stored _ Hc Hget) as [Hid Hamt].
  by_maintains Hc.
  maintains_steps; try locks_kept;
    intros c0 Hc0; apply lock_invariant_set; auto.
Qed.

Lemma cancelLock_maintains_the_invariant clk lockId sig :
  maintains lock_invariant (cancelLock clk lockId sig).
Proof.
  intros c Hc. unfold cancelLock. enter_with_lock Hc Hget.
  destruct (lock_invariant_stored _ Hc Hget) as [Hid Hamt].
  by_maintains Hc.
  maintains_steps; try locks_kept;
    intros c0 Hc0; apply lock_invariant_set; auto.
Qed.

Lemma cleanup_loop_maintains_the_invariant clk entries cleaned :
  Forall (fun entry => id (snd entry) = fst entry
                       /\ 0 < amount (snd entry)) entries ->
  maintains lock_invariant (cleanup_loop clk entries cleaned).
Proof.
  intro Hall. revert cleaned.
  induction Hall as [|[lockId lock] rest [Hid Hamt] _ IH];
    intro cleaned; simpl.
  - maintains_steps.
  - simpl in Hid, Hamt. destruct (_ && _)%bool; [|apply IH].
    maintains_steps; try locks_kept; try apply IH;
      intros c0 Hc0; apply lock_invariant_set; auto.
Qed.

Lemma cleanupExpiredLocks_maintains_the_invariant clk :
  maintains lock_invariant (cleanupExpiredLocks clk).
Proof.
  intros c Hc. unfold cleanupExpiredLocks.
  unfold bind at 1. unfold get at 1. cbv beta iota.
  by_maintains Hc.
  apply maintains_bind;
    [apply cleanup_loop_maintains_the_invariant; apply Hc|intro n].
  maintains_steps; locks_kept.
Qed.

Lemma step_maintains_the_invariant clk rq c :
  lock_invariant c -> lock_invariant (fst (step clk rq c)).
Proof.
  intro Hc. destruct rq as [r|r|r|lockId sig|]; simpl.
  - pose proof (createLock_maintains_the_invariant clk r Hc) as H.
    now destruct (createLock clk r c).
  - pose proof (signLock_maintains_the_invariant clk r Hc) as H.
    now destruct (signLock clk r c).
  - pose proof (verifyFulfillment_maintains_the_invariant clk r Hc) as H.
    now destruct (verifyFulfillment clk r c).
  - pose proof (cancelLock_maintains_the_invariant clk lockId sig Hc) as H.
    now destruct (cancelLock clk lockId sig c).
  - pose proof (cleanupExpiredLocks_maintains_the_invariant clk Hc) as H.
    now destruct (cleanupExpiredLocks clk c).
Qed.

Lemma reachable_lock_invariant c : reachable c -> lock_invariant c.
Proof.
  induction 1 as [cfg privKey random clk c _ _ Hnew|clk rq c _ IH].
  - unfold CCM_new in Hnew.
    destruct (privateKeyToAddress _); [|discriminate].
    injection Hnew as <-. split; simpl; constructor.
  - now apply step_maintains_the_invariant.
Qed.
End Invariant.

(** ** Stepping through a method *)

Lemma bind_modify {B} (f : CCM -> CCM) (k : unit -> M B) (c : CCM) :
  bind (modify f) k c = k tt (f c).
Proof. reflexivity. Qed.

Lemma bind_update_stateRoot {B} (k : unit -> M B) (c : CCM) :
  bind update_stateRoot k c
  = k tt (set_stateRoot (getRoot (lockMerkleTree c)) c).
Proof. reflexivity. Qed.

Lemma bind_ret {A B} (a : A) (k : A -> M B) (c : CCM) :
  bind (ret a) k c = k a c.
Proof. reflexivity. Qed.

Lemma bind_lift_Some {A B} (o : option A) (a : A) (k : A -> M B) (c : CCM) :
  o = Some a -> bind (lift o) k c = k a c.
Proof. intros ->. reflexivity. Qed.

Lemma bind_lift_None {A B} (o : option A) (k : A -> M B) (c : CCM) :
  o = None -> bind (lift o) k c = (c, Throw Raised).
Proof. intros ->. reflexivity. Qed.

Lemma bind_when_false {B} (b : bool) (e : exn) (k : unit -> M B) (c : CCM) :
  b = false -> bind (when b e) k c = k tt c.
Proof. intros ->. reflexivity. Qed.

Lemma bind_when_true {B} (b : bool) (e : exn) (k : unit -> M B) (c : CCM) :
  b = true -> bind (when b e) k c = (c, Throw e).
Proof. intros ->. reflexivity. Qed.

(** A step that only reads either throws, leaving the instance as it is,
    or hands a value to the rest of the method on the same instance. *)
Lemma bind_readonly_cases {A B} (P : CCM * result B -> Prop) (m : M A)
      (k : A -> M B) (c : CCM) :
  readonly m ->
  (forall e, m c = (c, Throw e) -> P (c, Throw e)) ->
  (forall a, m c = (c, Ok a) -> P (k a c)) ->
  P (bind m k c).
Proof.
  intros Hm He Ha. unfold bind. specialize (Hm c).
  destruct (m c) as [c' [a|e]]; simpl in Hm; subst c'; auto.
Qed.

Lemma bind_tree_addLeaf_cases {B} (P : CCM * result B -> Prop) (leaf : Hash)
      (k : unit -> M B) (c : CCM) :
  (forall t, addLeaf leaf (lockMerkleTree c) = (t, false) ->
             P (set_lockMerkleTree t c, Throw Raised)) ->
  (forall t, addLeaf leaf (lockMerkleTree c) = (t, true) ->
             P (k tt (set_lockMerkleTree t c))) ->
  P (bind (tree_addLeaf leaf) k c).
Proof.
  intros Hf Ht. unfold bind, tree_addLeaf.
  destruct (addLeaf leaf (lockMerkleTree c)) as [t [|]]; auto.
Qed.

(** ** Signing: acceptance and what follows *)

Section Signing.
Context {curve : Secp256k1}.

(** [signLock] either leaves the instance as it is (the lock is missing
    or not pending, a hash or the recovery throws, the signer is not the
    owner), or the signer is accepted and the call continues as
    [signLock_commit]. *)
Lemma signLock_accepts clk rq c lock h signer :
  getLock (sl_lockId rq) c = Some lock ->
  status lock = PENDING ->
  approvalHash lock = Some h ->
  recoverAddress h (sl_signature rq) = Some signer ->
  same_address signer (owner lock) = true ->
  signLock clk rq c = signLock_commit clk rq lock c.
Proof.
  unfold getLock, approvalHash. intros Hget Hst Hh Hrec Hsame.
  destruct (hashAsset (asset lock)) as [assetHash|] eqn:Ha;
    [|discriminate].
  destruct (hashFulfillmentCondition (fulfillmentCondition lock))
    as [fulfillmentHash|] eqn:Hf; [|discriminate].
  unfold signLock. unfold bind at 1. unfold get at 1. cbv beta iota.
  rewrite Hget, Hst.
  rewrite bind_when_false by reflexivity.
  rewrite (bind_lift_Some _ _ Ha).
  rewrite (bind_lift_Some _ _ Hf).
  rewrite (bind_lift_Some _ _ Hh).
  rewrite (bind_lift_Some _ _ Hrec).
  rewrite bind_when_false by (now rewrite Hsame).
  reflexivity.
Qed.

Lemma signLock_cases clk rq c :
  fst (signLock clk rq c) = c
  \/ exists lock h signer,
       getLock (sl_lockId rq) c = Some lock
       /\ status lock = PENDING
       /\ approvalHash lock = Some h
       /\ recoverAddress h (sl_signature rq) = Some signer
       /\ same_address signer (owner lock) = true
       /\ signLock clk rq c = signLock_commit clk rq lock c.
Proof.
  destruct (getLock (sl_lockId rq) c) as [lock|] eqn:Hget.
  2:{ left. unfold getLock in Hget. unfold signLock.
      unfold bind at 1. unfold get at 1. cbv beta iota.
      now rewrite Hget. }
  destruct (LockStatus_eqb (status lock) PENDING) eqn:Hst.
  2:{ left. unfold getLock in Hget. unfold signLock.
      unfold bind at 1. unfold get at 1. cbv beta iota.
      rewrite Hget. rewrite bind_when_true by (now rewrite Hst).
      reflexivity. }
  assert (Hpending : status lock = PENDING)
    by (destruct (status lock); (discriminate || reflexivity)).
  assert (Hprefix :
    signLock clk rq c
    = (assetHash <- lift (hashAsset (asset lock)) ;;
       fulfillmentHash <-
         lift (hashFulfillmentCondition (fulfillmentCondition lock)) ;;
       typedDataHash <-
         lift (hashTypedData
                 {| name := name CCM_DOMAIN;
                    version := version CCM_DOMAIN;
                    domain_chainId := chainId (asset lock);
                    verifyingContract := verifyingContract CCM_DOMAIN |}
                 {| msg_lockId := id lock;
                    msg_owner := owner lock;
                    msg_asset := assetHash;
                    msg_amount := amount lock;
                    msg_nonce := nonce lock;
                    msg_expiresAt := expiresAt lock;
                    msg_fulfillmentHash := fulfillmentHash |}) ;;
       recoveredSigner <-
         lift (recoverAddress typedDataHash (sl_signature rq)) ;;
       when (negb (same_address recoveredSigner (owner lock)))
            InvalidSignature ;;;
       signLock_commit clk rq lock) c).
  { unfold getLock in Hget. unfold signLock.
    unfold bind at 1. unfold get at 1. cbv beta iota.
    rewrite Hget. rewrite bind_when_false by (now rewrite Hst).
    reflexivity. }
  destruct (approvalHash lock) as [h|] eqn:Hh.
  - destruct (recoverAddress h (sl_signature rq)) as [signer|] eqn:Hrec.
    + destruct (same_address signer (owner lock)) eqn:Hsame.
      * right. exists lock, h, signer. repeat split; auto.
        now apply signLock_accepts with h signer.
      * left. rewrite Hprefix. unfold approvalHash in Hh.
        destruct (hashAsset (asset lock)) eqn:Ha; [|discriminate].
        cbn [lift]. rewrite bind_ret.
        destruct (hashFulfillmentCondition (fulfillmentCondition lock))
          eqn:Hf; [|discriminate].
        cbn [lift]. rewrite bind_ret.
        rewrite (bind_lift_Some _ _ Hh), (bind_lift_Some _ _ Hrec).
        rewrite bind_when_true by (now rewrite Hsame). reflexivity.
    + left. rewrite Hprefix. unfold approvalHash in Hh.
      destruct (hashAsset (asset lock)) eqn:Ha; [|reflexivity].
      cbn [lift]. rewrite bind_ret.
      destruct (hashFulfillmentCondition (fulfillmentCondition lock))
        eqn:Hf; [|reflexivity].
      cbn [lift]. rewrite bind_ret.
      rewrite (bind_lift_Some _ _ Hh).
      now rewrite (bind_lift_None _ _ Hrec).
  - left. rewrite Hprefix. unfold approvalHash in Hh.
    destruct (hashAsset (asset lock)) eqn:Ha; [|reflexivity].
    cbn [lift]. rewrite bind_ret.
    destruct (hashFulfillmentCondition (fulfillmentCondition lock))
      eqn:Hf; [|reflexivity].
    cbn [lift]. rewrite bind_ret.
    now rewrite (bind_lift_None _ _ Hh).
Qed.
End Signing.

Lemma only_raises_bind {A B} (m : M A) (k : A -> M B) :
  only_raises m -> (forall a, only_raises (k a)) -> only_raises (bind m k).
Proof.
  intros Hm Hk c c' e. unfold bind.
  destruct (m c) as [c1 [a|e1]] eqn:E.
  - apply Hk.
  - intros [= <- <-]. now apply (Hm c c1).
Qed.

Lemma only_raises_lift {A} (o : option A) : only_raises (lift o).
Proof. intros c c' e. unfold lift, ret, throw. destruct o; congruence. Qed.

Lemma only_raises_get : only_raises get.
Proof. intros c c' e. discriminate. Qed.

Lemma only_raises_ret {A} (a : A) : only_raises (ret a).
Proof. intros c c' e. discriminate. Qed.

Ltac only_raises_steps :=
  repeat match goal with
         | |- only_raises (bind _ _) => apply only_raises_bind; [|intro]
         | |- only_raises (lift _) => apply only_raises_lift
         | |- only_raises get => apply only_raises_get
         | |- only_raises (ret _) => apply only_raises_ret
         end.

Section Committing.
Context {curve : Secp256k1}.

Lemma generateCCMAttestation_only_raises clk lock :
  only_raises (generateCCMAttestation clk lock).
Proof. unfold generateCCMAttestation. only_raises_steps. Qed.

Lemma generateCommitment_only_raises lock attestation :
  only_raises (generateCommitment lock attestation).
Proof. unfold generateCommitment. only_raises_steps. Qed.

(** What the accepted call leaves behind: it throws in the attestation
    with the user signature stored on the pending lock, or it throws in
    the rebuild of the Merkle tree with the lock already active, or it
    gets past both, and then the lock is active, its identifier has been
    appended to the leaves and its amount added to the volume of the
    day, whether the commitment is returned or its hash throws. *)
Lemma signLock_commit_cases clk rq lock c :
  let out := signLock_commit clk rq lock c in
  (snd out = Throw Raised
   /\ dailyVolume (fst out) = dailyVolume c
   /\ lockMerkleTree (fst out) = lockMerkleTree c
   /\ getLock (sl_lockId rq) (fst out)
      = Some (with_userSignature (sl_signature rq) lock))
  \/ (exists ccmSig t,
        snd out = Throw Raised
        /\ dailyVolume (fst out) = dailyVolume c
        /\ addLeaf (id lock) (lockMerkleTree c) = (t, false)
        /\ getLock (sl_lockId rq) (fst out)
           = Some (activated (sl_signature rq) ccmSig lock))
  \/ (exists ccmSig t,
        (snd out = Throw Raised
         \/ exists response, snd out = Ok response
                             /\ sl_status response = ACTIVE)
        /\ dailyVolume (fst out)
           = map_set (today clk)
               (or_bigint (map_get (today clk) (dailyVolume c)) 0
                + amount lock) (dailyVolume c)
        /\ addLeaf (id lock) (lockMerkleTree c) = (t, true)
        /\ lockMerkleTree (fst out) = t
        /\ stateRoot (state (fst out)) = getRoot t
        /\ getLock (sl_lockId rq) (fst out)
           = Some (activated (sl_signature rq) ccmSig lock)).
Proof.
  intro out. subst out. unfold signLock_commit, assign.
  rewrite bind_modify.
  apply bind_readonly_cases; [readonly_steps|intros e He|intros att Hatt].
  - left. simpl.
    apply generateCCMAttestation_only_raises in He. subst e. repeat split. unfold getLock. simpl. apply map_get_set_eq.
  - rewrite !bind_modify.
    apply bind_tree_addLeaf_cases; intros t Ht.
    + right. left. exists (att_signature att), t. simpl.
      repeat split; [exact Ht|].
      unfold getLock, activated. simpl. apply map_get_after_assign.
    + right. right. exists (att_signature att), t.
      rewrite bind_update_stateRoot, bind_modify.
      apply bind_readonly_cases;
        [readonly_steps|intros e He|intros commitment Hc].
      * simpl. split; [left|].
        { apply generateCommitment_only_raises in He. now subst e. }
        repeat split; [exact Ht|].
        unfold getLock, activated. simpl. apply map_get_after_assign.
      * simpl. split; [right; eexists; split; reflexivity|].
        repeat split; [exact Ht|].
        unfold getLock, activated. simpl. apply map_get_after_assign.
Qed.
End Committing.

(** ** Concrete instances are reachable *)

Lemma reachable_fresh : @reachable Toy.curve Runs.fresh.
Proof.
  apply (@reachable_new Toy.curve DEFAULT_CONFIG Scenario.enclaveKeyBytes
           Scenario.enclaveIdBytes Scenario.t0);
    vm_compute; reflexivity.
Qed.

Lemma reachable_pending : @reachable Toy.curve Runs.pending.
Proof.
  assert (H : fst (@step Toy.curve Scenario.t0 (CreateLock Runs.scenario)
                         Runs.fresh) = Runs.pending)
    by (vm_compute; reflexivity).
  rewrite <- H. apply reachable_step. exact reachable_fresh.
Qed.

Lemma reachable_active : @reachable Toy.curve Runs.active.
Proof.
  assert (H : fst (@step Toy.curve Scenario.t0
                     (SignLock {| sl_lockId := Runs.lockId;
                                  sl_signature := Runs.userSig |})
                     Runs.pending) = Runs.active)
    by (vm_compute; reflexivity).
  rewrite <- H. apply reachable_step. exact reachable_pending.
Qed.

Lemma or_bigint_Some (z : Z) : or_bigint (Some z) 0 = z.
Proof.
  unfold or_bigint. destruct (z =? 0) eqn:E; [|reflexivity].
  apply Z.eqb_eq in E. now subst.
Qed.
(** ** Hexadecimal text *)

Lemma length_append (a b : string) :
  String.length (a ++ b) = (String.length a + String.length b)%nat.
Proof. induction a as [|c a IH]; simpl; [reflexivity | now rewrite IH]. Qed.

Lemma all_hex_append (a b : string) :
  all_hex (a ++ b) = all_hex a && all_hex b.
Proof.
  induction a as [|c a IH]; simpl; [reflexivity|].
  now rewrite IH, andb_assoc.
Qed.

Lemma even_hex_append (a b : string) :
  even_hex a = true -> even_hex b = true -> even_hex (a ++ b) = true.
Proof.
  unfold even_hex. intros Ha Hb.
  apply andb_true_iff in Ha. destruct Ha as [Ea Ha].
  apply andb_true_iff in Hb. destruct Hb as [Eb Hb].
  rewrite all_hex_append, Ha, Hb, length_append, Nat.even_add, Ea, Eb.
  reflexivity.
Qed.

Lemma is_word_even_hex (s : string) : is_word s = true -> even_hex s = true.
Proof.
  unfold is_word, even_hex. intro H.
  apply andb_true_iff in H. destruct H as [E H].
  apply Nat.eqb_eq in E. now rewrite E, H.
Qed.

Lemma length_repeat_char (c : ascii) (n : nat) :
  String.length (JS.repeat_char c n) = n.
Proof. induction n as [|n IH]; simpl; [reflexivity | now rewrite IH]. Qed.

Lemma all_hex_repeat_zero (n : nat) : all_hex (JS.repeat_char "0" n) = true.
Proof. induction n as [|n IH]; simpl; [reflexivity | exact IH]. Qed.

(** Padding up to a word keeps hexadecimal text of at most 64 digits a
    word. *)
Lemma padStart_word (s : string) :
  (String.length s <= 64)%nat -> all_hex s = true ->
  is_word (JS.padStart 64 "0" s) = true.
Proof.
  intros Hlen Hhex. unfold is_word, JS.padStart.
  rewrite length_append, length_repeat_char, all_hex_append,
    all_hex_repeat_zero, Hhex.
  replace (64 - String.length s + String.length s)%nat with 64%nat by lia.
  reflexivity.
Qed.

Lemma is_hex_digit_lower (c : ascii) :
  is_hex_digit (JS.lower_ascii c) = is_hex_digit c.
Proof.
  destruct c as [[] [] [] [] [] [] [] []]; reflexivity.
Qed.

Lemma all_hex_toLowerCase (s : string) :
  all_hex (JS.toLowerCase s) = all_hex s.
Proof.
  induction s as [|c s IH]; simpl; [reflexivity|].
  now rewrite is_hex_digit_lower, IH.
Qed.

Lemma length_toLowerCase (s : string) :
  String.length (JS.toLowerCase s) = String.length s.
Proof. induction s as [|c s IH]; simpl; [reflexivity | now rewrite IH]. Qed.

Lemma is_hex_digit_hex_char (d : Z) : is_hex_digit (JS.hex_char d) = true.
Proof.
  unfold JS.hex_char.
  repeat match goal with
         | |- context [match ?x with _ => _ end] => destruct x
         end; reflexivity.
Qed.

(** What [is_hex_bytes] says of a text: the prefix, then the digits. *)
Lemma is_hex_bytes_inv (n : nat) (s : string) :
  is_hex_bytes n s = true ->
  s = "0x" ++ JS.slice_from 2 s
  /\ String.length (JS.slice_from 2 s) = (2 * n)%nat
  /\ all_hex (JS.slice_from 2 s) = true.
Proof.
  unfold is_hex_bytes, JS.startsWith. intro H.
  apply andb_true_iff in H. destruct H as [H Hhex].
  apply andb_true_iff in H. destruct H as [Hpre Hlen].
  apply Nat.eqb_eq in Hlen.
  apply String.prefix_correct in Hpre.
  destruct s as [|c1 [|c2 s]]; try discriminate.
  simpl in Hpre. replace (String.substring 0 0 s) with "" in Hpre
    by (destruct s; reflexivity).
  injection Hpre as -> ->.
  simpl in *. repeat split; [lia | exact Hhex].
Qed.

Lemma is_hex_bytes_even_hex (n : nat) (s : string) :
  is_hex_bytes n s = true -> even_hex (JS.slice_from 2 s) = true.
Proof.
  intro H. destruct (is_hex_bytes_inv _ _ H) as (_ & Hlen & Hhex).
  unfold even_hex. rewrite Hlen, Hhex, Nat.even_mul. reflexivity.
Qed.

(** Induction on a string two characters at a time. *)
Lemma string_pairs_ind (P : string -> Prop) :
  P "" -> (forall c, P (String c "")) ->
  (forall c1 c2 s, P s -> P (String c1 (String c2 s))) ->
  forall s, P s.
Proof.
  intros H0 H1 H2.
  assert (H : forall s, P s /\ forall c, P (String c s)).
  { induction s as [|c s [IH IHc]]; split; auto. }
  intro s. apply H.
Qed.

Lemma hexToBytes_even_hex (s : string) :
  even_hex s = true ->
  exists bs, JS.hexToBytes s = Some bs
             /\ (2 * List.length bs)%nat = String.length s.
Proof.
  induction s as [|c|c1 c2 s IH] using string_pairs_ind; intro H.
  - exists []. split; reflexivity.
  - discriminate.
  - unfold even_hex in H. simpl in H.
    apply andb_true_iff in H. destruct H as [Heven H].
    apply andb_true_iff in H. destruct H as [H1 H].
    apply andb_true_iff in H. destruct H as [H2 H].
    destruct IH as (bs & Hbs & Hlen).
    { unfold even_hex. now rewrite Heven, H. }
    unfold is_hex_digit in H1, H2. simpl.
    destruct (JS.hex_val c1); [|discriminate].
    destruct (JS.hex_val c2); [|discriminate].
    rewrite Hbs. eexists. split; [reflexivity|]. simpl. lia.
Qed.

Lemma bytesToHex_hex (bs : list byte) :
  all_hex (JS.bytesToHex bs) = true
  /\ String.length (JS.bytesToHex bs) = (2 * List.length bs)%nat.
Proof.
  induction bs as [|b bs [IH1 IH2]]; simpl; [split; reflexivity|].
  rewrite !is_hex_digit_hex_char, IH1, IH2. split; [reflexivity | lia].
Qed.
(** ** Numbers in hexadecimal *)

Lemma hex_digits_hex (fuel : nat) (n : Z) (acc : string) :
  all_hex acc = true -> all_hex (JS.hex_digits fuel n acc) = true.
Proof.
  revert n acc. induction fuel as [|fuel IH]; intros n acc Hacc; simpl.
  - exact Hacc.
  - destruct (n / 16 =? 0).
    + simpl. now rewrite is_hex_digit_hex_char.
    + apply IH. simpl. now rewrite is_hex_digit_hex_char.
Qed.

Lemma hex_digits_length (fuel : nat) (n : Z) (acc : string) (k : nat) :
  0 <= n < 16 ^ Z.of_nat (S k) ->
  (String.length (JS.hex_digits fuel n acc) <= S k + String.length acc)%nat.
Proof.
  revert n acc k. induction fuel as [|fuel IH]; intros n acc k Hn; simpl.
  - lia.
  - destruct (n / 16 =? 0) eqn:E.
    + simpl. lia.
    + apply Z.eqb_neq in E.
      destruct k as [|k].
      * exfalso. apply E. apply Z.div_small. simpl in Hn. lia.
      * specialize (IH (n / 16) (String (JS.hex_char (n mod 16)) acc) k).
        simpl String.length in IH. etransitivity; [apply IH|lia].
        split; [apply Z.div_pos; lia|].
        apply Z.div_lt_upper_bound; [lia|].
        replace (16 ^ Z.of_nat (S (S k))) with (16 * 16 ^ Z.of_nat (S k))
          in Hn; [lia|].
        rewrite (Nat2Z.inj_succ (S k)), Z.pow_succ_r by lia. reflexivity.
Qed.

(** The word of an unsigned 256-bit integer. *)
Lemma uint256_word (z : Z) :
  is_uint256 z = true ->
  is_word (JS.padStart 64 "0" (JS.toString16 z)) = true.
Proof.
  unfold is_uint256. intro H. apply andb_true_iff in H.
  destruct H as [H0 H1]. apply Z.leb_le in H0. apply Z.ltb_lt in H1.
  unfold JS.toString16.
  destruct (z <? 0) eqn:E; [apply Z.ltb_lt in E; lia|].
  apply padStart_word.
  - pose proof (hex_digits_length (S (Z.to_nat (Z.log2 z))) "" 63
                  (n := z)) as Hlen.
    simpl String.length in Hlen. rewrite Nat.add_0_r in Hlen.
    apply Hlen. split; [exact H0|].
    change (16 ^ Z.of_nat 64) with (2 ^ 256). exact H1.
  - now apply hex_digits_hex.
Qed.

(** ** The hash on well-formed text *)

Transparent keccak_256.

Lemma round_length (s : list Z) (rc : Z) :
  List.length (Keccak.round s rc) = 25%nat.
Proof. reflexivity. Qed.

Lemma keccak_f_length (s : list Z) :
  List.length (Keccak.keccak_f s) = 25%nat.
Proof.
  unfold Keccak.keccak_f.
  assert (H : forall rcs s0, rcs <> [] ->
                List.length (fold_left Keccak.round rcs s0) = 25%nat).
  { induction rcs as [|rc [|rc' rcs] IH]; intros s0 Hne.
    - congruence.
    - apply round_length.
    - apply (IH (Keccak.round s0 rc)). discriminate. }
  apply H. discriminate.
Qed.

Lemma absorb_length (fuel : nat) (s : list Z) (bs : list byte) :
  (25 <= List.length s)%nat ->
  (25 <= List.length (Keccak.absorb fuel s bs))%nat.
Proof.
  revert s bs. induction fuel as [|fuel IH]; intros s bs Hs; simpl;
    [exact Hs|].
  destruct bs; [exact Hs|]. apply IH. rewrite keccak_f_length. lia.
Qed.

Lemma keccak_256_length (msg : list byte) :
  List.length (keccak_256 msg) = 32%nat.
Proof.
  unfold keccak_256, Keccak.keccak_256.
  match goal with
  | |- context [Keccak.absorb ?fuel ?s ?bs] =>
      pose proof (absorb_length fuel s bs) as Hlen;
      destruct (Keccak.absorb fuel s bs) as [|a [|b [|c [|d st]]]]
  end; simpl in Hlen; try lia.
  reflexivity.
Qed.

Opaque keccak_256.

Lemma startsWith_0x (s : string) : JS.startsWith "0x" ("0x" ++ s) = true.
Proof. destruct s; reflexivity. Qed.

Lemma keccak256Bytes_is_hash (data : list byte) :
  is_hash (keccak256Bytes data) = true.
Proof.
  unfold is_hash, is_hex_bytes, keccak256Bytes.
  destruct (bytesToHex_hex (keccak_256 data)) as [Hhex Hlen].
  rewrite keccak_256_length in Hlen.
  change (JS.slice_from 2 ("0x" ++ JS.bytesToHex (keccak_256 data)))
    with (JS.bytesToHex (keccak_256 data)).
  rewrite Hhex.
  change (String.length ("0x" ++ JS.bytesToHex (keccak_256 data)))
    with (S (S (String.length (JS.bytesToHex (keccak_256 data))))).
  rewrite Hlen, startsWith_0x. reflexivity.
Qed.

(** [keccak256] of [0x] followed by the text of some bytes is defined, and
    it is a hash. *)
Lemma keccak256_defined (body : string) :
  even_hex body = true ->
  exists h, keccak256 ("0x" ++ body) = Some h /\ is_hash h = true.
Proof.
  intro H. destruct (hexToBytes_even_hex _ H) as (bs & Hbs & _).
  unfold keccak256.
  change (JS.replace_0x ("0x" ++ body)) with body.
  rewrite Hbs. eexists. split; [reflexivity|].
  apply keccak256Bytes_is_hash.
Qed.

Lemma keccak256_of_bytes_defined (s : string) :
  is_bytes s = true -> exists h, keccak256 s = Some h /\ is_hash h = true.
Proof.
  unfold is_bytes, JS.startsWith. intro H.
  apply andb_true_iff in H. destruct H as [Hpre H].
  apply String.prefix_correct in Hpre.
  destruct s as [|c1 [|c2 s]]; try discriminate.
  simpl in Hpre. replace (String.substring 0 0 s) with "" in Hpre
    by (destruct s; reflexivity).
  injection Hpre as -> ->. now apply keccak256_defined.
Qed.

Lemma is_hex_bytes_is_bytes (n : nat) (s : string) :
  is_hex_bytes n s = true -> is_bytes s = true.
Proof.
  intro H. unfold is_bytes. rewrite (is_hex_bytes_even_hex _ _ H).
  unfold is_hex_bytes in H. apply andb_true_iff in H. destruct H as [H _].
  apply andb_true_iff in H. destruct H as [H _]. now rewrite H.
Qed.

(** ** The encoder on well-typed values *)

Lemma abiEncode_from_defined (body : string) (types : list string)
      (values : list value) :
  even_hex body = true -> pieces_ok types values = true ->
  exists body', abiEncode_from ("0x" ++ body) types values
                = Some ("0x" ++ body')
                /\ even_hex body' = true.
Proof.
  revert body values. induction types as [|type types IH];
    intros body values Hbody Hok; simpl.
  - now exists body.
  - simpl in Hok. apply andb_true_iff in Hok. destruct Hok as [Hp Hrest].
    unfold piece_ok in Hp.
    destruct (abiEncode_piece type (hd VUndef values)) as [piece|];
      [|discriminate].
    replace (("0x" ++ body) ++ piece) with ("0x" ++ (body ++ piece))
      by reflexivity.
    apply IH; [now apply even_hex_append | exact Hrest].
Qed.

Lemma keccak256_abiEncode_defined (types : list string)
      (values : list value) :
  pieces_ok types values = true ->
  exists h, keccak256_abiEncode types values = Some h /\ is_hash h = true.
Proof.
  intro H. unfold keccak256_abiEncode, abiEncode.
  destruct (abiEncode_from_defined "" types values eq_refl H)
    as (body & Hbody & Heven).
  change ("0x" ++ "") with "0x" in Hbody. rewrite Hbody.
  now apply keccak256_defined.
Qed.


Lemma piece_ok_bytes32 (s : string) :
  is_hash s = true -> piece_ok "bytes32" (VStr s) = true.
Proof.
  intro H. destruct (is_hex_bytes_inv _ _ H) as (_ & Hlen & Hhex).
  unfold piece_ok. cbn [abiEncode_piece String.eqb Ascii.eqb Bool.eqb].
  apply is_word_even_hex, padStart_word; [rewrite Hlen; simpl; lia|].
  exact Hhex.
Qed.

Lemma piece_ok_uint256 (z : Z) :
  is_uint256 z = true -> piece_ok "uint256" (VInt z) = true.
Proof.
  intro H. unfold piece_ok.
  cbn [abiEncode_piece String.eqb Ascii.eqb Bool.eqb orb BigInt].
  now apply is_word_even_hex, uint256_word.
Qed.

(** ** The hashes of well-typed data are defined *)








Lemma keccak256_Some_is_hash (s : string) (h : Hash) :
  keccak256 s = Some h -> is_hash h = true.
Proof.
  unfold keccak256. destruct (JS.hexToBytes _); [|discriminate].
  intros [= <-]. apply keccak256Bytes_is_hash.
Qed.

Lemma keccak256_abiEncode_Some_is_hash types values (h : Hash) :
  keccak256_abiEncode types values = Some h -> is_hash h = true.
Proof.
  unfold keccak256_abiEncode. destruct (abiEncode _ _); [|discriminate].
  apply keccak256_Some_is_hash.
Qed.



(** ** Stepping through a method that succeeds *)

Lemma step_lift {A B} (o : option A) (a : A) (k : A -> M B) (c : CCM)
      (r : CCM * result B) :
  o = Some a -> k a c = r -> bind (lift o) k c = r.
Proof. intros -> <-. reflexivity. Qed.

Lemma step_get {B} (k : CCM -> M B) (c : CCM) (r : CCM * result B) :
  k c c = r -> bind get k c = r.
Proof. intros <-. reflexivity. Qed.

Lemma step_readonly {A B} (m : M A) (a : A) (k : A -> M B) (c : CCM)
      (r : CCM * result B) :
  m c = (c, Ok a) -> k a c = r -> bind m k c = r.
Proof. intros Hm <-. unfold bind. now rewrite Hm. Qed.

Section Defined.
Context {curve : Secp256k1}.


Lemma generateCommitment_defined lock attestation c sig :
  userSignature lock = Some sig ->
  is_signature sig = true ->
  exists commitment,
    generateCommitment lock attestation c = (c, Ok commitment).
Proof.
  intros Hsig Hwt.
  destruct (keccak256_of_bytes_defined _ (is_hex_bytes_is_bytes _ _ Hwt))
    as (h & Hh & _).
  eexists. unfold generateCommitment.
  apply step_get. rewrite Hsig.
  apply (step_lift _ _ Hh).
  reflexivity.
Qed.
End Defined.

(** ** The Merkle tree over hashes *)

Lemma encodePacked_pair (a b : Hash) :
  is_hash a = true -> is_hash b = true ->
  encodePacked [VStr a; VStr b]
  = "0x" ++ (JS.slice_from 2 a ++ JS.slice_from 2 b).
Proof.
  intros Ha Hb. unfold encodePacked. cbn [encodePacked_from].
  assert (Hpa : JS.startsWith "0x" a = true).
  { destruct (is_hex_bytes_inv _ _ Ha) as (E & _). rewrite E.
    apply startsWith_0x. }
  assert (Hpb : JS.startsWith "0x" b = true).
  { destruct (is_hex_bytes_inv _ _ Hb) as (E & _). rewrite E.
    apply startsWith_0x. }
  rewrite Hpa, Hpb. reflexivity.
Qed.

Lemma pair_hash_defined (a b : Hash) :
  is_hash a = true -> is_hash b = true ->
  exists h, keccak256 (encodePacked [VStr a; VStr b]) = Some h
            /\ is_hash h = true.
Proof.
  intros Ha Hb. rewrite (encodePacked_pair _ _ Ha Hb).
  apply keccak256_defined, even_hex_append;
    eapply is_hex_bytes_even_hex; eassumption.
Qed.

(** Induction on a list two elements at a time. *)
Lemma list_pairs_ind {A} (P : list A -> Prop) :
  P [] -> (forall x, P [x]) ->
  (forall x y l, P l -> P (x :: y :: l)) ->
  forall l, P l.
Proof.
  intros H0 H1 H2.
  assert (H : forall l, P l /\ forall x, P (x :: l)).
  { induction l as [|y l [IH IHx]]; split; auto. }
  intro l. apply H.
Qed.

Lemma next_layer_defined (layer : list Hash) :
  hashes layer ->
  exists next, next_layer layer = Some next
               /\ hashes next
               /\ List.length next = Nat.div2 (S (List.length layer)).
Proof.
  unfold hashes.
  induction layer as [|x|x y layer IH] using list_pairs_ind; intro H.
  - exists []. repeat split. constructor.
  - inversion H as [|? ? Hx _]; subst.
    destruct (pair_hash_defined _ _ Hx Hx) as (h & Hh & Hhh).
    exists [h]. cbn [next_layer].
    destruct (String.ltb x x); rewrite Hh; repeat split; now constructor.
  - inversion H as [|? ? Hx H']; subst.
    inversion H' as [|? ? Hy Hrest]; subst.
    destruct (IH Hrest) as (next & Hnext & Hhs & Hlen).
    cbn [next_layer].
    assert (Hr : is_hash (if String.eqb y "" then x else y) = true)
      by (destruct (String.eqb y ""); assumption).
    set (r := if String.eqb y "" then x else y) in *.
    assert (Hpair : exists h,
               (let '(a, b) := if String.ltb x r then (x, r) else (r, x) in
                keccak256 (encodePacked [VStr a; VStr b])) = Some h
               /\ is_hash h = true)
      by (destruct (String.ltb x r); now apply pair_hash_defined).
    destruct Hpair as (h & Hh & Hhh).
    destruct (String.ltb x r); rewrite Hh, Hnext;
      (exists (h :: next); repeat split;
       [now constructor | simpl; now rewrite Hlen]).
Qed.

(** The rebuild of a tree of hashes completes: no hash throws, and the
    loop stops on a last layer of at most one node (the fuel, the number
    of leaves, is never exhausted before that). *)
Lemma layers_from_complete (fuel : nat) (layer : list Hash) :
  hashes layer -> (List.length layer <= S fuel)%nat ->
  snd (layers_from fuel layer) = true
  /\ (List.length (last (fst (layers_from fuel layer)) []) <= 1)%nat
  /\ hd [] (fst (layers_from fuel layer)) = layer.
Proof.
  revert layer. induction fuel as [|fuel IH]; intros layer Hh Hlen.
  - simpl. repeat split. exact Hlen.
  - cbn [layers_from].
    destruct (List.length layer <=? 1)%nat eqn:E.
    + simpl. apply Nat.leb_le in E. repeat split. exact E.
    + apply Nat.leb_gt in E.
      destruct (next_layer_defined Hh) as (next & -> & Hnh & Hnl).
      assert (Hle : (1 <= List.length next <= S fuel)%nat).
      { rewrite Hnl, Nat.div2_div.
        pose proof (Nat.div_mod_eq (S (List.length layer)) 2) as Hd.
        pose proof (Nat.mod_upper_bound (S (List.length layer)) 2).
        lia. }
      destruct Hle as [Hpos Hle].
      destruct (IH next Hnh Hle) as (Hok & Hlast & Hhd).
      destruct (layers_from fuel next) as [rest ok]. simpl in *.
      repeat split; [exact Hok|].
      destruct rest as [|l0 rest']; [simpl in Hhd; subst; simpl in Hpos; lia|].
      exact Hlast.
Qed.

Lemma addLeaf_defined (leaf : Hash) (t : MerkleTree) :
  hashes (leaves t) -> is_hash leaf = true ->
  exists t', addLeaf leaf t = (t', true)
             /\ leaves t' = (leaves t ++ [leaf])%list.
Proof.
  intros Hh Hleaf. unfold addLeaf, buildTree. simpl leaves.
  assert (Hall : hashes (leaves t ++ [leaf])%list).
  { apply Forall_app. split; [exact Hh|]. now constructor. }
  destruct (layers_from_complete
              (fuel := List.length (leaves t ++ [leaf])%list) Hall)
    as (Hok & _); [lia|].
  destruct (layers_from _ _) as [ls ok]. simpl in Hok. subst ok.
  eexists. split; reflexivity.
Qed.
Lemma step_tree_addLeaf {B} (leaf : Hash) (t : MerkleTree)
      (k : unit -> M B) (c : CCM) (r : CCM * result B) :
  addLeaf leaf (lockMerkleTree c) = (t, true) ->
  k tt (set_lockMerkleTree t c) = r ->
  bind (tree_addLeaf leaf) k c = r.
Proof. intros Ht <-. unfold bind, tree_addLeaf. now rewrite Ht. Qed.

(** ** What a call can do to a lock that is not active *)


Section Pending.
Context {curve : Secp256k1}.

Lemma verifyFulfillment_needs_an_active_lock clk rq c :
  (forall lock, getLock (fl_lockId rq) c = Some lock ->
                status lock <> ACTIVE) ->
  fst (verifyFulfillment clk rq c) = c.
Proof.
  intro H. unfold verifyFulfillment. unfold bind at 1. unfold get at 1.
  cbv beta iota. unfold getLock in H.
  destruct (map_get (fl_lockId rq) (locks (state c))) as [lock|];
    [|reflexivity].
  specialize (H lock eq_refl).
  rewrite bind_when_true; [reflexivity|].
  destruct (status lock); try reflexivity. congruence.
Qed.

Lemma getLock_status_written_other k k' lock st c :
  k <> k' -> id lock = k' ->
  getLock k (status_written k' lock st c) = getLock k c.
Proof.
  intros Hne Hid. unfold getLock, status_written, assign_status. simpl.
  rewrite Hid, !map_get_set_neq by congruence. reflexivity.
Qed.

(** The sweep leaves alone every lock that is not active. *)
Lemma cleanup_loop_skips clk entries cleaned k lock :
  Forall (fun entry => fst entry = k -> status (snd entry) <> ACTIVE)
         entries ->
  maintains (fun c => getLock k c = Some lock)
            (cleanup_loop clk entries cleaned).
Proof.
  intro Hall. revert cleaned.
  induction Hall as [|[lockId l] rest Hentry _ IH]; intro cleaned;
    cbn [cleanup_loop].
  - maintains_steps.
  - simpl in Hentry.
    destruct (LockStatus_eqb (status l) ACTIVE) eqn:Hst;
      [|apply IH].
    destruct (expiresAt l <? now clk); [|apply IH]. cbn [andb].
    assert (Hne : lockId <> k).
    { intro E. apply (Hentry E). destruct (status l); try discriminate.
      reflexivity. }
    maintains_steps; try apply IH;
      intros; unfold getLock in *; simpl;
      rewrite ?map_get_set_neq by exact Hne; assumption.
Qed.

Lemma cleanupExpiredLocks_skips clk c k lock :
  lock_invariant c ->
  getLock k c = Some lock -> status lock <> ACTIVE ->
  getLock k (fst (cleanupExpiredLocks clk c)) = Some lock.
Proof.
  intros [Hnd _] Hget Hst. unfold cleanupExpiredLocks.
  unfold bind at 1. unfold get at 1. cbv beta iota.
  match goal with
  | |- getLock k (fst (?m c)) = Some lock =>
      assert (Hm : maintains (fun c0 => getLock k c0 = Some lock) m);
        [|exact (Hm c Hget)]
  end.
  apply maintains_bind.
  - apply cleanup_loop_skips. apply Forall_forall.
    intros [k' l'] Hin E. simpl in *. subst k'.
    apply (In_map_get _ _ _ Hnd) in Hin. unfold getLock in Hget.
    congruence.
  - intro n. maintains_steps; intros; assumption.
Qed.

Lemma fst_step clk rq c :
  fst (step clk rq c)
  = match rq with
    | CreateLock r => fst (createLock clk r c)
    | SignLock r => fst (signLock clk r c)
    | VerifyFulfillment r => fst (verifyFulfillment clk r c)
    | CancelLock lockId sig => fst (cancelLock clk lockId sig c)
    | CleanupExpiredLocks => fst (cleanupExpiredLocks clk c)
    end.
Proof.
  destruct rq as [r|r|r|lockId sig|]; simpl;
    match goal with |- context [let '(_, _) := ?p in _] => now destruct p end.
Qed.

(** No call moves a pending lock of a reachable instance to [EXPIRED]
    (nor to [FULFILLED]): after any call it is pending, active or
    cancelled. *)
Lemma pending_lock_never_expires clk rq c k lock :
  lock_invariant c ->
  getLock k c = Some lock -> status lock = PENDING ->
  exists st, statusOf k (fst (step clk rq c)) = Some st /\ not_expired st.
Proof.
  intros Hinv Hget Hst.
  set (J := fun c0 : CCM =>
              exists l, getLock k c0 = Some l /\ not_expired (status l)).
  assert (HJ : J c) by (exists lock; split; [exact Hget|left; exact Hst]).
  assert (Hgoal : J (fst (step clk rq c))
                  -> exists st, statusOf k (fst (step clk rq c)) = Some st
                                /\ not_expired st).
  { intros (l & Hl & Hs). exists (status l). unfold statusOf.
    now rewrite Hl. }
  apply Hgoal. clear Hgoal.
  assert (Hset : forall k' l' c0,
             not_expired (status l') -> J c0 ->
             J (set_locks (map_set k' l') c0)).
  { intros k' l' c0 Hs' (l & Hl & Hs). unfold J, getLock in *. simpl.
    destruct (String.eqb k' k) eqn:E.
    - apply String.eqb_eq in E. subst k'. exists l'.
      now rewrite map_get_set_eq.
    - apply String.eqb_neq in E. exists l.
      now rewrite map_get_set_neq. }
  rewrite fst_step. destruct rq as [r|r|r|lockId sig|].
  - assert (Hm : maintains J (createLock clk r)).
    { unfold createLock, getNextNonce.
      maintains_steps; try (intros; assumption).
      intros c0 Hc0. apply Hset; [left; reflexivity | exact Hc0]. }
    exact (Hm c HJ).
  - destruct (signLock_cases clk r c)
      as [Hsame|(l & h & signer & Hl & Hls & _ & _ & _ & Hcommit)].
    + now rewrite Hsame.
    + rewrite Hcommit.
      assert (Hm : maintains J (signLock_commit clk r l)).
      { unfold signLock_commit.
        maintains_steps; try (intros; assumption);
          intros c0 Hc0; apply Hset; try exact Hc0;
          unfold not_expired; simpl; auto. }
      exact (Hm c HJ).
  - destruct (getLock (fl_lockId r) c) as [l|] eqn:Hl.
    + destruct (LockStatus_eqb (status l) ACTIVE) eqn:Hact.
      * assert (Hls : status l = ACTIVE)
          by (destruct (status l); (discriminate || reflexivity)).
        assert (Hne : k <> fl_lockId r)
          by (intro E; subst k; congruence).
        destruct (lock_invariant_stored _ Hinv Hl) as [Hid _].
        exists lock. split; [|left; exact Hst].
        destruct (verifyFulfillment_cases clk r c Hl Hls)
          as [[_ E]|[_ [(e & E & _)|E]]]; rewrite E; simpl;
          rewrite ?getLock_status_written_other by assumption;
          exact Hget.
      * rewrite (verifyFulfillment_needs_an_active_lock clk r c);
          [exact HJ|].
        intros l0 Hl0. rewrite Hl in Hl0. injection Hl0 as <-.
        intro E. now rewrite E in Hact.
    + rewrite (verifyFulfillment_needs_an_active_lock clk r c);
        [exact HJ|].
      intros l0 Hl0. congruence.
  - assert (Hm : maintains J (cancelLock clk lockId sig)).
    { unfold cancelLock.
      maintains_steps; try (intros; assumption);
        intros c0 Hc0; apply Hset; try exact Hc0;
        unfold not_expired; simpl; auto. }
    exact (Hm c HJ).
  - exists lock. split; [|left; exact Hst].
    apply cleanupExpiredLocks_skips; [exact Hinv | exact Hget|].
    congruence.
Qed.
End Pending.
(* ------------------------------------------------------------------------ *)
(** ** Further properties of the enclave *)
(* ------------------------------------------------------------------------ *)

(** The stand-in curve signs with every key that is the text of bytes. *)
Lemma toy_signs (key : Bytes) : is_hash key = true -> @signs Toy.curve key.
Proof.
  intros Hkey h Hh. unfold signHash.
  destruct (hexToBytes_even_hex _ (is_hex_bytes_even_hex _ _ Hh))
    as (hb & -> & _).
  destruct (hexToBytes_even_hex _ (is_hex_bytes_even_hex _ _ Hkey))
    as (kb & -> & _).
  cbn [sign Toy.curve]. eexists. reflexivity.
Qed.

Lemma wt_enclave_pending : @wt_enclave Toy.curve Runs.pending.
Proof.
  split; [reflexivity|]. split; [|constructor].
  apply toy_signs. reflexivity.
Qed.

(** ** Whole words *)

Lemma abiEncode_piece_static (type : string) (v : value) :
  static_ok type v = true ->
  exists w, abiEncode_piece type v = Some w /\ is_word w = true.
Proof.
  unfold static_ok, abiEncode_piece.
  destruct (String.eqb type "address").
  { destruct v as [s| | |]; try discriminate. intro H.
    destruct (is_hex_bytes_inv _ _ H) as (_ & Hlen & Hhex).
    eexists. split; [reflexivity|]. apply padStart_word.
    - rewrite length_toLowerCase, Hlen. simpl. lia.
    - now rewrite all_hex_toLowerCase. }
  destruct (String.eqb type "uint256" || String.eqb type "int256")%bool.
  { destruct (BigInt v) as [z|]; [|discriminate]. intro H.
    eexists. split; [reflexivity|]. now apply uint256_word. }
  destruct (String.eqb type "bytes32").
  { destruct v as [s| | |]; try discriminate. intro H.
    destruct (is_hex_bytes_inv _ _ H) as (_ & Hlen & Hhex).
    eexists. split; [reflexivity|]. apply padStart_word; [|exact Hhex].
    rewrite Hlen. simpl. lia. }
  destruct (String.eqb type "bool"); [|discriminate].
  intros _. eexists. split; [reflexivity|].
  destruct (truthy v); reflexivity.
Qed.




(** ** Settlement *)





Lemma step_ret {A B} (a : A) (k : A -> M B) (c : CCM) (r : CCM * result B) :
  k a c = r -> bind (ret a) k c = r.
Proof. intros <-. reflexivity. Qed.

Section Settlement.
Context {curve : Secp256k1}.


End Settlement.

Lemma wt_enclave_active : @wt_enclave Toy.curve Runs.active.
Proof.
  split; [reflexivity|]. split.
  - apply toy_signs. reflexivity.
  - repeat constructor.
Qed.

(** ** Calls that refuse their input change nothing *)

Lemma clean_readonly {A} (m : M A) : readonly m -> clean m.
Proof.
  intros Hm c c' e H _. specialize (Hm c). rewrite H in Hm. now simpl in Hm.
Qed.

Lemma clean_hard {A} (m : M A) : hard m -> clean m.
Proof. intros Hm c c' e H Hr. rewrite (Hm c c' e H) in Hr. discriminate. Qed.

Lemma clean_bind {A B} (m : M A) (k : A -> M B) :
  readonly m -> (forall a, clean (k a)) -> clean (bind m k).
Proof.
  intros Hm Hk c c' e. unfold bind. specialize (Hm c).
  destruct (m c) as [c1 [a|e1]]; simpl in Hm; subst c1.
  - apply Hk.
  - intros [= <- _] _. reflexivity.
Qed.

Lemma hard_bind {A B} (m : M A) (k : A -> M B) :
  hard m -> (forall a, hard (k a)) -> hard (bind m k).
Proof.
  intros Hm Hk c c' e. unfold bind.
  destruct (m c) as [c1 [a|e1]] eqn:E.
  - apply Hk.
  - intros [= <- <-]. now apply (Hm c c1).
Qed.

Lemma hard_lift {A} (o : option A) : hard (lift o).
Proof.
  intros c c' e. unfold lift, ret, throw. destruct o; [discriminate|].
  now intros [= _ <-].
Qed.

Lemma hard_get : hard get.
Proof. intros c c' e. discriminate. Qed.

Lemma hard_ret {A} (a : A) : hard (ret a).
Proof. intros c c' e. discriminate. Qed.

Lemma hard_modify (f : CCM -> CCM) : hard (modify f).
Proof. intros c c' e. discriminate. Qed.

Lemma hard_throw {A} (e : exn) : rejection e = false -> hard (@throw A e).
Proof. intros He c c' e'. unfold throw. now intros [= _ <-]. Qed.

Lemma hard_tree_addLeaf (leaf : Hash) : hard (tree_addLeaf leaf).
Proof.
  intros c c' e. unfold tree_addLeaf.
  destruct (addLeaf leaf (lockMerkleTree c)) as [t [|]]; [discriminate|].
  now intros [= _ <-].
Qed.

Lemma hard_tree_removeLeaf (leaf : Hash) : hard (tree_removeLeaf leaf).
Proof.
  intros c c' e. unfold tree_removeLeaf.
  destruct (removeLeaf leaf (lockMerkleTree c)) as [t [b|]]; [discriminate|].
  now intros [= _ <-].
Qed.

Lemma hard_only_raises {A} (m : M A) : only_raises m -> hard m.
Proof. intros Hm c c' e H. now rewrite (Hm c c' e H). Qed.

Lemma hard_encodeTransferCalldata a recipient' amt :
  hard (lift_result (encodeTransferCalldata a recipient' amt)).
Proof.
  intros c c' e. unfold lift_result, encodeTransferCalldata.
  destruct (assetType a);
    repeat match goal with
           | |- context [match ?x with Some _ => _ | None => _ end] =>
               destruct x
           end;
    try discriminate; now intros [= _ <-].
Qed.

Ltac hard_steps :=
  repeat match goal with
         | |- hard (bind _ _) => apply hard_bind; [|intro]
         | |- hard (lift _) => apply hard_lift
         | |- hard get => apply hard_get
         | |- hard (ret _) => apply hard_ret
         | |- hard (modify _) => apply hard_modify
         | |- hard (assign _ _) => apply hard_modify
         | |- hard update_stateRoot => unfold update_stateRoot
         | |- hard (tree_addLeaf _) => apply hard_tree_addLeaf
         | |- hard (tree_removeLeaf _) => apply hard_tree_removeLeaf
         | |- hard (lift_result (encodeTransferCalldata _ _ _)) =>
             apply hard_encodeTransferCalldata
         | |- hard (generateCCMAttestation _ _) =>
             apply hard_only_raises, generateCCMAttestation_only_raises
         | |- hard (generateCommitment _ _) =>
             apply hard_only_raises, generateCommitment_only_raises
         | |- hard (generateSettlementUserOp _) =>
             unfold generateSettlementUserOp
         end.

Ltac clean_steps :=
  repeat match goal with
         | |- clean (bind (modify _) _) => apply clean_hard; hard_steps
         | |- clean (bind (assign _ _) _) => apply clean_hard; hard_steps
         | |- clean (bind (getNextNonce _) _) =>
             apply clean_hard; unfold getNextNonce; hard_steps
         | |- clean (bind _ _) =>
             apply clean_bind; [readonly_steps|intro]
         | |- clean (match ?x with _ => _ end) => destruct x
         | |- clean (throw _) => apply clean_readonly, readonly_throw
         | |- clean (ret _) => apply clean_readonly, readonly_ret
         end.

Section Rejections.
Context {curve : Secp256k1}.

Lemma clean_createLock clk request : clean (createLock clk request).
Proof. unfold createLock. clean_steps. Qed.

Lemma clean_signLock clk request : clean (signLock clk request).
Proof. unfold signLock. clean_steps. Qed.

Lemma clean_cancelLock clk lockId sig : clean (cancelLock clk lockId sig).
Proof. unfold cancelLock. clean_steps. Qed.

Lemma clean_verifyFulfillment clk request :
clean (verifyFulfillment clk request).
Proof.
unfold verifyFulfillment.
apply clean_bind; [readonly_steps|intro c0].
destruct (map_get (fl_lockId request) (locks (state c0))) as [lock|];
[|apply clean_readonly, readonly_throw].
apply clean_bind; [readonly_steps|intros _].
destruct (expiresAt lock <? now clk).
- apply clean_hard. intros c c' e H. unfold assign in H. run_in H.
now injection H as _ <-.
- apply clean_bind; [readonly_steps|intros _].
clean_steps.
Qed.

Lemma hard_cleanup_loop clk entries cleaned :
hard (cleanup_loop clk entries cleaned).
Proof.
revert cleaned. induction entries as [|[lockId lock] rest IH];
intro cleaned; simpl.
- apply hard_ret.
- destruct (LockStatus_eqb (status lock) ACTIVE
        && (expiresAt lock <? now clk))%bool; [|apply IH].
hard_steps. apply IH.
Qed.

Lemma clean_cleanupExpiredLocks clk : clean (cleanupExpiredLocks clk).
Proof.
apply clean_hard. unfold cleanupExpiredLocks.
apply hard_bind; [apply hard_get|intro c0].
apply hard_bind; [apply hard_cleanup_loop|intro n].
apply hard_bind; [|intros _; apply hard_ret].
destruct (0 <? n); hard_steps.
Qed.

(** X2.  A call that refuses its input changes nothing: when
[createLock], [signLock], [verifyFulfillment], [cancelLock] or
[cleanupExpiredLocks] throws for a failed validation, a missing lock,
a lock in the wrong status, a foreign signer or a malformed proof, the
instance is exactly what it was before the call. *)
Theorem refused_call_changes_nothing
  (clk : Clock) (rq : request) (c : CCM) (e : exn) :
thrown (snd (step clk rq c)) = Some e ->
rejection e = true ->
fst (step clk rq c) = c.
Proof.
destruct rq as [r|r|r|lockId sig|]; simpl.
- pose proof (@clean_createLock clk r c) as H.
destruct (createLock clk r c) as [c' [a|e']]; simpl; [discriminate|].
intros [= ->]. now apply H.
- pose proof (@clean_signLock clk r c) as H.
destruct (signLock clk r c) as [c' [a|e']]; simpl; [discriminate|].
intros [= ->]. now apply H.
- pose proof (@clean_verifyFulfillment clk r c) as H.
destruct (verifyFulfillment clk r c) as [c' [a|e']]; simpl;
[discriminate|].
intros [= ->]. now apply H.
- pose proof (@clean_cancelLock clk lockId sig c) as H.
destruct (cancelLock clk lockId sig c) as [c' [a|e']]; simpl;
[discriminate|].
intros [= ->]. now apply H.
- pose proof (@clean_cleanupExpiredLocks clk c) as H.
destruct (cleanupExpiredLocks clk c) as [c' [a|e']]; simpl;
[discriminate|].
intros [= ->]. now apply H.
Qed.
End Rejections.

Lemma refused_call_changes_nothing_witness :
  fst (@step Toy.curve Scenario.t0
         (CreateLock (Scenario.create Scenario.usdc "1000000000" 29))
         Runs.pending) = Runs.pending.
Proof.
  apply (@refused_call_changes_nothing Toy.curve Scenario.t0
           (CreateLock (Scenario.create Scenario.usdc "1000000000" 29))
           Runs.pending DurationTooShort).
  - vm_compute; reflexivity.
  - reflexivity.
Defined.
(** ** The exceptions of a method *)


Lemma raises_in_weaken {A} (P Q : exn -> Prop) (m : M A) :
  raises_in P m -> (forall e, P e -> Q e) -> raises_in Q m.
Proof. intros Hm HPQ c c' e H. apply HPQ. now apply (Hm c c'). Qed.


Lemma raises_in_silent {A} (P : exn -> Prop) (m : M A) :
  (forall c, exists a, snd (m c) = Ok a) -> raises_in P m.
Proof.
  intros Hm c c' e H. destruct (Hm c) as (a & Ha). rewrite H in Ha.
  discriminate.
Qed.

Section Outcomes.
Context {curve : Secp256k1}.


Lemma generateSettlementUserOp_refuses lock c :
assetType (asset lock) = erc721 \/ assetType (asset lock) = erc1155 ->
generateSettlementUserOp lock c
= (c, Throw (UnsupportedAssetKind (assetType (asset lock)))).
Proof.
intro Hkind. unfold generateSettlementUserOp. apply step_get.
unfold bind at 1. unfold lift_result at 1.
unfold encodeTransferCalldata.
destruct Hkind as [-> | ->]; reflexivity.
Qed.




(** X3.  For an active lock on an ERC-721 or ERC-1155 asset within its
time and with a well-formatted proof, [verifyFulfillment] throws the
refusal of the asset kind after it has written the lock as
[FULFILLED]: the call fails, no settlement operation is returned, and
the lock stays fulfilled. *)
Theorem verifyFulfillment_fulfils_before_it_refuses_the_kind
  (clk : Clock) (rq : FulfillLockRequest) (c : CCM)
  (lock : ResourceLock) :
getLock (fl_lockId rq) c = Some lock ->
status lock = ACTIVE ->
now clk <= expiresAt lock ->
well_formatted (fulfillmentProof rq) = true ->
assetType (asset lock) = erc721 \/ assetType (asset lock) = erc1155 ->
verifyFulfillment clk rq c
= (status_written (fl_lockId rq) lock FULFILLED c,
Throw (UnsupportedAssetKind (assetType (asset lock))))
/\ statusOf (fl_lockId rq) (fst (verifyFulfillment clk rq c))
= Some FULFILLED.
Proof.
intros Hget Hst Hnow Hproof Hkind.
assert (Hrun : verifyFulfillment clk rq c
           = (status_written (fl_lockId rq) lock FULFILLED c,
              Throw (UnsupportedAssetKind (assetType (asset lock))))).
{ unfold getLock in Hget. unfold verifyFulfillment.
apply step_get. rewrite Hget.
rewrite bind_when_false by (now rewrite Hst).
assert (Hexp : (expiresAt lock <? now clk) = false)
by (apply Z.ltb_ge; exact Hnow).
rewrite Hexp. cbv beta iota. apply step_ret.
unfold well_formatted in Hproof. apply andb_true_iff in Hproof.
destruct Hproof as [Htx Hblock].
assert (Hne : forall s, (String.length s =? 66)%nat = true ->
                      (negb (truthy (VStr s))
                       || negb (String.length s =? 66)%nat)%bool
                      = false).
{ intros s E. rewrite E. destruct s; [discriminate|reflexivity]. }
unfold verifyFulfillmentProof.
rewrite (Hne _ Htx), (Hne _ Hblock).
unfold when, bind at 1 2. unfold ret at 1 2. cbv beta iota.
unfold assign. rewrite !bind_modify.
unfold bind at 1.
rewrite generateSettlementUserOp_refuses by exact Hkind.
reflexivity. }
split; [exact Hrun|]. rewrite Hrun. apply statusOf_status_written.
Qed.
End Outcomes.

Lemma verifyFulfillment_fulfils_before_it_refuses_the_kind_witness :
  @verifyFulfillment Toy.curve Runs.at_expiry Cases.nft_fulfil
    Cases.nft_active
  = (status_written Cases.nft_lockId Cases.nft_activeLock FULFILLED
       Cases.nft_active,
     Throw (UnsupportedAssetKind erc721))
  /\ statusOf Cases.nft_lockId
       (fst (@verifyFulfillment Toy.curve Runs.at_expiry Cases.nft_fulfil
               Cases.nft_active)) = Some FULFILLED.
Proof.
  apply (@verifyFulfillment_fulfils_before_it_refuses_the_kind Toy.curve
           Runs.at_expiry Cases.nft_fulfil Cases.nft_active
           Cases.nft_activeLock).
  - vm_compute; reflexivity.
  - reflexivity.
  - vm_compute; discriminate.
  - reflexivity.
  - left; reflexivity.
Defined.
(** ** The hash of a text *)

Lemma hexToBytes_Some_even_hex (s : string) (bs : list byte) :
  JS.hexToBytes s = Some bs -> even_hex s = true.
Proof.
  revert bs. induction s as [|c|c1 c2 s IH] using string_pairs_ind;
    intros bs H.
  - reflexivity.
  - discriminate.
  - simpl in H. unfold even_hex. simpl. unfold is_hex_digit.
    destruct (JS.hex_val c1); [|discriminate].
    destruct (JS.hex_val c2); [|discriminate].
    destruct (JS.hexToBytes s) as [bs'|] eqn:E; [|discriminate].
    specialize (IH bs' eq_refl). unfold even_hex in IH.
    apply andb_true_iff in IH. destruct IH as [Heven Hhex].
    now rewrite Heven, Hhex.
Qed.

(** X4.  [keccak256] applied to a string reads it as hexadecimal text: on
    [0x] followed by an even number of hexadecimal digits it returns, on
    [0x] followed by an odd number of characters it throws, and what it
    returns is always [0x] followed by 64 hexadecimal digits. *)
Theorem keccak256_reads_hexadecimal_text (body : string) :
  (even_hex body = true ->
   exists h, keccak256 ("0x" ++ body) = Some h /\ is_hash h = true)
  /\ (Nat.odd (String.length body) = true ->
      keccak256 ("0x" ++ body) = None)
  /\ (forall s h, keccak256 s = Some h -> is_hash h = true).
Proof.
  split; [|split].
  - apply keccak256_defined.
  - intro Hodd. unfold keccak256.
    change (JS.replace_0x ("0x" ++ body)) with body.
    destruct (JS.hexToBytes body) as [bs|] eqn:E; [|reflexivity].
    apply hexToBytes_Some_even_hex in E. unfold even_hex in E.
    apply andb_true_iff in E. destruct E as [E _].
    rewrite <- Nat.negb_even, E in Hodd. discriminate.
  - intros s h H. exact (keccak256_Some_is_hash _ H).
Qed.

Lemma keccak256_reads_hexadecimal_text_witness :
  (exists h, keccak256 "0x19ff" = Some h /\ is_hash h = true)
  /\ keccak256 "0x19f" = None.
Proof.
  split.
  - exact (proj1 (keccak256_reads_hexadecimal_text "19ff") eq_refl).
  - exact (proj1 (proj2 (keccak256_reads_hexadecimal_text "19f")) eq_refl).
Defined.

(** ** The encoder and the types it has no branch for *)

Lemma abiEncode_from_skip_inside (encoded type : string)
      (types1 types2 : list string) (v : value) (values1 values2 : list value) :
  unhandled type = true ->
  List.length types1 = List.length values1 ->
  abiEncode_from encoded (types1 ++ type :: types2)
                 (values1 ++ v :: values2)
  = abiEncode_from encoded (types1 ++ types2) (values1 ++ values2).
Proof.
  intro H. revert encoded values1.
  induction types1 as [|t types1 IH]; intros encoded values1 Hlen.
  - destruct values1; [|discriminate]. simpl.
    rewrite (abiEncode_piece_unhandled _ v H). now rewrite append_empty_r.
  - destruct values1 as [|v0 values1]; [discriminate|]. simpl.
    destruct (abiEncode_piece t v0); [|reflexivity].
    apply IH. simpl in Hlen. congruence.
Qed.

(** X5.  A value whose type is none of [address], [uint256], [int256],
    [bytes32], [bool] and [bytes] leaves no trace in the encoding,
    wherever it stands in the list: the result is that of the call
    without the pair. *)
Theorem abiEncode_ignores_other_types
        (type : string) (types1 types2 : list string) (v : value)
        (values1 values2 : list value) :
  unhandled type = true ->
  List.length types1 = List.length values1 ->
  abiEncode (types1 ++ type :: types2) (values1 ++ v :: values2)
  = abiEncode (types1 ++ types2) (values1 ++ values2).
Proof. intros H Hlen. now apply abiEncode_from_skip_inside. Qed.

Lemma abiEncode_ignores_other_types_witness :
  abiEncode ["uint256"; "uint8"; "address"; "uint256"]
            [VInt 1; VInt 2; VStr Scenario.user; VInt 0]
  = abiEncode ["uint256"; "address"; "uint256"]
              [VInt 1; VStr Scenario.user; VInt 0].
Proof.
  apply (@abiEncode_ignores_other_types "uint8" ["uint256"]
           ["address"; "uint256"] (VInt 2) [VInt 1]
           [VStr Scenario.user; VInt 0]); reflexivity.
Defined.

(** ** The boot attestation *)

(** X6.  [generateBootAttestation] never returns: in every instance it
    throws and leaves the instance as it is, because the code hash is
    [keccak256] applied to the text [enclave-binary-v1.0.0], which is not
    hexadecimal. *)
Theorem generateBootAttestation_always_throws {curve : Secp256k1} (c : CCM) :
  generateBootAttestation c = (c, Throw Raised).
Proof.
  assert (Hcode : keccak256 "enclave-binary-v1.0.0" = None)
    by (vm_compute; reflexivity).
  unfold generateBootAttestation. rewrite Hcode.
  unfold bind, get, lift, ret, throw.
  repeat match goal with
         | |- context [match ?x with Some _ => _ | None => _ end] =>
             destruct x
         end;
    reflexivity.
Qed.
(** ** What the locks of a reachable instance look like *)

(** X7.  In every instance that calls can produce, the keys of the lock
    map are distinct, every lock is stored under its own identifier, and
    its amount is positive. *)
Theorem stored_locks_are_keyed_by_their_id {curve : Secp256k1}
        (c : CCM) (k : Hash) (lock : ResourceLock) :
  reachable c ->
  getLock k c = Some lock ->
  id lock = k /\ 0 < amount lock /\ NoDup (map_keys (locks (state c))).
Proof.
  intros Hreach Hget. pose proof (reachable_lock_invariant Hreach) as Hinv.
  destruct (lock_invariant_stored _ Hinv Hget) as [Hid Hamt].
  destruct Hinv as [Hnd _]. auto.
Qed.

Lemma stored_locks_are_keyed_by_their_id_witness :
  id Runs.activeLock = Runs.lockId /\ 0 < amount Runs.activeLock
  /\ NoDup (map_keys (locks (state Runs.active))).
Proof.
  apply (@stored_locks_are_keyed_by_their_id Toy.curve Runs.active
           Runs.lockId Runs.activeLock reachable_active).
  vm_compute; reflexivity.
Defined.

(** ** What a successful [createLock] leaves behind *)

Lemma bind_Ok {A B} (m : M A) (k : A -> M B) (c c' : CCM) (b : B) :
  bind m k c = (c', Ok b) ->
  exists c1 a, m c = (c1, Ok a) /\ k a c1 = (c', Ok b).
Proof.
  unfold bind. destruct (m c) as [c1 [a|e]]; [|discriminate].
  intro H. now exists c1, a.
Qed.

Lemma bind_readonly_Ok {A B} (m : M A) (k : A -> M B) (c c' : CCM) (b : B) :
  readonly m -> bind m k c = (c', Ok b) ->
  exists a, m c = (c, Ok a) /\ k a c = (c', Ok b).
Proof.
  intros Hm H. apply bind_Ok in H. destruct H as (c1 & a & Hma & Hk).
  specialize (Hm c). rewrite Hma in Hm. simpl in Hm. subst c1.
  now exists a.
Qed.

Lemma bind_lift_Ok {A B} (o : option A) (k : A -> M B) (c c' : CCM) (b : B) :
  bind (lift o) k c = (c', Ok b) ->
  exists a, o = Some a /\ k a c = (c', Ok b).
Proof.
  unfold bind, lift. destruct o as [a|]; [|discriminate].
  intro H. now exists a.
Qed.

Lemma validateAmount_Ok (amt : Z) (c c' : CCM) (u : unit) :
  validateAmount amt c = (c', Ok u) ->
  0 < amt <= maxSingleLockAmount (riskLimits (config c)).
Proof.
  unfold validateAmount, bind, get, when.
  destruct (amt <=? 0) eqn:E; [discriminate|]. unfold ret.
  destruct (maxSingleLockAmount (riskLimits (config c)) <? amt) eqn:E';
    [discriminate|].
  intros _. apply Z.leb_gt in E. apply Z.ltb_ge in E'. lia.
Qed.

Lemma validateDuration_Ok (d : Z) (c c' : CCM) (u : unit) :
  validateDuration d c = (c', Ok u) ->
  minLockDuration (config c) <= d <= maxLockDuration (config c).
Proof.
  unfold validateDuration, bind, get, when.
  destruct (d <? minLockDuration (config c)) eqn:E; [discriminate|].
  unfold ret.
  destruct (maxLockDuration (config c) <? d) eqn:E'; [discriminate|].
  intros _. apply Z.ltb_ge in E. apply Z.ltb_ge in E'. lia.
Qed.

Lemma validateAsset_Ok (a : AssetIdentifier) (c c' : CCM) (u : unit) :
  validateAsset a c = (c', Ok u) ->
  In (chainId a) (supportedChains (config c))
  /\ (assetType a = native
      \/ exists contract, contractAddress a = Some contract
                          /\ contract <> "").
Proof.
  unfold validateAsset, bind, get, when.
  destruct (existsb (Z.eqb (chainId a)) (supportedChains (config c)))
    eqn:E; [|discriminate]. unfold ret. cbn [negb].
  intro H. split.
  - apply existsb_exists in E. destruct E as (x & Hin & Hx).
    apply Z.eqb_eq in Hx. now subst x.
  - destruct (assetType a); [now left|right..];
      (destruct (contractAddress a) as [contract|]; [|discriminate];
       exists contract; split; [reflexivity|];
       intros ->; discriminate).
Qed.

(** X8.  When [createLock] returns, the owner's nonce has been raised by
    one and given to the lock, the lock is stored as [PENDING] under its
    identifier (a hash) with no signature, it expires [expiresIn] seconds
    after the clock reading while the signing window ends after 30, and
    nothing but the nonce and the lock map has changed.  The amount is
    positive and within the single-lock limit, the duration within the
    limits, and the chain of the asset is supported. *)
Theorem createLock_stores_a_pending_lock
        (clk : Clock) (rq : CreateLockRequest) (c c' : CCM)
        (response : CreateLockResponse) :
  createLock clk rq c = (c', Ok response) ->
  let lock := cl_lock response in
  c' = set_locks (map_set (id lock) lock)
         (set_nonces (map_set (JS.toLowerCase (req_owner rq)) (nonce lock)) c)
  /\ getLock (id lock) c' = Some lock
  /\ status lock = PENDING
  /\ userSignature lock = None /\ ccmSignature lock = None
  /\ owner lock = req_owner rq /\ asset lock = req_asset rq
  /\ fulfillmentCondition lock = req_fulfillmentCondition rq
  /\ JS.BigInt_of_string (req_amount rq) = Some (amount lock)
  /\ nonce lock = getCurrentNonce (req_owner rq) c + 1
  /\ getCurrentNonce (req_owner rq) c' = nonce lock
  /\ lockedAt lock = now clk
  /\ expiresAt lock = now clk + expiresIn rq
  /\ expirationTimestamp response = now clk + 30
  /\ is_hash (id lock) = true
  /\ 0 < amount lock <= maxSingleLockAmount (riskLimits (config c))
  /\ minLockDuration (config c) <= expiresIn rq <= maxLockDuration (config c)
  /\ In (chainId (req_asset rq)) (supportedChains (config c)).
Proof.
  intros H lock. subst lock. unfold createLock in H.
  apply bind_lift_Ok in H. destruct H as (amt & Hamt & H).
  apply bind_readonly_Ok in H; [|apply readonly_validateAsset].
  destruct H as ([] & Hva & H).
  apply bind_readonly_Ok in H; [|apply readonly_validateAmount].
  destruct H as ([] & Hvm & H).
  apply bind_readonly_Ok in H; [|apply readonly_validateDuration].
  destruct H as ([] & Hvd & H).
  apply bind_readonly_Ok in H; [|apply readonly_validateRiskLimits].
  destruct H as ([] & Hvr & H).
  apply bind_readonly_Ok in H; [|apply readonly_validateAsset].
  destruct H as ([] & Hvt & H).
  apply bind_Ok in H. destruct H as (c1 & nonce' & Hnonce & H).
  unfold getNextNonce in Hnonce. run_in Hnonce.
  injection Hnonce as <- <-.
  apply bind_lift_Ok in H. destruct H as (lockId & Hid & H).
  rewrite bind_modify in H.
  apply bind_lift_Ok in H. destruct H as (assetHash & Ha & H).
  apply bind_lift_Ok in H. destruct H as (fulfillmentHash & Hf & H).
  unfold ret in H. injection H as <- <-. cbn [cl_lock expirationTimestamp
    id nonce status userSignature ccmSignature owner asset amount lockedAt
    expiresAt fulfillmentCondition].
  pose proof (validateAmount_Ok _ _ Hvm) as Hrange.
  pose proof (validateDuration_Ok _ _ Hvd) as Hdur.
  destruct (validateAsset_Ok _ _ Hva) as [Hchain _].
  assert (Hhash : is_hash lockId = true).
  { unfold generateLockId in Hid.
    destruct (hashAsset (req_asset rq)); [|discriminate].
    exact (keccak256_abiEncode_Some_is_hash _ _ Hid). }
  repeat split; try reflexivity; try assumption; try lia.
  - unfold getLock. cbn [state locks set_locks]. apply map_get_set_eq.
  - unfold getCurrentNonce. cbn [state nonces set_locks set_nonces].
    now rewrite map_get_set_eq, or_bigint_Some.
Qed.

Lemma createLock_stores_a_pending_lock_witness :
  exists response,
    snd Runs.created = Ok response
    /\ getLock (id (cl_lock response)) Runs.pending = Some (cl_lock response)
    /\ status (cl_lock response) = PENDING
    /\ nonce (cl_lock response) = 1
    /\ expiresAt (cl_lock response) = 1700000300.
Proof.
  destruct (snd Runs.created) as [response|e] eqn:E; [|discriminate E].
  exists response.
  assert (H : createLock Scenario.t0 Runs.scenario Runs.fresh
              = (Runs.pending, Ok response)).
  { rewrite <- E. vm_compute. reflexivity. }
  pose proof (@createLock_stores_a_pending_lock Scenario.t0 Runs.scenario
                Runs.fresh Runs.pending response H) as P.
  cbv zeta in P.
  destruct P as (_ & Hget & Hst & _ & _ & _ & _ & _ & _ & Hn & _ & _ & Hexp
                 & _).
  split; [reflexivity|]. split; [exact Hget|]. split; [exact Hst|].
  split; [exact Hn | exact Hexp].
Defined.
(** ** What no call changes *)

Section Identity.
Context {curve : Secp256k1}.
Variable c0 : CCM.

(** The identity of the enclave and its configuration are those of [c0]. *)
Let same_enclave (c : CCM) : Prop :=
enclaveId (state c) = enclaveId (state c0)
/\ privateKey (state c) = privateKey (state c0)
/\ publicKey (state c) = publicKey (state c0)
/\ bootTime (state c) = bootTime (state c0)
/\ config c = config c0.

Ltac same := intros; match goal with H : same_enclave _ |- _ => exact H end.

Lemma createLock_keeps_the_enclave clk request :
maintains same_enclave (createLock clk request).
Proof. unfold createLock, getNextNonce. maintains_steps; same. Qed.

Lemma signLock_keeps_the_enclave clk request :
maintains same_enclave (signLock clk request).
Proof. unfold signLock. maintains_steps; same. Qed.

Lemma verifyFulfillment_keeps_the_enclave clk request :
maintains same_enclave (verifyFulfillment clk request).
Proof. unfold verifyFulfillment. maintains_steps; same. Qed.

Lemma cancelLock_keeps_the_enclave clk lockId sig :
maintains same_enclave (cancelLock clk lockId sig).
Proof. unfold cancelLock. maintains_steps; same. Qed.

Lemma cleanup_loop_keeps_the_enclave clk entries cleaned :
maintains same_enclave (cleanup_loop clk entries cleaned).
Proof.
revert cleaned. induction entries as [|[lockId lock] rest IH];
intro cleaned; simpl.
- maintains_steps.
- destruct (_ && _)%bool.
+ maintains_steps; try same. apply IH.
+ apply IH.
Qed.

Lemma cleanupExpiredLocks_keeps_the_enclave clk :
maintains same_enclave (cleanupExpiredLocks clk).
Proof.
unfold cleanupExpiredLocks.
apply maintains_bind; [maintains_steps|intro c1].
apply maintains_bind; [apply cleanup_loop_keeps_the_enclave|intro n].
maintains_steps; same.
Qed.

Lemma step_keeps_the_enclave clk rq c :
same_enclave c -> same_enclave (fst (step clk rq c)).
Proof.
intro Hc. destruct rq as [r|r|r|lockId sig|]; simpl.
- pose proof (@createLock_keeps_the_enclave clk r c Hc) as H.
now destruct (createLock clk r c).
- pose proof (@signLock_keeps_the_enclave clk r c Hc) as H.
now destruct (signLock clk r c).
- pose proof (@verifyFulfillment_keeps_the_enclave clk r c Hc) as H.
now destruct (verifyFulfillment clk r c).
- pose proof (@cancelLock_keeps_the_enclave clk lockId sig c Hc) as H.
now destruct (cancelLock clk lockId sig c).
- pose proof (@cleanupExpiredLocks_keeps_the_enclave clk c Hc) as H.
now destruct (cleanupExpiredLocks clk c).
Qed.

Lemma run_keeps_the_enclave calls c :
same_enclave c -> same_enclave (run calls c).
Proof.
revert c. induction calls as [|[clk rq] rest IH]; intros c Hc; simpl.
- exact Hc.
- apply IH. now apply step_keeps_the_enclave.
Qed.
End Identity.

(** X9.  No sequence of calls changes the identity of the enclave: its
    identifier, its key pair, its boot time and its configuration after
    the calls are those it started with, whether the calls return or
    throw. *)
Theorem calls_keep_the_enclave_identity {curve : Secp256k1}
        (calls : list (Clock * request)) (c : CCM) :
  let c' := run calls c in
  enclaveId (state c') = enclaveId (state c)
  /\ privateKey (state c') = privateKey (state c)
  /\ publicKey (state c') = publicKey (state c)
  /\ bootTime (state c') = bootTime (state c)
  /\ config c' = config c.
Proof.
  apply (@run_keeps_the_enclave curve c calls c). repeat split.
Qed.

(** ** Nonces *)

Section Nonces.
Context {curve : Secp256k1}.
Variable ns : jsmap Z.

Let unchanged (c : CCM) : Prop := nonces (state c) = ns.

Ltac kept := intros; match goal with H : unchanged _ |- _ => exact H end.

Lemma signLock_keeps_the_nonces clk request :
maintains unchanged (signLock clk request).
Proof. unfold signLock. maintains_steps; kept. Qed.

Lemma verifyFulfillment_keeps_the_nonces clk request :
maintains unchanged (verifyFulfillment clk request).
Proof. unfold verifyFulfillment. maintains_steps; kept. Qed.

Lemma cancelLock_keeps_the_nonces clk lockId sig :
maintains unchanged (cancelLock clk lockId sig).
Proof. unfold cancelLock. maintains_steps; kept. Qed.

Lemma cleanup_loop_keeps_the_nonces clk entries cleaned :
maintains unchanged (cleanup_loop clk entries cleaned).
Proof.
revert cleaned. induction entries as [|[lockId lock] rest IH];
intro cleaned; simpl.
- maintains_steps.
- destruct (_ && _)%bool.
+ maintains_steps; try kept. apply IH.
+ apply IH.
Qed.

Lemma cleanupExpiredLocks_keeps_the_nonces clk :
maintains unchanged (cleanupExpiredLocks clk).
Proof.
unfold cleanupExpiredLocks.
apply maintains_bind; [maintains_steps|intro c1].
apply maintains_bind; [apply cleanup_loop_keeps_the_nonces|intro n].
maintains_steps; kept.
Qed.

(** What follows the nonce in [createLock] keeps the nonces. *)
Lemma createLock_tail_keeps_the_nonces clk request amt nonce' :
maintains unchanged
(let expiresAt' := now clk + expiresIn request in
lockId <- lift (generateLockId (req_owner request) (req_asset request)
                              amt nonce' (now clk)) ;;
let lock := {| id := lockId;
              owner := req_owner request;
              asset := req_asset request;
              amount := amt;
              lockedAt := now clk;
              expiresAt := expiresAt';
              nonce := nonce';
              fulfillmentCondition := req_fulfillmentCondition request;
              status := PENDING;
              ccmSignature := None;
              userSignature := None |} in
modify (set_locks (map_set lockId lock)) ;;;
let domain := {| name := name CCM_DOMAIN;
                version := version CCM_DOMAIN;
                domain_chainId := chainId (req_asset request);
                verifyingContract := verifyingContract CCM_DOMAIN |} in
assetHash <- lift (hashAsset (req_asset request)) ;;
fulfillmentHash <-
 lift (hashFulfillmentCondition (req_fulfillmentCondition request)) ;;
let message := {| msg_lockId := lockId;
                 msg_owner := req_owner request;
                 msg_asset := assetHash;
                 msg_amount := amt;
                 msg_nonce := nonce';
                 msg_expiresAt := expiresAt';
                 msg_fulfillmentHash := fulfillmentHash |} in
ret {| cl_lock := lock;
      typedDataToSign := {| td_domain := domain;
                            td_primaryType := "LockApproval";
                            td_message := message |};
      expirationTimestamp := now clk + 30 |}).
Proof. cbv zeta. maintains_steps; kept. Qed.
End Nonces.

Lemma createLock_nonces {curve : Secp256k1} clk request c :
  let c' := fst (createLock clk request c) in
  nonces (state c') = nonces (state c)
  \/ nonces (state c')
     = map_set (JS.toLowerCase (req_owner request))
               (getCurrentNonce (req_owner request) c + 1)
               (nonces (state c)).
Proof.
  cbv zeta. unfold createLock.
  apply (bind_readonly_cases
           (fun out => nonces (state (fst out)) = nonces (state c)
                       \/ nonces (state (fst out))
                          = map_set (JS.toLowerCase (req_owner request))
                              (getCurrentNonce (req_owner request) c + 1)
                              (nonces (state c))));
    [readonly_steps|now left|intros amt _].
  repeat (apply bind_readonly_cases;
          [solve [readonly_steps]|now left|intros [] _]).
  right. unfold bind at 1. unfold getNextNonce. run.
  match goal with
  | |- nonces (state (fst (?m ?s))) = ?n =>
      exact (@createLock_tail_keeps_the_nonces n clk request amt
               (getCurrentNonce (req_owner request) c + 1) s eq_refl)
  end.
Qed.

(** X10.  Nonces only move in [createLock], and by one: after any call the
    nonce of every owner is what it was or one more, and only a
    [createLock] of that owner (addresses compared in lower case) can
    raise it; the other four calls leave all nonces as they are. *)
Theorem nonces_grow_by_one_in_createLock_only {curve : Secp256k1}
        (clk : Clock) (rq : request) (c : CCM) (who : Address) :
  let c' := fst (step clk rq c) in
  (getCurrentNonce who c' = getCurrentNonce who c
   \/ getCurrentNonce who c' = getCurrentNonce who c + 1
      /\ exists r, rq = CreateLock r
                   /\ JS.toLowerCase (req_owner r) = JS.toLowerCase who)
  /\ match rq with
     | CreateLock _ => True
     | _ => nonces (state c') = nonces (state c)
     end.
Proof.
  cbv zeta.
  assert (Hsame : forall c1, nonces (state c1) = nonces (state c) ->
                    getCurrentNonce who c1 = getCurrentNonce who c).
  { intros c1 E. unfold getCurrentNonce. now rewrite E. }
  destruct rq as [r|r|r|lockId sig|]; simpl.
  - split; [|exact I].
    pose proof (createLock_nonces clk r c) as H. cbv zeta in H.
    destruct (createLock clk r c) as [c1 x]. simpl in *.
    destruct H as [H|H]; [left; now apply Hsame|].
    unfold getCurrentNonce at 1 3. rewrite H.
    destruct (String.eqb (JS.toLowerCase who) (JS.toLowerCase (req_owner r)))
      eqn:E.
    + apply String.eqb_eq in E. right. split.
      * rewrite E, map_get_set_eq, or_bigint_Some.
        unfold getCurrentNonce. now rewrite E.
      * exists r. split; [reflexivity|now symmetry].
    + apply String.eqb_neq in E. left.
      rewrite map_get_set_neq by congruence. reflexivity.
  - pose proof (@signLock_keeps_the_nonces curve (nonces (state c)) clk r c
                  eq_refl) as H.
    destruct (signLock clk r c) as [c1 x]. simpl in *. auto.
  - pose proof (@verifyFulfillment_keeps_the_nonces curve (nonces (state c))
                  clk r c eq_refl) as H.
    destruct (verifyFulfillment clk r c) as [c1 x]. simpl in *. auto.
  - pose proof (@cancelLock_keeps_the_nonces curve (nonces (state c))
                  clk lockId sig c eq_refl) as H.
    destruct (cancelLock clk lockId sig c) as [c1 x]. simpl in *. auto.
  - pose proof (@cleanupExpiredLocks_keeps_the_nonces (nonces (state c))
                  clk c eq_refl) as H.
    destruct (cleanupExpiredLocks clk c) as [c1 x]. simpl in *. auto.
Qed.
(** ** Merkle proofs *)

Lemma ltb_antisym (a b : string) :
  String.ltb a b = true -> String.ltb b a = false.
Proof.
  unfold String.ltb. rewrite (String.compare_antisym a b).
  destruct (String.compare b a); simpl; congruence.
Qed.

Lemma ltb_total (a b : string) :
  String.ltb a b = false -> String.ltb b a = false -> a = b.
Proof.
  unfold String.ltb. rewrite (String.compare_antisym a b).
  destruct (String.compare b a) eqn:E; simpl; try discriminate.
  intros _ _. symmetry. now apply String.compare_eq_iff.
Qed.

(** Both sides order a pair the same way. *)
Lemma sorted_pair_sym (a b : Hash) :
  (if String.ltb a b then (a, b) else (b, a))
  = (if String.ltb b a then (b, a) else (a, b)).
Proof.
  destruct (String.ltb a b) eqn:E1.
  - now rewrite (ltb_antisym _ _ E1).
  - destruct (String.ltb b a) eqn:E2; [reflexivity|].
    now rewrite (ltb_total _ _ E1 E2).
Qed.

Lemma is_hash_nonempty (h : Hash) : is_hash h = true -> String.eqb h "" = false.
Proof. destruct h; [discriminate|reflexivity]. Qed.

(** The sibling index used by [getProof]. *)
Lemma sibling_SS (i : nat) :
  (if Nat.even (S (S i)) then (S (S i) + 1)%nat else (S (S i) - 1)%nat)
  = S (S (if Nat.even i then (i + 1)%nat else (i - 1)%nat))
  \/ i = 0%nat /\ False.
Proof.
  left. cbn [Nat.even]. destruct (Nat.even i) eqn:E; [lia|].
  destruct i as [|i]; [discriminate|]. lia.
Qed.

Lemma div2_SS (i : nat) : (S (S i) / 2 = S (i / 2))%nat.
Proof.
  replace (S (S i)) with (i + 1 * 2)%nat by lia.
  rewrite Nat.div_add by lia. lia.
Qed.

(** The node above a pair is the hash that [verifyProof] computes from
    either member of the pair and the other one. *)
Lemma next_layer_nth (layer next : list Hash) (idx : nat) :
  hashes layer ->
  next_layer layer = Some next ->
  (idx < List.length layer)%nat ->
  let siblingIdx := if Nat.even idx then (idx + 1)%nat else (idx - 1)%nat in
  (siblingIdx < List.length layer)%nat ->
  (let '(a, b) :=
     if String.ltb (nth idx layer undefined) (nth siblingIdx layer undefined)
     then (nth idx layer undefined, nth siblingIdx layer undefined)
     else (nth siblingIdx layer undefined, nth idx layer undefined) in
   keccak256 (encodePacked [VStr a; VStr b]))
  = Some (nth (idx / 2) next undefined).
Proof.
  cbv zeta. revert next idx. unfold hashes.
  induction layer as [|x|x y layer IH] using list_pairs_ind;
    intros next idx Hh Hnext Hidx Hsib.
  - simpl in Hidx. lia.
  - simpl in Hidx, Hsib. destruct idx; simpl in Hsib; lia.
  - inversion Hh as [|? ? Hx Hh']; subst.
    inversion Hh' as [|? ? Hy Hrest]; subst.
    cbn [next_layer] in Hnext. rewrite (is_hash_nonempty _ Hy) in Hnext.
    destruct (next_layer layer) as [next'|] eqn:Hn.
    2:{ destruct (String.ltb x y);
          destruct (keccak256 _); discriminate. }
    destruct idx as [|[|i]].
    + cbn [Nat.even nth Nat.add]. change (0 / 2)%nat with 0%nat.
      destruct (String.ltb x y);
        destruct (keccak256 _) as [h|]; try discriminate;
        injection Hnext as <-; reflexivity.
    + cbn [Nat.even nth Nat.sub]. change (1 / 2)%nat with 0%nat.
      rewrite <- (sorted_pair_sym x y).
      destruct (String.ltb x y);
        destruct (keccak256 _) as [h|]; try discriminate;
        injection Hnext as <-; reflexivity.
    + destruct (sibling_SS i) as [E|[_ []]].
      rewrite E in *. rewrite div2_SS.
      assert (Hnext' : exists h, next = h :: next').
      { destruct (String.ltb x y);
          destruct (keccak256 _) as [h|]; try discriminate;
          injection Hnext as <-; now eexists. }
      destruct Hnext' as (h & ->).
      cbn [nth]. apply IH; [exact Hrest|reflexivity| |].
      * simpl in Hidx. lia.
      * simpl in Hsib. lia.
Qed.

Lemma getProof_from_length (ls : list (list Hash)) (idx : nat) :
  (List.length (getProof_from idx ls) <= List.length ls - 1)%nat.
Proof.
  revert idx. induction ls as [|layer rest IH]; intro idx.
  - simpl. lia.
  - destruct rest as [|layer' rest']; [simpl; lia|].
    specialize (IH (idx / 2)%nat).
    remember (layer' :: rest') as ls' eqn:Els.
    assert (E : getProof_from idx (layer :: ls')
                = ((if ((if Nat.even idx then (idx + 1)%nat
                         else (idx - 1)%nat) <? List.length layer)%nat
                    then [nth (if Nat.even idx then (idx + 1)%nat
                               else (idx - 1)%nat) layer undefined]
                    else [])
                   ++ getProof_from (idx / 2) ls')%list)
      by (subst ls'; reflexivity).
    assert (Hpos : (1 <= List.length ls')%nat) by (subst ls'; simpl; lia).
    rewrite E, length_app. cbn [List.length].
    destruct (_ <? _)%nat; cbn [List.length]; lia.
Qed.

(** Along the layers that [buildTree] pushes, a proof that has a sibling
    at every level hashes up to the root. *)
Lemma computeProof_layers (fuel : nat) (layer : list Hash) (idx : nat) :
  hashes layer -> (List.length layer <= S fuel)%nat ->
  (idx < List.length layer)%nat ->
  let ls := fst (layers_from fuel layer) in
  List.length (getProof_from idx ls) = (List.length ls - 1)%nat ->
  computeProof (nth idx layer undefined) (getProof_from idx ls)
  = Some (hd undefined (last ls [])).
Proof.
  cbv zeta. revert layer idx.
  induction fuel as [|fuel IH]; intros layer idx Hh Hlen Hidx Hfull.
  - simpl. destruct layer as [|x [|y l]]; simpl in *; try lia.
    destruct idx; [reflexivity|lia].
  - cbn [layers_from] in *.
    destruct (List.length layer <=? 1)%nat eqn:E.
    + apply Nat.leb_le in E. simpl.
      destruct layer as [|x [|y l]]; simpl in *; try lia.
      destruct idx; [reflexivity|lia].
    + apply Nat.leb_gt in E.
      destruct (next_layer_defined Hh) as (next & Hnext & Hnh & Hnl).
      rewrite Hnext in *.
      assert (Hle : (1 <= List.length next <= S fuel)%nat).
      { rewrite Hnl, Nat.div2_div.
        pose proof (Nat.div_mod_eq (S (List.length layer)) 2) as Hd.
        pose proof (Nat.mod_upper_bound (S (List.length layer)) 2).
        lia. }
      assert (Hidx' : (idx / 2 < List.length next)%nat).
      { rewrite Hnl, Nat.div2_div.
        apply Nat.Div0.div_lt_upper_bound.
        pose proof (Nat.div_mod_eq (S (List.length layer)) 2) as Hd.
        pose proof (Nat.mod_upper_bound (S (List.length layer)) 2).
        lia. }
      specialize (IH next (idx / 2)%nat Hnh (proj2 Hle) Hidx').
      pose proof (getProof_from_length (fst (layers_from fuel next))
                    (idx / 2)) as Hbound.
      destruct (layers_from_complete (fuel := fuel) Hnh (proj2 Hle))
        as (_ & _ & Hhd).
      destruct (layers_from fuel next) as [rest ok]. cbn [fst] in *.
      assert (Hpos : (1 <= List.length rest)%nat).
      { destruct rest; [simpl in Hhd; subst next; simpl in Hle; lia|].
        simpl. lia. }
      set (siblingIdx := if Nat.even idx then (idx + 1)%nat
                         else (idx - 1)%nat).
      assert (Eproof : getProof_from idx (layer :: rest)
                  = ((if (siblingIdx <? List.length layer)%nat
                      then [nth siblingIdx layer undefined] else [])
                     ++ getProof_from (idx / 2) rest)%list)
        by (destruct rest; [simpl in Hpos; lia|reflexivity]).
      assert (El : last (layer :: rest) [] = last rest [])
        by (destruct rest; [simpl in Hpos; lia|reflexivity]).
      rewrite Eproof in Hfull |- *. rewrite El.
      rewrite length_app in Hfull. cbn [List.length] in Hfull.
      destruct (siblingIdx <? List.length layer)%nat eqn:Hs.
      * apply Nat.ltb_lt in Hs. cbn [List.length] in Hfull.
        cbn [app computeProof].
        pose proof (@next_layer_nth layer next idx Hh Hnext Hidx Hs)
          as Hnode.
        cbv zeta in Hnode. fold siblingIdx in Hnode.
        destruct (String.ltb (nth idx layer undefined)
                             (nth siblingIdx layer undefined));
          rewrite Hnode; apply IH; lia.
      * exfalso. cbn [List.length] in Hfull. lia.
Qed.

(** X11.  The round trip of Merkle proofs: in a tree built from hashes,
    the proof that [getProof] returns for a leaf verifies against the root
    whenever it has one sibling per level below the root, that is,
    whenever no node on the way up was paired with itself. *)
Theorem proof_with_a_sibling_per_level_verifies
        (initial : list Hash) (index : nat) :
  hashes initial ->
  (index < List.length initial)%nat ->
  let t := fst (MerkleTree_new initial) in
  List.length (getProof t index) = (List.length (layers t) - 1)%nat ->
  verifyProof (nth index initial undefined) (getProof t index) (getRoot t)
  = Some true.
Proof.
  intros Hh Hidx. cbv zeta. unfold MerkleTree_new.
  destruct (0 <? List.length initial)%nat eqn:E;
    [|apply Nat.ltb_ge in E; lia].
  unfold buildTree. cbn [leaves].
  pose proof (@computeProof_layers (List.length initial) initial index Hh
                (Nat.le_succ_diag_r _) Hidx) as H. cbv zeta in H.
  destruct (layers_from_complete (fuel := List.length initial) Hh
              (Nat.le_succ_diag_r _)) as (_ & _ & Hhd).
  destruct (layers_from (List.length initial) initial) as [ls ok].
  cbn [fst layers] in *. unfold getProof, getRoot, verifyProof.
  cbn [layers]. intro Hfull. rewrite (H Hfull).
  destruct ls as [|l0 ls']; [simpl in Hhd; subst; simpl in Hidx; lia|].
  now rewrite String.eqb_refl.
Qed.

Lemma proof_with_a_sibling_per_level_verifies_witness :
  verifyProof Cases.leafD (getProof Cases.four 3) (getRoot Cases.four)
  = Some true.
Proof.
  apply (@proof_with_a_sibling_per_level_verifies
           [Scenario.leafA; Scenario.leafB; Scenario.leafC; Cases.leafD] 3).
  - repeat constructor.
  - simpl; lia.
  - vm_compute; reflexivity.
Defined.
(** ** Leaves added and removed *)

Lemma indexOf_None (leaf : Hash) (l : list Hash) :
  ~ In leaf l -> indexOf leaf l = None.
Proof.
  induction l as [|x l IH]; simpl; [reflexivity|]. intro H.
  destruct (String.eqb x leaf) eqn:E.
  - apply String.eqb_eq in E. subst. exfalso. apply H. now left.
  - rewrite IH; [reflexivity|]. intro Hin. apply H. now right.
Qed.

Lemma indexOf_app_fresh (leaf : Hash) (l : list Hash) :
  ~ In leaf l -> indexOf leaf (l ++ [leaf]) = Some (List.length l).
Proof.
  induction l as [|x l IH]; simpl; intro H.
  - now rewrite String.eqb_refl.
  - destruct (String.eqb x leaf) eqn:E.
    + apply String.eqb_eq in E. subst. exfalso. apply H. now left.
    + rewrite IH; [reflexivity|]. intro Hin. apply H. now right.
Qed.

Lemma splice1_app (leaf : Hash) (l : list Hash) :
  splice1 (List.length l) (l ++ [leaf]) = l.
Proof. induction l as [|x l IH]; simpl; [reflexivity | now rewrite IH]. Qed.

Lemma splice1_Forall (P : Hash -> Prop) (i : nat) (l : list Hash) :
  Forall P l -> Forall P (splice1 i l).
Proof.
  revert i. induction l as [|x l IH]; intros i H; destruct i; simpl;
    inversion H; subst; auto.
Qed.

Lemma In_splice1 (k k' : Hash) (i : nat) (l : list Hash) :
  indexOf k l = Some i -> In k' l -> k' <> k -> In k' (splice1 i l).
Proof.
  revert i. induction l as [|x l IH]; intros i Hi Hin Hne; simpl in *.
  - contradiction.
  - destruct (String.eqb x k) eqn:E.
    + injection Hi as <-. apply String.eqb_eq in E. subst x.
      destruct Hin as [->|Hin]; [congruence|exact Hin].
    + destruct (indexOf k l) as [j|] eqn:Ej; [|discriminate].
      simpl in Hi. injection Hi as <-. simpl.
      destruct Hin as [->|Hin]; [now left|right; now apply IH].
Qed.

Lemma buildTree_hashes (t : MerkleTree) :
  hashes (leaves t) ->
  exists ls, buildTree t = ({| leaves := leaves t; layers := ls |}, true).
Proof.
  intro H. unfold buildTree.
  destruct (layers_from_complete (fuel := List.length (leaves t)) H
              (Nat.le_succ_diag_r _)) as (Hok & _).
  destruct (layers_from _ _) as [ls ok]. simpl in Hok. subst ok.
  now exists ls.
Qed.

Lemma removeLeaf_hashes (leaf : Hash) (t : MerkleTree) :
  hashes (leaves t) ->
  exists t' b, removeLeaf leaf t = (t', Some b)
               /\ hashes (leaves t')
               /\ (forall k', In k' (leaves t) -> k' <> leaf ->
                              In k' (leaves t')).
Proof.
  intro H. unfold removeLeaf.
  destruct (indexOf leaf (leaves t)) as [i|] eqn:Ei.
  - assert (H' : hashes (splice1 i (leaves t))) by now apply splice1_Forall.
    destruct (0 <? List.length (splice1 i (leaves t)))%nat.
    + destruct (@buildTree_hashes
                  {| leaves := splice1 i (leaves t); layers := layers t |} H')
        as (ls & E).
      rewrite E. eexists. exists true. split; [reflexivity|].
      split; [exact H'|]. intros k' Hin Hne. simpl.
      exact (In_splice1 _ Ei Hin Hne).
    + eexists. exists true. split; [reflexivity|].
      split; [exact H'|]. intros k' Hin Hne. simpl.
      exact (In_splice1 _ Ei Hin Hne).
  - exists t, false. auto.
Qed.

(** X12.  [removeLeaf] and [addLeaf] on a tree of hashes: removing a leaf
    that is not in the tree returns [false] and changes nothing, and
    removing a leaf just added to a tree that did not hold it gives the
    tree back, layers included. *)
Theorem removeLeaf_undoes_addLeaf (initial : list Hash) (leaf : Hash) :
  hashes initial ->
  is_hash leaf = true ->
  ~ In leaf initial ->
  let t := fst (MerkleTree_new initial) in
  removeLeaf leaf t = (t, Some false)
  /\ removeLeaf leaf (fst (addLeaf leaf t)) = (t, Some true).
Proof.
  intros Hh Hleaf Hnew t.
  assert (Hleaves : leaves t = initial).
  { subst t. unfold MerkleTree_new, buildTree.
    destruct (0 <? List.length initial)%nat; [|reflexivity].
    cbn [leaves]. now destruct (layers_from _ _). }
  split.
  - unfold removeLeaf. rewrite Hleaves, (indexOf_None _ _ Hnew).
    reflexivity.
  - unfold addLeaf. rewrite Hleaves.
    assert (Hall : hashes (initial ++ [leaf])%list)
      by (apply Forall_app; split; [exact Hh|now constructor]).
    destruct (@buildTree_hashes
                {| leaves := (initial ++ [leaf])%list; layers := layers t |}
                Hall) as (ls & E).
    rewrite E. cbn [fst leaves]. unfold removeLeaf. cbn [leaves layers].
    rewrite (indexOf_app_fresh _ _ Hnew), splice1_app.
    subst t. unfold MerkleTree_new.
    destruct (0 <? List.length initial)%nat; [|reflexivity].
    unfold buildTree. cbn [leaves].
    destruct (layers_from_complete (fuel := List.length initial) Hh
                (Nat.le_succ_diag_r _)) as (Hok & _).
    destruct (layers_from _ _) as [ls' ok]. simpl in Hok. subst ok.
    reflexivity.
Qed.

Lemma removeLeaf_undoes_addLeaf_witness :
  let t := fst (MerkleTree_new [Scenario.leafA; Scenario.leafB]) in
  removeLeaf Scenario.leafC t = (t, Some false)
  /\ removeLeaf Scenario.leafC (fst (addLeaf Scenario.leafC t))
     = (t, Some true).
Proof.
  apply (@removeLeaf_undoes_addLeaf [Scenario.leafA; Scenario.leafB]
           Scenario.leafC).
  - repeat constructor.
  - reflexivity.
  - vm_compute. intros [H|[H|[]]]; discriminate H.
Defined.
(** ** The Merkle index of an instance that calls can produce *)

Lemma index_invariant_set_nonces (f : jsmap Z -> jsmap Z) (c : CCM) :
  index_invariant c -> index_invariant (set_nonces f c).
Proof. intro H. exact H. Qed.

Lemma index_invariant_set_dailyVolume (f : jsmap Z -> jsmap Z) (c : CCM) :
  index_invariant c -> index_invariant (set_dailyVolume f c).
Proof. intro H. exact H. Qed.

(** Writing a lock that is not active under its identifier. *)
Lemma index_invariant_store (c : CCM) (k : Hash) (l : ResourceLock) :
  index_invariant c -> id l = k -> 0 < amount l -> is_hash k = true ->
  status l <> ACTIVE ->
  index_invariant (set_locks (map_set k l) c).
Proof.
  intros (Hinv & Hkeys & Hleaves & Hroot & Hact) Hid Hamt Hk Hst.
  split; [now apply lock_invariant_set|].
  split; [cbn [state locks set_locks]; now apply Forall_map_set|].
  split; [exact Hleaves|]. split; [exact Hroot|].
  intros k' l'. unfold getLock. cbn [state locks set_locks lockMerkleTree].
  destruct (String.eqb k k') eqn:E.
  - apply String.eqb_eq in E. subst k'. rewrite map_get_set_eq.
    intros [= <-] Hs. contradiction.
  - apply String.eqb_neq in E. rewrite map_get_set_neq by exact E.
    apply Hact.
Qed.

Lemma index_invariant_key (c : CCM) (k : Hash) (l : ResourceLock) :
  index_invariant c -> getLock k c = Some l ->
  id l = k /\ 0 < amount l /\ is_hash k = true.
Proof.
  intros (Hinv & Hkeys & _) Hget.
  destruct (lock_invariant_stored _ Hinv Hget) as [Hid Hamt].
  repeat split; try assumption.
  apply map_get_In in Hget. rewrite Forall_forall in Hkeys.
  exact (Hkeys _ Hget).
Qed.

(** Removing the leaf of a lock that is no longer active, then taking the
    root. *)
Lemma index_invariant_remove {B} (c : CCM) (k : Hash) (l : ResourceLock)
      (rest : M B) :
  index_invariant c -> getLock k c = Some l -> status l <> ACTIVE ->
  readonly rest ->
  index_invariant
    (fst ((tree_removeLeaf k ;;; update_stateRoot ;;; rest) c)).
Proof.
  intros (Hinv & Hkeys & Hleaves & Hroot & Hact) Hget Hst Hrest.
  destruct (@removeLeaf_hashes k (lockMerkleTree c) Hleaves) as (t & b & Ht & Hth & Hin).
  unfold bind at 1. unfold tree_removeLeaf. rewrite Ht.
  rewrite bind_update_stateRoot.
  rewrite (Hrest _).
  split; [exact Hinv|]. split; [exact Hkeys|].
  split; [exact Hth|]. split; [reflexivity|].
  intros k' l' Hget' Hs. apply Hin; [now apply Hact with l'|].
  intros ->. unfold getLock in *.
  cbn [state locks set_stateRoot set_lockMerkleTree] in Hget'.
  congruence.
Qed.

Section Index.
Context {curve : Secp256k1}.

Lemma createLock_maintains_the_index clk request :
maintains index_invariant (createLock clk request).
Proof.
unfold createLock.
apply maintains_bind; [maintains_steps|intro amt].
apply maintains_bind; [maintains_steps|intros _].
apply maintains_bind_ok with (Q := fun _ : unit => 0 < amt);
[maintains_steps | intros c c' u; apply validateAmount_ok | intros _ Hamt].
apply maintains_bind; [maintains_steps|intros _].
apply maintains_bind; [maintains_steps|intros _].
apply maintains_bind; [maintains_steps|intros _].
apply maintains_bind;
[unfold getNextNonce; maintains_steps; intros c Hc; exact Hc
|intro nonce'].
apply maintains_bind_ok with (Q := fun lockId => is_hash lockId = true).
- maintains_steps.
- intros c c' lockId. unfold lift, generateLockId.
destruct (hashAsset (req_asset request)) as [assetHash|];
  [|discriminate].
destruct (keccak256_abiEncode _ _) as [lockId'|] eqn:E; [|discriminate].
intros [= _ <-]. exact (keccak256_abiEncode_Some_is_hash _ _ E).
- intros lockId Hk. maintains_steps.
intros c Hc. apply index_invariant_store; auto. discriminate.
Qed.

Lemma verifyFulfillment_maintains_the_index clk request :
maintains index_invariant (verifyFulfillment clk request).
Proof.
intros c Hc. unfold verifyFulfillment. enter_with_lock Hc Hget.
destruct (index_invariant_key _ Hc Hget) as (Hid & Hamt & Hk).
by_maintains Hc.
maintains_steps;
try (intros; match goal with
             | H : index_invariant _ |- index_invariant _ => exact H
             end);
intros c0 Hc0; apply index_invariant_store; auto;
try (cbn [id with_status]; rewrite Hid; exact Hk); discriminate.
Qed.

Lemma cancelLock_maintains_the_index clk lockId sig :
maintains index_invariant (cancelLock clk lockId sig).
Proof.
intros c Hc. unfold cancelLock.
unfold bind at 1. unfold get at 1. cbv beta iota.
destruct (map_get lockId (locks (state c))) as [lock|] eqn:Hget;
[|exact Hc].
destruct (index_invariant_key _ Hc Hget) as (Hid & Hamt & Hk).
apply bind_readonly_cases;
[solve [readonly_steps]|intros; exact Hc|intros [] _].
apply bind_readonly_cases;
[solve [readonly_steps]|intros; exact Hc|intros cancelMessage' _].
apply bind_readonly_cases;
[solve [readonly_steps]|intros; exact Hc|intros signer _].
apply bind_readonly_cases;
[solve [readonly_steps]|intros; exact Hc|intros [] _].
unfold assign. rewrite !bind_modify.
apply index_invariant_remove with (l := with_status CANCELLED lock).
- apply index_invariant_store; [|assumption..|discriminate].
apply index_invariant_store; [|assumption..|discriminate]. exact Hc.
- unfold getLock. cbn [state locks set_locks]. apply map_get_set_eq.
- discriminate.
- readonly_steps.
Qed.

Lemma signLock_maintains_the_index clk request :
maintains index_invariant (signLock clk request).
Proof.
intros c Hc. unfold signLock.
unfold bind at 1. unfold get at 1. cbv beta iota.
destruct (map_get (sl_lockId request) (locks (state c))) as [lock|]
eqn:Hget; [|exact Hc].
destruct (index_invariant_key _ Hc Hget) as (Hid & Hamt & Hk).
apply bind_readonly_cases;
[solve [readonly_steps]|intros; exact Hc|intros [] Hwhen].
assert (Hst : status lock = PENDING).
{ unfold when in Hwhen.
destruct (status lock); try reflexivity; discriminate. }
do 4 (apply bind_readonly_cases;
    [solve [readonly_steps]|intros; exact Hc|intros ? _]).
apply bind_readonly_cases;
[solve [readonly_steps]|intros; exact Hc|intros [] _].
unfold assign. rewrite bind_modify.
assert (H1 : index_invariant
             (set_locks (map_set (sl_lockId request)
                           (with_userSignature (sl_signature request)
                              lock)) c)).
{ apply index_invariant_store; auto.
cbn [status with_userSignature]. rewrite Hst. discriminate. }
apply bind_readonly_cases;
[solve [readonly_steps]|intros; exact H1|intros att _].
rewrite !bind_modify.
destruct Hc as (Hinv & Hkeys & Hleaves & Hroot & Hact).
assert (Hidk : is_hash (id lock) = true) by (now rewrite Hid).
destruct (@addLeaf_defined (id lock) (lockMerkleTree c) Hleaves Hidk)
as (t' & Ht' & Hl').
apply bind_tree_addLeaf_cases; intros t Ht;
cbn [id with_status with_ccmSignature with_userSignature
     lockMerkleTree set_locks] in Ht;
rewrite Ht' in Ht; [discriminate|].
injection Ht as <-.
rewrite bind_update_stateRoot, bind_modify.
match goal with
| |- index_invariant (fst (bind _ _ ?s)) =>
  assert (Hfinal : index_invariant s)
end.
{ split; [|split; [|split; [|split]]].
- unfold lock_invariant.
  cbn [state locks set_locks set_dailyVolume set_stateRoot
       set_lockMerkleTree].
  destruct Hinv as [Hnd Hall]. split.
  + repeat apply NoDup_keys_map_set. exact Hnd.
  + repeat (apply Forall_map_set;
            [cbn [fst snd id amount with_status with_ccmSignature
                  with_userSignature];
             split; [first [exact Hid|reflexivity]|exact Hamt]|]).
    exact Hall.
- cbn [state locks set_locks set_dailyVolume set_stateRoot
       set_lockMerkleTree].
  repeat (apply Forall_map_set;
          [cbn [fst id with_status with_ccmSignature
                with_userSignature];
           first [exact Hk|exact Hidk]|]).
  exact Hkeys.
- cbn [lockMerkleTree set_dailyVolume set_stateRoot
       set_lockMerkleTree]. rewrite Hl'.
  apply Forall_app. split; [exact Hleaves|now constructor].
- reflexivity.
- intros k' l'. unfold getLock.
  cbn [state locks lockMerkleTree set_locks set_dailyVolume
       set_stateRoot set_lockMerkleTree id with_status
       with_ccmSignature with_userSignature].
  rewrite Hl', Hid. intros Hget' Hs. apply in_or_app.
  destruct (String.eqb (sl_lockId request) k') eqn:E.
  + apply String.eqb_eq in E. subst k'. right. now left.
  + apply String.eqb_neq in E.
    rewrite !map_get_set_neq in Hget' by exact E.
    left. now apply Hact with l'. }
apply bind_readonly_cases;
[solve [readonly_steps]|intros; exact Hfinal|intros; exact Hfinal].
Qed.

(** The sweep over the entries: no removal throws; the leaves stay
hashes, every active lock stays a leaf, and the root is only stale
once a lock has been counted. *)
Lemma cleanup_loop_index clk entries cleaned c :
0 <= cleaned ->
lock_invariant c ->
Forall (fun entry => is_hash (fst entry) = true) (locks (state c)) ->
hashes (leaves (lockMerkleTree c)) ->
(forall k lock, getLock k c = Some lock -> status lock = ACTIVE ->
              In k (leaves (lockMerkleTree c))) ->
(cleaned = 0 -> stateRoot (state c) = getRoot (lockMerkleTree c)) ->
Forall (fun entry => id (snd entry) = fst entry
                   /\ 0 < amount (snd entry)
                   /\ is_hash (fst entry) = true) entries ->
exists c' n,
cleanup_loop clk entries cleaned c = (c', Ok n)
/\ 0 <= n
/\ lock_invariant c'
/\ Forall (fun entry => is_hash (fst entry) = true) (locks (state c'))
/\ hashes (leaves (lockMerkleTree c'))
/\ (forall k lock, getLock k c' = Some lock -> status lock = ACTIVE ->
                   In k (leaves (lockMerkleTree c')))
/\ (n = 0 -> stateRoot (state c') = getRoot (lockMerkleTree c'))
/\ stateRoot (state c') = stateRoot (state c).
Proof.
intros Hpos Hinv Hkeys Hleaves Hact Hroot Hall.
revert cleaned c Hpos Hinv Hkeys Hleaves Hact Hroot.
induction Hall as [|[lockId lock] rest (Hid & Hamt & Hk) _ IH];
intros cleaned c Hpos Hinv Hkeys Hleaves Hact Hroot.
- exists c, cleaned. cbn [cleanup_loop ret].
split; [reflexivity|]. split; [exact Hpos|]. split; [exact Hinv|].
split; [exact Hkeys|]. split; [exact Hleaves|]. split; [exact Hact|].
split; [exact Hroot|reflexivity].
- cbn [cleanup_loop]. simpl in Hid, Hamt, Hk.
destruct (LockStatus_eqb (status lock) ACTIVE
          && (expiresAt lock <? now clk))%bool.
2:{ now apply IH. }
unfold assign. rewrite !bind_modify.
set (expired := with_status EXPIRED lock).
set (c1 := set_locks (map_set lockId expired)
             (set_locks (map_set lockId expired) c)).
assert (H1 : index_invariant
               (set_stateRoot (getRoot (lockMerkleTree c)) c)).
{ split; [exact Hinv|]. split; [exact Hkeys|].
  split; [exact Hleaves|]. split; [reflexivity|exact Hact]. }
assert (Hc1 : index_invariant
                (set_locks (map_set lockId expired)
                   (set_locks (map_set lockId expired)
                      (set_stateRoot (getRoot (lockMerkleTree c)) c)))).
{ apply index_invariant_store; [|assumption..|discriminate].
  apply index_invariant_store; [|assumption..|discriminate].
  exact H1. }
destruct Hc1 as (Hinv1 & Hkeys1 & Hleaves1 & _ & Hact1).
destruct (@removeLeaf_hashes lockId (lockMerkleTree c) Hleaves) as (t & b & Ht & Hth & Hin).
unfold bind at 1. unfold tree_removeLeaf.
change (lockMerkleTree c1) with (lockMerkleTree c). rewrite Ht.
destruct (IH (cleaned + 1) (set_lockMerkleTree t c1))
  as (c' & n & Hrun & Hn & Hinv' & Hkeys' & Hleaves' & Hact' & Hroot'
      & Hsame); try assumption; try lia.
+ intros k' l' Hget' Hs. apply Hin.
  * exact (Hact1 k' l' Hget' Hs).
  * intros ->. unfold getLock in Hget'.
    cbn [state locks set_locks set_lockMerkleTree c1] in Hget'.
    rewrite map_get_set_eq in Hget'. injection Hget' as <-.
    discriminate.
+ exists c', n.
  split; [exact Hrun|]. split; [exact Hn|]. split; [exact Hinv'|].
  split; [exact Hkeys'|]. split; [exact Hleaves'|].
  split; [exact Hact'|]. split; [exact Hroot'|]. exact Hsame.
Qed.

Lemma cleanupExpiredLocks_maintains_the_index clk :
maintains index_invariant (cleanupExpiredLocks clk).
Proof.
intros c (Hinv & Hkeys & Hleaves & Hroot & Hact).
unfold cleanupExpiredLocks.
unfold bind at 1. unfold get at 1. cbv beta iota.
destruct (@cleanup_loop_index clk (locks (state c)) 0 c)
as (c' & n & Hrun & Hn & Hinv' & Hkeys' & Hleaves' & Hact' & Hroot' & _);
try assumption; try lia; try (intros _; exact Hroot).
{ destruct Hinv as [_ Hall]. rewrite Forall_forall in *.
intros entry Hin. destruct (Hall _ Hin). auto. }
unfold bind at 1. rewrite Hrun.
destruct (0 <? n) eqn:E.
- rewrite bind_update_stateRoot. cbn [bind ret fst].
split; [exact Hinv'|]. split; [exact Hkeys'|].
split; [exact Hleaves'|]. split; [reflexivity|exact Hact'].
- apply Z.ltb_ge in E. cbn [bind ret fst].
split; [exact Hinv'|]. split; [exact Hkeys'|].
split; [exact Hleaves'|]. split; [apply Hroot'; lia|exact Hact'].
Qed.

Lemma step_maintains_the_index clk rq c :
index_invariant c -> index_invariant (fst (step clk rq c)).
Proof.
intro Hc. destruct rq as [r|r|r|lockId sig|]; simpl.
- pose proof (@createLock_maintains_the_index clk r c Hc) as H.
now destruct (createLock clk r c).
- pose proof (@signLock_maintains_the_index clk r c Hc) as H.
now destruct (signLock clk r c).
- pose proof (@verifyFulfillment_maintains_the_index clk r c Hc) as H.
now destruct (verifyFulfillment clk r c).
- pose proof (@cancelLock_maintains_the_index clk lockId sig c Hc) as H.
now destruct (cancelLock clk lockId sig c).
- pose proof (@cleanupExpiredLocks_maintains_the_index clk c Hc) as H.
now destruct (cleanupExpiredLocks clk c).
Qed.

Lemma reachable_index_invariant c : reachable c -> index_invariant c.
Proof.
induction 1 as [cfg privKey random clk c _ _ Hnew|clk rq c _ IH].
- unfold CCM_new in Hnew.
destruct (privateKeyToAddress _); [|discriminate].
injection Hnew as <-.
split; [split; simpl; constructor|].
split; [constructor|]. split; [constructor|].
split; [reflexivity|]. intros k lock. discriminate.
- now apply step_maintains_the_index.
Qed.
End Index.

(** X13.  In every instance that calls can produce, the state root is the
    root of the Merkle index: no call, returning or throwing, leaves the
    two apart. *)
Theorem stateRoot_is_the_root_of_the_index {curve : Secp256k1} (c : CCM) :
  reachable c ->
  getStateRoot c = getRoot (lockMerkleTree c).
Proof.
  intro H. destruct (reachable_index_invariant H) as (_ & _ & _ & Hroot & _).
  exact Hroot.
Qed.

Lemma stateRoot_is_the_root_of_the_index_witness :
  getStateRoot Runs.active = getRoot (lockMerkleTree Runs.active).
Proof.
  exact (@stateRoot_is_the_root_of_the_index Toy.curve Runs.active
           reachable_active).
Defined.

(** X14.  In every instance that calls can produce, every active lock is
    a leaf of the Merkle index, and the leaves and the keys of the lock
    map are 32-byte hashes. *)
Theorem active_locks_are_leaves {curve : Secp256k1} (c : CCM) :
  reachable c ->
  (forall k lock, getLock k c = Some lock -> status lock = ACTIVE ->
                  In k (leaves (lockMerkleTree c)))
  /\ hashes (leaves (lockMerkleTree c))
  /\ hashes (map_keys (locks (state c))).
Proof.
  intro H.
  destruct (reachable_index_invariant H) as (_ & Hkeys & Hleaves & _ & Hact).
  split; [exact Hact|]. split; [exact Hleaves|].
  unfold hashes, map_keys. apply Forall_map. exact Hkeys.
Qed.

Lemma active_locks_are_leaves_witness :
  (forall k lock, getLock k Runs.active = Some lock ->
                  status lock = ACTIVE ->
                  In k (leaves (lockMerkleTree Runs.active)))
  /\ hashes (leaves (lockMerkleTree Runs.active))
  /\ hashes (map_keys (locks (state Runs.active))).
Proof.
  exact (@active_locks_are_leaves Toy.curve Runs.active reachable_active).
Defined.
(** ** Signing and recovering *)



Lemma is_hex_digit_not_space (c : ascii) :
  is_hex_digit c = true -> JS.is_space c = false.
Proof.
  destruct c as [[|] [|] [|] [|] [|] [|] [|] [|]]; vm_compute; congruence.
Qed.

Lemma trimStart_hex (s : string) :
  all_hex s = true -> JS.trimStart s = s.
Proof.
  destruct s as [|c s]; [reflexivity|]. simpl. intro H.
  apply andb_true_iff in H. destruct H as [H _].
  now rewrite (is_hex_digit_not_space _ H).
Qed.










(** ** What the client is asked to sign *)

(** X16.  The typed data that [createLock] returns for signing hashes to
    the very hash from which [signLock] later recovers the signer: the
    domain and the message of the response are those that [signLock]
    rebuilds from the stored lock. *)
Theorem createLock_asks_for_what_signLock_checks
        (clk : Clock) (rq : CreateLockRequest) (c c' : CCM)
        (response : CreateLockResponse) :
  createLock clk rq c = (c', Ok response) ->
  hashTypedData (td_domain (typedDataToSign response))
                (td_message (typedDataToSign response))
  = approvalHash (cl_lock response)
  /\ getLock (msg_lockId (td_message (typedDataToSign response))) c'
     = Some (cl_lock response).
Proof.
  intro H. unfold createLock in H.
  apply bind_lift_Ok in H. destruct H as (amt & Hamt & H).
  apply bind_readonly_Ok in H; [|apply readonly_validateAsset].
  destruct H as ([] & _ & H).
  apply bind_readonly_Ok in H; [|apply readonly_validateAmount].
  destruct H as ([] & _ & H).
  apply bind_readonly_Ok in H; [|apply readonly_validateDuration].
  destruct H as ([] & _ & H).
  apply bind_readonly_Ok in H; [|apply readonly_validateRiskLimits].
  destruct H as ([] & _ & H).
  apply bind_readonly_Ok in H; [|apply readonly_validateAsset].
  destruct H as ([] & _ & H).
  apply bind_Ok in H. destruct H as (c1 & nonce' & Hnonce & H).
  apply bind_lift_Ok in H. destruct H as (lockId & Hid & H).
  rewrite bind_modify in H.
  apply bind_lift_Ok in H. destruct H as (assetHash & Ha & H).
  apply bind_lift_Ok in H. destruct H as (fulfillmentHash & Hf & H).
  unfold ret in H. injection H as <- <-.
  cbn [typedDataToSign td_domain td_message cl_lock msg_lockId].
  split.
  - unfold approvalHash.
    cbn [asset fulfillmentCondition id owner amount nonce expiresAt].
    now rewrite Ha, Hf.
  - unfold getLock. cbn [state locks set_locks]. apply map_get_set_eq.
Qed.

Lemma createLock_asks_for_what_signLock_checks_witness :
  exists response,
    snd Runs.created = Ok response
    /\ hashTypedData (td_domain (typedDataToSign response))
                     (td_message (typedDataToSign response))
       = Some Runs.approval.
Proof.
  destruct (snd Runs.created) as [response|e] eqn:E; [|discriminate E].
  exists response. split; [reflexivity|].
  assert (H : createLock Scenario.t0 Runs.scenario Runs.fresh
              = (Runs.pending, Ok response)).
  { rewrite <- E. vm_compute. reflexivity. }
  destruct (@createLock_asks_for_what_signLock_checks Scenario.t0
              Runs.scenario Runs.fresh Runs.pending response H) as [Hh _].
  rewrite Hh. injection E as <-. vm_compute. reflexivity.
Defined.

(** ** Cancellation *)

Section Cancelling.
Context {curve : Secp256k1}.

(** X17.  A pending or active lock is cancelled by its owner: when the
  signature recovers to the owner from the cancellation message,
  [cancelLock] returns an attestation of the operation [CANCEL] signed
  by the enclave over that same message, the lock is [CANCELLED], the
  state root is the root of the index, and every other leaf of the index
  is still a leaf. *)
Theorem cancelLock_by_the_owner
      (clk : Clock) (lockId : Hash) (sig : Signature) (c : CCM)
      (lock : ResourceLock) (h : Hash) (signer : Address) :
getLock lockId c = Some lock ->
status lock = ACTIVE \/ status lock = PENDING ->
cancelMessage lockId = Some h ->
recoverAddress h sig = Some signer ->
same_address signer (owner lock) = true ->
is_hash lockId = true ->
wt_enclave c ->
exists c' attestation,
  cancelLock clk lockId sig c = (c', Ok attestation)
  /\ statusOf lockId c' = Some CANCELLED
  /\ operation attestation = "CANCEL"
  /\ app_enclaveId attestation = enclaveId (state c)
  /\ signHash h (privateKey (state c)) = Some (app_signature attestation)
  /\ stateRoot (state c') = getRoot (lockMerkleTree c')
  /\ (forall k, k <> lockId -> In k (leaves (lockMerkleTree c)) ->
                In k (leaves (lockMerkleTree c')))
  /\ (forall k, k <> lockId -> getLock k c' = getLock k c).
Proof.
intros Hget Hst Hmsg Hrec Hsame Hk (Heid & Hsigns & Hleaves).
pose proof (keccak256_abiEncode_Some_is_hash _ _ Hmsg) as Hh.
destruct (Hsigns _ Hh) as (ccmSig & HccmSig).
destruct (keccak256_abiEncode_defined
            ["bytes32"; "uint8"]
            [VStr lockId; VStr (LockStatus_name CANCELLED)])
  as (dataHash' & Hdata & _).
{ cbn [pieces_ok hd tl]. apply andb_true_intro. split.
  - now apply piece_ok_bytes32.
  - reflexivity. }
destruct (@removeLeaf_hashes lockId (lockMerkleTree c) Hleaves)
  as (t & b & Ht & _ & Hin).
set (cancelled := with_status CANCELLED lock).
set (c1 := set_locks (map_set lockId cancelled)
             (set_locks (map_set lockId cancelled) c)).
set (c2 := set_lockMerkleTree t c1).
set (c3 := set_stateRoot (getRoot (lockMerkleTree c2)) c2).
exists c3, {| app_enclaveId := enclaveId (state c);
              operation := "CANCEL";
              app_timestamp := now clk;
              dataHash := dataHash';
              app_signature := ccmSig |}.
split; [|split; [|split; [|split; [|split; [|split; [|split]]]]]].
- unfold getLock in Hget. unfold cancelLock.
  apply step_get. rewrite Hget.
  rewrite bind_when_false
    by (destruct Hst as [-> | ->]; reflexivity).
  apply (step_lift _ _ Hmsg).
  apply (step_lift _ _ Hrec).
  rewrite bind_when_false by (now rewrite Hsame).
  unfold assign. rewrite !bind_modify.
  unfold bind at 1. unfold tree_removeLeaf.
  change (lockMerkleTree
            (set_locks (map_set lockId (with_status CANCELLED lock))
               (set_locks (map_set lockId (with_status CANCELLED lock))
                  c)))
    with (lockMerkleTree c).
  rewrite Ht. rewrite bind_update_stateRoot.
  apply (step_lift _ _ Hdata).
  apply (step_lift _ _ HccmSig).
  reflexivity.
- unfold statusOf, getLock. cbn [state locks c3 c2 c1 set_stateRoot
    set_lockMerkleTree set_locks].
  now rewrite map_get_set_eq.
- reflexivity.
- reflexivity.
- exact HccmSig.
- reflexivity.
- intros k Hne Hink. apply Hin; assumption.
- intros k Hne. unfold getLock. cbn [state locks c3 c2 c1 set_stateRoot
    set_lockMerkleTree set_locks].
  rewrite !map_get_set_neq by congruence. reflexivity.
Qed.
End Cancelling.

Lemma cancelLock_by_the_owner_witness :
  exists c' attestation,
    @cancelLock Toy.curve Runs.at_expiry Runs.lockId Cases.cancel_sig
      Runs.active = (c', Ok attestation)
    /\ statusOf Runs.lockId c' = Some CANCELLED
    /\ operation attestation = "CANCEL"
    /\ app_enclaveId attestation = enclaveId (state Runs.active)
    /\ @signHash Toy.curve Cases.cancel_message
         (privateKey (state Runs.active))
       = Some (app_signature attestation)
    /\ stateRoot (state c') = getRoot (lockMerkleTree c')
    /\ (forall k, k <> Runs.lockId ->
                  In k (leaves (lockMerkleTree Runs.active)) ->
                  In k (leaves (lockMerkleTree c')))
    /\ (forall k, k <> Runs.lockId ->
                  getLock k c' = getLock k Runs.active).
Proof.
  apply (@cancelLock_by_the_owner Toy.curve Runs.at_expiry Runs.lockId
           Cases.cancel_sig Runs.active Runs.activeLock Cases.cancel_message
           Scenario.user).
  - vm_compute; reflexivity.
  - left; reflexivity.
  - vm_compute; reflexivity.
  - vm_compute; reflexivity.
  - vm_compute; reflexivity.
  - vm_compute; reflexivity.
  - exact wt_enclave_active.
Defined.

(* ------------------------------------------------------------------------ *)
(** ** The daily volume only grows *)
(* ------------------------------------------------------------------------ *)

Section Refusals.
Context {curve : Secp256k1}.

(** [signLock] either throws with the instance as it was (the lock is
    missing or not pending, a hash or the recovery throws, the signer is
    not the owner), or the signer is accepted and the call continues as
    [signLock_commit]. *)
Lemma signLock_refuses_or_commits clk rq c :
  (exists e, signLock clk rq c = (c, Throw e))
  \/ exists lock h signer,
       getLock (sl_lockId rq) c = Some lock
       /\ status lock = PENDING
       /\ approvalHash lock = Some h
       /\ recoverAddress h (sl_signature rq) = Some signer
       /\ same_address signer (owner lock) = true
       /\ signLock clk rq c = signLock_commit clk rq lock c.
Proof.
  destruct (getLock (sl_lockId rq) c) as [lock|] eqn:Hget.
  2:{ left. exists LockNotFound. unfold getLock in Hget. unfold signLock.
      unfold bind at 1. unfold get at 1. cbv beta iota.
      now rewrite Hget. }
  destruct (LockStatus_eqb (status lock) PENDING) eqn:Hst.
  2:{ left. exists (InvalidLockStatus (status lock)).
      unfold getLock in Hget. unfold signLock.
      unfold bind at 1. unfold get at 1. cbv beta iota.
      rewrite Hget. rewrite bind_when_true by (now rewrite Hst).
      reflexivity. }
  assert (Hpending : status lock = PENDING)
    by (destruct (status lock); (discriminate || reflexivity)).
  assert (Hprefix :
    signLock clk rq c
    = (assetHash <- lift (hashAsset (asset lock)) ;;
       fulfillmentHash <-
         lift (hashFulfillmentCondition (fulfillmentCondition lock)) ;;
       typedDataHash <-
         lift (hashTypedData
                 {| name := name CCM_DOMAIN;
                    version := version CCM_DOMAIN;
                    domain_chainId := chainId (asset lock);
                    verifyingContract := verifyingContract CCM_DOMAIN |}
                 {| msg_lockId := id lock;
                    msg_owner := owner lock;
                    msg_asset := assetHash;
                    msg_amount := amount lock;
                    msg_nonce := nonce lock;
                    msg_expiresAt := expiresAt lock;
                    msg_fulfillmentHash := fulfillmentHash |}) ;;
       recoveredSigner <-
         lift (recoverAddress typedDataHash (sl_signature rq)) ;;
       when (negb (same_address recoveredSigner (owner lock)))
            InvalidSignature ;;;
       signLock_commit clk rq lock) c).
  { unfold getLock in Hget. unfold signLock.
    unfold bind at 1. unfold get at 1. cbv beta iota.
    rewrite Hget. rewrite bind_when_false by (now rewrite Hst).
    reflexivity. }
  destruct (approvalHash lock) as [h|] eqn:Hh.
  - destruct (recoverAddress h (sl_signature rq)) as [signer|] eqn:Hrec.
    + destruct (same_address signer (owner lock)) eqn:Hsame.
      * right. exists lock, h, signer. repeat split; auto.
        now apply signLock_accepts with h signer.
      * left. exists InvalidSignature. rewrite Hprefix.
        unfold approvalHash in Hh.
        destruct (hashAsset (asset lock)) eqn:Ha; [|discriminate].
        cbn [lift]. rewrite bind_ret.
        destruct (hashFulfillmentCondition (fulfillmentCondition lock))
          eqn:Hf; [|discriminate].
        cbn [lift]. rewrite bind_ret.
        rewrite (bind_lift_Some _ _ Hh), (bind_lift_Some _ _ Hrec).
        rewrite bind_when_true by (now rewrite Hsame). reflexivity.
    + left. exists Raised. rewrite Hprefix. unfold approvalHash in Hh.
      destruct (hashAsset (asset lock)) eqn:Ha; [|reflexivity].
      cbn [lift]. rewrite bind_ret.
      destruct (hashFulfillmentCondition (fulfillmentCondition lock))
        eqn:Hf; [|reflexivity].
      cbn [lift]. rewrite bind_ret.
      rewrite (bind_lift_Some _ _ Hh).
      now rewrite (bind_lift_None _ _ Hrec).
  - left. exists Raised. rewrite Hprefix. unfold approvalHash in Hh.
    destruct (hashAsset (asset lock)) eqn:Ha; [|reflexivity].
    cbn [lift]. rewrite bind_ret.
    destruct (hashFulfillmentCondition (fulfillmentCondition lock))
      eqn:Hf; [|reflexivity].
    cbn [lift]. rewrite bind_ret.
    now rewrite (bind_lift_None _ _ Hh).
Qed.

(** In an instance that calls can produce, [signLock] ends in one of two
    ways.  Either the lock is activated, and then the amount of the lock
    has been added to the volume of the current day and to no other,
    whether the commitment is returned or its hash throws.  Or the call
    throws with the lock not activated and the whole record of volumes as
    it was. *)
Lemma signLock_books_the_amount clk r c :
  reachable c ->
  let out := signLock clk r c in
  (exists lock,
      getLock (sl_lockId r) c = Some lock
      /\ status lock = PENDING
      /\ 0 < amount lock
      /\ statusOf (sl_lockId r) (fst out) = Some ACTIVE
      /\ volume (today clk) (fst out)
         = volume (today clk) c + amount lock
      /\ forall day, day <> today clk ->
                     volume day (fst out) = volume day c)
  \/ (dailyVolume (fst out) = dailyVolume c
      /\ statusOf (sl_lockId r) (fst out) = statusOf (sl_lockId r) c
      /\ exists e, snd out = Throw e).
Proof.
  intros Hreach out. subst out.
  pose proof (reachable_index_invariant Hreach) as Hindex.
  destruct (signLock_refuses_or_commits clk r c)
    as [[e He]
       |(lock & h & signer & Hget & Hst & _ & _ & _ & Hcommit)].
  { right. rewrite He. simpl. split; [reflexivity|].
    split; [reflexivity|now exists e]. }
  destruct (index_invariant_key _ Hindex Hget) as (Hid & Hamt & Hk).
  rewrite Hcommit.
  pose proof (signLock_commit_cases clk r lock c) as Hcases.
  cbv zeta in Hcases.
  destruct Hcases
    as [(Hthrow & Hdv & _ & Hlock)
       |[(ccmSig & t & _ & _ & Hadd & _)
        |(ccmSig & t & _ & Hdv & _ & _ & _ & Hlock)]].
  - right. split; [exact Hdv|]. split; [|now exists Raised].
    unfold statusOf. rewrite Hlock, Hget. simpl. reflexivity.
  - exfalso.
    destruct Hindex as (_ & _ & Hleaves & _).
    assert (Hidk : is_hash (id lock) = true) by (now rewrite Hid).
    destruct (@addLeaf_defined (id lock) (lockMerkleTree c) Hleaves Hidk)
      as (t' & Ht' & _).
    rewrite Ht' in Hadd. discriminate.
  - left. exists lock.
    split; [exact Hget|]. split; [exact Hst|]. split; [exact Hamt|].
    split; [unfold statusOf; now rewrite Hlock|]. split.
    + unfold volume. rewrite Hdv, map_get_set_eq.
      now rewrite or_bigint_Some.
    + intros day Hne. unfold volume. rewrite Hdv.
      rewrite map_get_set_neq by congruence. reflexivity.
Qed.
End Refusals.

(** C10.  In every instance that calls can produce from a fresh enclave,
    no call lowers the volume recorded for any day.  [createLock],
    [verifyFulfillment], [cancelLock] and [cleanupExpiredLocks] leave the
    whole record as it is.  [signLock] changes it exactly when it
    activates the lock: then the amount of that lock (which is positive)
    has been added to the volume of the current day and to no other; in
    particular this is so whenever [signLock] returns, and whenever a
    pending lock is found active after the call.  When [signLock] does
    not activate the lock it throws and leaves the record as it is.
    Nothing is ever subtracted when a lock is cancelled or expires. *)
Theorem dailyVolume_only_grows {curve : Secp256k1}
        (clk : Clock) (rq : request) (c : CCM) :
  reachable c ->
  let c' := fst (step clk rq c) in
  (forall day, volume day c <= volume day c')
  /\ match rq with
     | SignLock r =>
         ((exists lock,
              getLock (sl_lockId r) c = Some lock
              /\ status lock = PENDING
              /\ statusOf (sl_lockId r) c' = Some ACTIVE
              /\ volume (today clk) c' = volume (today clk) c + amount lock
              /\ forall day, day <> today clk -> volume day c' = volume day c)
          \/ (dailyVolume c' = dailyVolume c
              /\ statusOf (sl_lockId r) c' = statusOf (sl_lockId r) c
              /\ exists e, snd (step clk rq c) = Signed (Throw e)))
         /\ (forall response,
                snd (step clk rq c) = Signed (Ok response) ->
                exists lock,
                  getLock (sl_lockId r) c = Some lock
                  /\ status lock = PENDING
                  /\ 0 < amount lock
                  /\ statusOf (sl_lockId r) c' = Some ACTIVE
                  /\ volume (today clk) c'
                     = volume (today clk) c + amount lock)
         /\ (forall lock,
                getLock (sl_lockId r) c = Some lock ->
                status lock = PENDING ->
                statusOf (sl_lockId r) c' = Some ACTIVE ->
                0 < amount lock
                /\ volume (today clk) c'
                   = volume (today clk) c + amount lock
                /\ forall day, day <> today clk ->
                               volume day c' = volume day c)
     | _ => dailyVolume c' = dailyVolume c
     end.
Proof.
  intros Hreach c'. subst c'.
  assert (Hframe : forall c1, dailyVolume c1 = dailyVolume c ->
                     forall day, volume day c <= volume day c1).
  { intros c1 E day. unfold volume. rewrite E. lia. }
  destruct rq as [r|r|r|lockId sig|]; simpl.
  - pose proof (@createLock_keeps_the_volume (dailyVolume c) clk r c eq_refl)
      as H.
    destruct (createLock clk r c) as [c1 x]. simpl in *. auto.
  - pose proof (signLock_books_the_amount clk r Hreach) as H.
    cbv zeta in H.
    destruct (signLock clk r c) as [c1 x] eqn:Hrun. simpl in *.
    destruct H
      as [(lock & Hget & Hst & Hamt & Hact & Htoday & Hother)
         |(Hdv & Hstatus & e & He)].
    + split; [|split; [|split]].
      * intro day. destruct (String.eqb day (today clk)) eqn:E.
        -- apply String.eqb_eq in E. subst day. lia.
        -- apply String.eqb_neq in E. rewrite (Hother day E). lia.
      * left. exists lock. auto.
      * intros response _. exists lock. auto.
      * intros lock' Hget' _ _. rewrite Hget in Hget'.
        injection Hget' as <-. auto.
    + split; [now apply Hframe|]. split; [|split].
      * right. split; [exact Hdv|]. split; [exact Hstatus|].
        exists e. now rewrite He.
      * intros response Hok. rewrite He in Hok. discriminate.
      * intros lock Hget Hst Hact. exfalso.
        rewrite Hstatus in Hact. unfold statusOf in Hact.
        rewrite Hget in Hact. simpl in Hact. congruence.
  - pose proof (@verifyFulfillment_keeps_the_volume curve (dailyVolume c)
                  clk r c eq_refl) as H.
    destruct (verifyFulfillment clk r c) as [c1 x]. simpl in *. auto.
  - pose proof (@cancelLock_keeps_the_volume curve (dailyVolume c)
                  clk lockId sig c eq_refl) as H.
    destruct (cancelLock clk lockId sig c) as [c1 x]. simpl in *. auto.
  - pose proof (@cleanupExpiredLocks_keeps_the_volume (dailyVolume c)
                  clk c eq_refl) as H.
    destruct (cleanupExpiredLocks clk c) as [c1 x]. simpl in *. auto.
Qed.

Lemma dailyVolume_only_grows_witness :
  let rq := SignLock {| sl_lockId := Runs.lockId;
                        sl_signature := Runs.userSig |} in
  let c' := fst (@step Toy.curve Scenario.t0 rq Runs.pending) in
  (forall day, volume day Runs.pending <= volume day c')
  /\ 0 < amount Runs.pendingLock
  /\ volume (today Scenario.t0) c'
     = volume (today Scenario.t0) Runs.pending + amount Runs.pendingLock
  /\ forall day, day <> today Scenario.t0 ->
                 volume day c' = volume day Runs.pending.
Proof.
  intros rq c'.
  destruct (@dailyVolume_only_grows Toy.curve Scenario.t0 rq Runs.pending
              reachable_pending) as [Hmono (_ & _ & Hactive)].
  split; [exact Hmono|].
  apply (Hactive Runs.pendingLock); vm_compute; reflexivity.
Defined.

(** The volume of the scenario: nothing before the lock is signed, its
    amount afterwards, and still its amount once the lock has been
    cancelled by its owner or has expired in the sweep. *)
Example volume_after_activation :
  volume "2023-11-14" Runs.pending = 0
  /\ volume "2023-11-14" Runs.active = 1000000000
  /\ volume "2023-11-14"
       (fst (@cancelLock Toy.curve Runs.at_expiry Runs.lockId
               Cases.cancel_sig Runs.active)) = 1000000000
  /\ statusOf Runs.lockId
       (fst (@cancelLock Toy.curve Runs.at_expiry Runs.lockId
               Cases.cancel_sig Runs.active)) = Some CANCELLED
  /\ volume "2023-11-14"
       (fst (@cleanupExpiredLocks Runs.past_expiry Runs.active))
     = 1000000000
  /\ statusOf Runs.lockId
       (fst (@cleanupExpiredLocks Runs.past_expiry Runs.active))
     = Some EXPIRED.
Proof. repeat split; vm_compute; reflexivity. Qed.

(* ------------------------------------------------------------------------ *)
(** ** The life of a lock *)
(* ------------------------------------------------------------------------ *)

Lemma transition_refl (st : LockStatus) : transition st st = true.
Proof. now destruct st. Qed.

Section Lifecycle.
Context {curve : Secp256k1}.
Variables (k : Hash) (lock : ResourceLock).

Lemma follows_same c : getLock k c = Some lock -> follows k lock c.
Proof.
intro H. exists lock. split; [exact H|]. split; [reflexivity|].
apply transition_refl.
Qed.

Lemma follows_set k' l' c :
(k' = k -> terms l' = terms lock
           /\ transition (status lock) (status l') = true) ->
follows k lock c -> follows k lock (set_locks (map_set k' l') c).
Proof.
intros Hl' (l & Hl & Hterms & Hmove). unfold follows, getLock in *.
cbn [state locks set_locks].
destruct (String.eqb k' k) eqn:E.
- apply String.eqb_eq in E. destruct (Hl' E) as [Ht Hs]. subst k'.
  exists l'. now rewrite map_get_set_eq.
- apply String.eqb_neq in E. exists l.
  now rewrite map_get_set_neq.
Qed.

Ltac other_fields :=
intros; match goal with H : follows _ _ _ |- _ => exact H end.

Lemma signLock_follows clk r c :
lock_invariant c -> getLock k c = Some lock ->
follows k lock (fst (signLock clk r c)).
Proof.
intros Hinv Hget.
destruct (signLock_refuses_or_commits clk r c)
  as [(e & E)|(l & h & signer & Hl & Hst & _ & _ & _ & E)];
  rewrite E; [now apply follows_same|].
destruct (lock_invariant_stored _ Hinv Hl) as [Hid _].
assert (Hm : maintains (follows k lock) (signLock_commit clk r l)).
{ unfold signLock_commit.
  maintains_steps; try other_fields;
    intros c0 Hc0; apply follows_set; try exact Hc0;
    cbn [id with_status with_ccmSignature with_userSignature];
    rewrite ?Hid; intro Hk; rewrite Hk in Hl; rewrite Hl in Hget;
    injection Hget as ->;
    (split; [reflexivity|]);
    cbn [status with_status with_ccmSignature with_userSignature];
    rewrite ?Hst; reflexivity. }
exact (Hm c (follows_same c Hget)).
Qed.

Lemma getLock_status_written k' l st c :
id l = k' ->
getLock k' (status_written k' l st c) = Some (with_status st l).
Proof.
intros Hid. unfold getLock, status_written, assign_status.
cbn [state locks set_locks]. rewrite Hid. now rewrite map_get_set_eq.
Qed.

Lemma verifyFulfillment_follows clk r c :
lock_invariant c -> getLock k c = Some lock ->
follows k lock (fst (verifyFulfillment clk r c)).
Proof.
intros Hinv Hget.
assert (Hidle : (forall l, getLock (fl_lockId r) c = Some l ->
                           status l <> ACTIVE) ->
                follows k lock (fst (verifyFulfillment clk r c))).
{ intro H. rewrite (verifyFulfillment_needs_an_active_lock clk r c H).
  now apply follows_same. }
destruct (getLock (fl_lockId r) c) as [l|] eqn:Hl;
  [|apply Hidle; discriminate].
destruct (LockStatus_eqb (status l) ACTIVE) eqn:Hact.
- assert (Hst : status l = ACTIVE)
    by (destruct (status l); (discriminate || reflexivity)).
  destruct (lock_invariant_stored _ Hinv Hl) as [Hid _].
  assert (Hwritten : forall st,
             transition ACTIVE st = true ->
             follows k lock (status_written (fl_lockId r) l st c)).
  { intros st Hmove. destruct (String.eqb k (fl_lockId r)) eqn:E.
    - apply String.eqb_eq in E. subst k. rewrite Hl in Hget.
      injection Hget as ->. exists (with_status st lock).
      rewrite getLock_status_written by exact Hid.
      split; [reflexivity|]. split; [reflexivity|].
      now rewrite Hst.
    - apply String.eqb_neq in E. exists lock.
      rewrite getLock_status_written_other by assumption.
      split; [exact Hget|]. split; [reflexivity|].
      apply transition_refl. }
  destruct (verifyFulfillment_cases clk r c Hl Hst)
    as [[_ E]|[_ [(e & E & _)|E]]]; rewrite E; simpl.
  + now apply Hwritten.
  + now apply follows_same.
  + now apply Hwritten.
- apply Hidle. intros l0 [= <-] E. now rewrite E in Hact.
Qed.

Lemma cancelLock_follows clk lockId sig c :
getLock k c = Some lock ->
follows k lock (fst (cancelLock clk lockId sig c)).
Proof.
intros Hget. pose proof (follows_same c Hget) as Hc.
unfold cancelLock. unfold bind at 1. unfold get at 1. cbv beta iota.
destruct (map_get lockId (locks (state c))) as [l|] eqn:Hl;
  [|exact Hc].
destruct (negb (LockStatus_eqb (status l) ACTIVE)
          && negb (LockStatus_eqb (status l) PENDING))%bool eqn:Hst.
- rewrite bind_when_true by reflexivity. exact Hc.
- rewrite bind_when_false by reflexivity.
  match goal with
  | |- follows k lock (fst (?m c)) =>
      assert (Hm : maintains (follows k lock) m); [|exact (Hm c Hc)]
  end.
  maintains_steps; try other_fields;
    intros c0 Hc0; apply follows_set; try exact Hc0;
    intro Hk; rewrite Hk in Hl; unfold getLock in Hget;
    rewrite Hl in Hget; injection Hget as ->; (split; [reflexivity|]);
    cbn [status with_status]; destruct (status lock);
    (discriminate || reflexivity).
Qed.

Lemma cleanup_loop_follows clk entries cleaned :
Forall (fun entry => fst entry = k -> snd entry = lock) entries ->
maintains (follows k lock) (cleanup_loop clk entries cleaned).
Proof.
intro Hall. revert cleaned.
induction Hall as [|[lockId l] rest Hentry _ IH]; intro cleaned;
  cbn [cleanup_loop].
- maintains_steps.
- cbn [fst snd] in Hentry.
  destruct (LockStatus_eqb (status l) ACTIVE) eqn:Hst; [|apply IH].
  destruct (expiresAt l <? now clk); [|apply IH]. cbn [andb].
  maintains_steps; try other_fields; try apply IH;
    intros c0 Hc0; apply follows_set; try exact Hc0;
    intro E; rewrite (Hentry E) in *; (split; [reflexivity|]);
    cbn [status with_status]; destruct (status lock);
    (discriminate || reflexivity).
Qed.

Lemma cleanupExpiredLocks_follows clk c :
lock_invariant c -> getLock k c = Some lock ->
follows k lock (fst (cleanupExpiredLocks clk c)).
Proof.
intros [Hnd _] Hget. pose proof (follows_same c Hget) as Hc.
unfold cleanupExpiredLocks.
unfold bind at 1. unfold get at 1. cbv beta iota.
match goal with
| |- follows k lock (fst (?m c)) =>
    assert (Hm : maintains (follows k lock) m); [|exact (Hm c Hc)]
end.
apply maintains_bind.
- apply cleanup_loop_follows. apply Forall_forall.
  intros [k' l'] Hin E. cbn [fst snd] in *. subst k'.
  apply (In_map_get _ _ _ Hnd) in Hin. unfold getLock in Hget.
  congruence.
- intro n. maintains_steps; other_fields.
Qed.

(** [createLock] writes one lock, pending and dated by the clock, under
  the identifier that [generateLockId] gave it: a lock stored before is
  still there, or that identifier is its key. *)
Lemma createLock_follows clk r c :
getLock k c = Some lock ->
getLock k (fst (createLock clk r c)) = Some lock
\/ exists l, getLock k (fst (createLock clk r c)) = Some l
             /\ id l = k
             /\ status l = PENDING
             /\ lockedAt l = now clk
             /\ owner l = req_owner r.
Proof.
intro Hget.
set (J := fun c0 : CCM =>
            getLock k c0 = Some lock
            \/ exists l, getLock k c0 = Some l /\ id l = k
                         /\ status l = PENDING /\ lockedAt l = now clk
                         /\ owner l = req_owner r).
assert (Hm : maintains J (createLock clk r)).
{ unfold createLock, getNextNonce.
  maintains_steps; try (intros; assumption).
  intros c0 Hc0. unfold J, getLock in *. cbn [state locks set_locks].
  match goal with
  | |- context [map_set ?k' ?l'] =>
      destruct (String.eqb k' k) eqn:E;
        [apply String.eqb_eq in E; right; exists l';
         rewrite E, map_get_set_eq; cbn [id status lockedAt owner];
         auto
        |apply String.eqb_neq in E;
         rewrite map_get_set_neq by exact E; exact Hc0]
  end. }
exact (Hm c (or_introl Hget)).
Qed.
End Lifecycle.

(** X18.  The life of a lock.  In every instance that calls can produce, a
    stored lock is never deleted and its terms never change: after
    [signLock], [verifyFulfillment], [cancelLock] or
    [cleanupExpiredLocks], returning or throwing, the lock under the same
    key has the same identifier, owner, asset, amount, times, nonce and
    fulfilment condition, and its status is the one before or one that
    follows it: a pending lock may become active or cancelled, an active
    lock fulfilled, expired or cancelled, and a fulfilled, expired or
    cancelled lock stays as it is.  After [createLock] the lock is as it
    was, unless the key is the identifier of the lock just created. *)
Theorem locks_follow_their_lifecycle {curve : Secp256k1}
        (clk : Clock) (rq : request) (c : CCM) (k : Hash)
        (lock : ResourceLock) :
  reachable c ->
  getLock k c = Some lock ->
  let c' := fst (step clk rq c) in
  match rq with
  | CreateLock r =>
      getLock k c' = Some lock
      \/ exists l, getLock k c' = Some l /\ id l = k /\ status l = PENDING
                   /\ lockedAt l = now clk /\ owner l = req_owner r
  | _ =>
      exists l, getLock k c' = Some l
                /\ terms l = terms lock
                /\ transition (status lock) (status l) = true
                /\ (status lock = FULFILLED \/ status lock = EXPIRED
                    \/ status lock = CANCELLED -> status l = status lock)
  end.
Proof.
  intros Hreach Hget c'. subst c'. rewrite fst_step.
  pose proof (reachable_lock_invariant Hreach) as Hinv.
  assert (Hfinal : forall c0, follows k lock c0 ->
            exists l, getLock k c0 = Some l
                      /\ terms l = terms lock
                      /\ transition (status lock) (status l) = true
                      /\ (status lock = FULFILLED \/ status lock = EXPIRED
                          \/ status lock = CANCELLED ->
                          status l = status lock)).
  { intros c0 (l & Hl & Hterms & Hmove). exists l.
    repeat split; try assumption.
    intros [E|[E|E]]; rewrite E in *; destruct (status l);
      (discriminate || reflexivity). }
  destruct rq as [r|r|r|lockId sig|].
  - now apply createLock_follows.
  - apply Hfinal. now apply signLock_follows.
  - apply Hfinal. now apply verifyFulfillment_follows.
  - apply Hfinal. now apply cancelLock_follows.
  - apply Hfinal. now apply cleanupExpiredLocks_follows.
Qed.

Lemma locks_follow_their_lifecycle_witness :
  exists l,
    getLock Runs.lockId
      (fst (@step Toy.curve Runs.past_expiry CleanupExpiredLocks
              Runs.active)) = Some l
    /\ terms l = terms Runs.activeLock
    /\ transition (status Runs.activeLock) (status l) = true
    /\ (status Runs.activeLock = FULFILLED
        \/ status Runs.activeLock = EXPIRED
        \/ status Runs.activeLock = CANCELLED ->
        status l = status Runs.activeLock).
Proof.
  apply (@locks_follow_their_lifecycle Toy.curve Runs.past_expiry
           CleanupExpiredLocks Runs.active Runs.lockId Runs.activeLock
           reachable_active).
  vm_compute; reflexivity.
Defined.

(** ** The risk limits *)




(* ------------------------------------------------------------------------ *)
(** ** Signing has no expiry check; the expiry of fulfilment is strict *)
(* ------------------------------------------------------------------------ *)

(** The loop of the encoder only appends: what it was given stays in
    front. *)
Lemma abiEncode_from_prefix (a b : string) (types : list string)
      (values : list value) :
  abiEncode_from (a ++ b) types values
  = option_map (append a) (abiEncode_from b types values).
Proof.
  revert b values. induction types as [|type types IH]; intros b values.
  - reflexivity.
  - cbn [abiEncode_from].
    destruct (abiEncode_piece type (hd VUndef values)) as [piece|];
      [|reflexivity].
    rewrite append_assoc. apply IH.
Qed.

(** When the hash of an encoding that starts with a 32-byte hash is
    defined, so is the hash of the encoding of the other values. *)
Lemma keccak256_abiEncode_drop_word (first : Hash) (types : list string)
      (values : list value) (h : Hash) :
  is_hash first = true ->
  keccak256_abiEncode ("bytes32" :: types) (VStr first :: values) = Some h ->
  exists h', keccak256_abiEncode types values = Some h'
             /\ is_hash h' = true.
Proof.
  intros Hfirst H. unfold keccak256_abiEncode, abiEncode in *.
  cbn [abiEncode_from hd tl] in H.
  destruct (abiEncode_piece_static "bytes32" (VStr first) Hfirst)
    as (w & Hw & Hword).
  rewrite Hw in H.
  rewrite <- (append_empty_r w) in H.
  change ("0x" ++ w ++ "") with (("0x" ++ w) ++ "") in H.
  rewrite abiEncode_from_prefix in H.
  change "0x" with ("0x" ++ "") at 1.
  rewrite abiEncode_from_prefix.
  destruct (abiEncode_from "" types values) as [body|];
    [|discriminate].
  cbn [option_map] in *.
  unfold keccak256 in H.
  change (JS.replace_0x (("0x" ++ w) ++ body)) with (w ++ body) in H.
  destruct (JS.hexToBytes (w ++ body)) as [bs|] eqn:E; [|discriminate].
  apply hexToBytes_Some_even_hex in E.
  apply keccak256_defined.
  unfold is_word in Hword. apply andb_true_iff in Hword.
  destruct Hword as [Hlen Hhex]. apply Nat.eqb_eq in Hlen.
  unfold even_hex in *. apply andb_true_iff in E. destruct E as [Heven Hall].
  rewrite all_hex_append, Hhex in Hall. rewrite length_append, Hlen in Heven.
  cbn [andb] in Hall. rewrite Hall.
  rewrite Nat.even_add in Heven.
  change (Nat.even 64) with true in Heven.
  destruct (Nat.even (String.length body)); [reflexivity|discriminate].
Qed.

(** When the approval of a lock can be hashed, so can its attestation
    data: they encode the same fields of the lock, in the same order. *)
Lemma approvalHash_gives_lockDataHash (lock : ResourceLock) (h : Hash) :
  approvalHash lock = Some h ->
  exists assetHash fulfillmentHash lockDataHash,
    hashAsset (asset lock) = Some assetHash
    /\ hashFulfillmentCondition (fulfillmentCondition lock)
       = Some fulfillmentHash
    /\ keccak256_abiEncode
         ["bytes32"; "address"; "bytes32"; "uint256"; "uint256";
          "uint256"; "bytes32"]
         [ VStr (id lock); VStr (owner lock); VStr assetHash;
           VInt (amount lock); VInt (nonce lock); VInt (expiresAt lock);
           VStr fulfillmentHash ] = Some lockDataHash
    /\ is_hash lockDataHash = true.
Proof.
  unfold approvalHash. intro H.
  destruct (hashAsset (asset lock)) as [assetHash|]; [|discriminate].
  destruct (hashFulfillmentCondition (fulfillmentCondition lock))
    as [fulfillmentHash|]; [|discriminate].
  exists assetHash, fulfillmentHash.
  unfold hashTypedData in H.
  destruct (hashDomain _) as [domainSeparator|]; [|discriminate].
  destruct (hashLockApproval _) as [structHash|] eqn:Hs; [|discriminate].
  clear H. unfold hashLockApproval in Hs.
  destruct (hashType "LockApproval" LOCK_APPROVAL_TYPES) as [typeHash|]
    eqn:Ht; [|discriminate].
  assert (Hth : is_hash typeHash = true).
  { unfold hashType in Ht.
    destruct (map_get "LockApproval" LOCK_APPROVAL_TYPES); [|discriminate].
    injection Ht as <-. apply keccak256Bytes_is_hash. }
  cbn [msg_lockId msg_owner msg_asset msg_amount msg_nonce msg_expiresAt
       msg_fulfillmentHash] in Hs.
  destruct (keccak256_abiEncode_drop_word _ _ _ Hth Hs) as (h' & Hh' & Hhash).
  exists h'. auto.
Qed.

Section NoExpiryCheck.
Context {curve : Secp256k1}.

Lemma reachable_enclaveId c :
reachable c -> is_hash (enclaveId (state c)) = true.
Proof.
induction 1 as [cfg privKey random clk c _ Hlen Hnew|clk rq c _ IH].
- unfold CCM_new in Hnew.
  destruct (privateKeyToAddress _); [|discriminate].
  injection Hnew as <-. cbn [state enclaveId]. unfold generateId.
  destruct (bytesToHex_hex random) as [Hhex Hl].
  unfold is_hash, is_hex_bytes. rewrite startsWith_0x.
  change (JS.slice_from 2 ("0x" ++ JS.bytesToHex random))
    with (JS.bytesToHex random).
  change (String.length ("0x" ++ JS.bytesToHex random))
    with (S (S (String.length (JS.bytesToHex random)))).
  rewrite Hhex, Hl, Hlen. reflexivity.
- destruct (@step_keeps_the_enclave curve c clk rq c) as (E & _).
  + repeat split.
  + now rewrite E.
Qed.

Lemma generateCCMAttestation_of_lockDataHash clk lock c assetHash
    fulfillmentHash lockDataHash :
hashAsset (asset lock) = Some assetHash ->
hashFulfillmentCondition (fulfillmentCondition lock)
= Some fulfillmentHash ->
keccak256_abiEncode
  ["bytes32"; "address"; "bytes32"; "uint256"; "uint256"; "uint256";
   "bytes32"]
  [ VStr (id lock); VStr (owner lock); VStr assetHash;
    VInt (amount lock); VInt (nonce lock); VInt (expiresAt lock);
    VStr fulfillmentHash ] = Some lockDataHash ->
is_hash lockDataHash = true ->
is_hash (enclaveId (state c)) = true ->
is_uint256 (now clk) = true ->
signs (privateKey (state c)) ->
exists attestation,
  generateCCMAttestation clk lock c = (c, Ok attestation).
Proof.
intros Ha Hf Hl Hlh Heid Hnow Hsigns.
destruct (keccak256_abiEncode_defined
            ["bytes32"; "uint256"; "bytes32"]
            [ VStr (enclaveId (state c)); VInt (now clk);
              VStr lockDataHash ])
  as (commitmentHash' & Hc & Hch).
{ cbn [pieces_ok hd tl].
  apply andb_true_intro. split; [now apply piece_ok_bytes32|].
  apply andb_true_intro. split; [now apply piece_ok_uint256|].
  apply andb_true_intro. split; [now apply piece_ok_bytes32|reflexivity]. }
destruct (Hsigns _ Hch) as (sig & Hsig).
eexists. unfold generateCCMAttestation.
apply step_get.
apply (step_lift _ _ Ha).
apply (step_lift _ _ Hf).
apply (step_lift _ _ Hl).
apply (step_lift _ _ Hc).
apply (step_lift _ _ Hsig).
reflexivity.
Qed.

(** In an instance that calls can produce, once the signer is accepted the
  lock is activated and the commitment returned, whatever the clock
  says. *)
Lemma signLock_commit_returns clk rq lock c h :
reachable c ->
getLock (sl_lockId rq) c = Some lock ->
approvalHash lock = Some h ->
is_signature (sl_signature rq) = true ->
signs (privateKey (state c)) ->
is_uint256 (now clk) = true ->
exists c' response,
  signLock_commit clk rq lock c = (c', Ok response)
  /\ sl_status response = ACTIVE
  /\ statusOf (sl_lockId rq) c' = Some ACTIVE.
Proof.
intros Hreach Hget Hh Hsig Hsigns Hnow.
pose proof (reachable_index_invariant Hreach) as Hindex.
destruct (index_invariant_key _ Hindex Hget) as (Hid & _ & Hk).
destruct Hindex as (_ & _ & Hleaves & _).
pose proof (reachable_enclaveId Hreach) as Heid.
destruct (approvalHash_gives_lockDataHash _ Hh)
  as (assetHash & fulfillmentHash & lockDataHash & Ha & Hf & Hl & Hlh).
set (lock1 := with_userSignature (sl_signature rq) lock).
set (c1 := set_locks (map_set (sl_lockId rq) lock1) c).
destruct (@generateCCMAttestation_of_lockDataHash clk lock1 c1
            assetHash fulfillmentHash lockDataHash Ha Hf Hl Hlh Heid Hnow
            Hsigns) as (att & Hatt).
assert (Hidk : is_hash (id lock) = true) by (now rewrite Hid).
destruct (@addLeaf_defined (id lock) (lockMerkleTree c) Hleaves Hidk)
  as (t & Ht & _).
set (lock2 := with_ccmSignature (att_signature att) lock1).
set (lock3 := with_status ACTIVE lock2).
set (c2 := set_locks (map_set (id lock3) lock3)
             (set_locks (map_set (sl_lockId rq) lock3)
                (set_locks (map_set (sl_lockId rq) lock2) c1))).
set (c3 := set_lockMerkleTree t c2).
set (c4 := set_stateRoot (getRoot (lockMerkleTree c3)) c3).
set (c5 := set_dailyVolume
             (fun dv =>
                map_set (today clk)
                  (or_bigint (map_get (today clk) dv) 0 + amount lock3)
                  dv) c4).
destruct (@generateCommitment_defined lock3 att c5 (sl_signature rq)
            eq_refl Hsig) as (cm & Hcm).
exists c5, {| sl_commitment := cm; sl_status := status lock3 |}.
split; [|split].
- unfold signLock_commit, assign. rewrite bind_modify.
  apply (step_readonly _ _ Hatt).
  rewrite !bind_modify.
  eapply step_tree_addLeaf; [exact Ht|].
  rewrite bind_update_stateRoot, bind_modify.
  apply (step_readonly _ _ Hcm).
  reflexivity.
- reflexivity.
- unfold statusOf, getLock. simpl.
  now rewrite map_get_after_assign.
Qed.
End NoExpiryCheck.

(** C9.  [signLock] has no expiry check.  In an instance that calls can
    produce, for every pending lock and at every clock reading, also past
    the signing window and past [expiresAt], [signLock] with a signature
    of 65 bytes that recovers to the owner from the approval of the lock
    returns and leaves the lock [ACTIVE] (the enclave key signing and the
    clock not being negative).  [cleanupExpiredLocks] writes to active
    locks only: any other lock is found as it was after the sweep.  And
    no call moves a pending lock to [EXPIRED]: after any call at any time
    it is pending, active or cancelled. *)
Theorem signLock_has_no_expiry_check {curve : Secp256k1} :
  (forall clk rq c lock h signer,
      reachable c ->
      getLock (sl_lockId rq) c = Some lock ->
      status lock = PENDING ->
      approvalHash lock = Some h ->
      recoverAddress h (sl_signature rq) = Some signer ->
      same_address signer (owner lock) = true ->
      is_signature (sl_signature rq) = true ->
      signs (privateKey (state c)) ->
      is_uint256 (now clk) = true ->
      exists c' response,
        signLock clk rq c = (c', Ok response)
        /\ sl_status response = ACTIVE
        /\ statusOf (sl_lockId rq) c' = Some ACTIVE)
  /\ (forall clk c k lock,
         reachable c ->
         getLock k c = Some lock ->
         status lock <> ACTIVE ->
         getLock k (fst (cleanupExpiredLocks clk c)) = Some lock)
  /\ (forall clk rq c k lock,
         reachable c ->
         getLock k c = Some lock ->
         status lock = PENDING ->
         exists st, statusOf k (fst (step clk rq c)) = Some st
                    /\ st <> EXPIRED
                    /\ (st = PENDING \/ st = ACTIVE \/ st = CANCELLED)).
Proof.
  split; [|split].
  - intros clk rq c lock h signer Hreach Hget Hst Hh Hrec Hsame Hsig Hsigns
           Hnow.
    rewrite (signLock_accepts clk rq c Hget Hst Hh Hrec Hsame).
    exact (signLock_commit_returns clk rq Hreach Hget Hh Hsig Hsigns Hnow).
  - intros clk c k lock Hreach. apply cleanupExpiredLocks_skips.
    exact (reachable_lock_invariant Hreach).
  - intros clk rq c k lock Hreach Hget Hst.
    destruct (@pending_lock_never_expires curve clk rq c k lock
                (reachable_lock_invariant Hreach) Hget Hst)
      as (st & H1 & H2).
    exists st. split; [exact H1|]. split; [|exact H2].
    destruct H2 as [->|[->| ->]]; discriminate.
Qed.

Lemma signLock_has_no_expiry_check_witness :
  expiresAt Runs.pendingLock < now Cases.long_after
  /\ now Scenario.t0 + 30 < now Cases.long_after
  /\ (exists c' response,
         @signLock Toy.curve Cases.long_after
           {| sl_lockId := Runs.lockId; sl_signature := Runs.userSig |}
           Runs.pending = (c', Ok response)
         /\ sl_status response = ACTIVE
         /\ statusOf Runs.lockId c' = Some ACTIVE)
  /\ getLock Runs.lockId
       (fst (cleanupExpiredLocks Cases.long_after Runs.pending))
     = Some Runs.pendingLock
  /\ (exists st,
         statusOf Runs.lockId
           (fst (@step Toy.curve Cases.long_after CleanupExpiredLocks
                   Runs.pending)) = Some st
         /\ st <> EXPIRED
         /\ (st = PENDING \/ st = ACTIVE \/ st = CANCELLED)).
Proof.
  destruct (@signLock_has_no_expiry_check Toy.curve) as (Hsign & Hsweep & Hany).
  split; [reflexivity|]. split; [reflexivity|]. split; [|split].
  - apply (Hsign Cases.long_after
             {| sl_lockId := Runs.lockId; sl_signature := Runs.userSig |}
             Runs.pending Runs.pendingLock Runs.approval Scenario.user
             reachable_pending).
    + vm_compute; reflexivity.
    + reflexivity.
    + vm_compute; reflexivity.
    + vm_compute; reflexivity.
    + vm_compute; reflexivity.
    + vm_compute; reflexivity.
    + apply toy_signs. reflexivity.
    + reflexivity.
  - apply (Hsweep Cases.long_after Runs.pending Runs.lockId Runs.pendingLock
             reachable_pending).
    + vm_compute; reflexivity.
    + vm_compute; discriminate.
  - apply (Hany Cases.long_after CleanupExpiredLocks Runs.pending Runs.lockId
             Runs.pendingLock reachable_pending).
    + vm_compute; reflexivity.
    + reflexivity.
Defined.



